(** * torch_staintools: dictionary learning and stain-separation normalisation

    A shallow embedding of
      - [torch_staintools/functional/optimization/dict_learning.py]
      - [torch_staintools/normalizer/separation.py]
    Tensors are nested lists of real numbers (the exact-arithmetic reading of
    the floating-point program); in-place tensor updates are written as
    explicit state passing, and where the source relies on two tensors sharing
    one storage the storage is modelled explicitly.  Where the source divides
    by a number that can be zero without a guard, in [transform], the
    infinities and the not-a-number of floating point are modelled beside
    the reals. *)

From Stdlib Require Import String Ascii Bool Arith Lia Reals Lra List.
Import ListNotations.

Set Implicit Arguments.

(* ================================================================== *)
(** * Dense tensors *)
(* ================================================================== *)

Module Tensor.
Local Open Scope R_scope.

(** A 1-d tensor, a 2-d tensor stored by rows, and batched versions. *)
Abbreviation Vec := (list R) (only parsing).
Abbreviation Mat := (list (list R)) (only parsing).
Abbreviation T3 := (list (list (list R))) (only parsing).
Abbreviation T4 := (list (list (list (list R)))) (only parsing).

(** Entry by entry on two lists of one length, which is how the two files
    use it on the documented shapes; on lists of different lengths the
    entries without a partner are dropped, where torch broadcasts or
    raises. *)
Definition zipWith {A B C : Type} (f : A -> B -> C)
           (u : list A) (v : list B) : list C :=
  map (fun p => f (fst p) (snd p)) (combine u v).

(** [t.sum()] *)
Definition vsum (v : Vec) : R := fold_right Rplus 0 v.

Definition dot (u v : Vec) : R := vsum (zipWith Rmult u v).

(** [t.size(0)], [t.size(1)] *)
Definition nrows (m : Mat) : nat := length m.
Definition ncols (m : Mat) : nat := length (hd [] m).

(** [m[:, k]] *)
Definition col (k : nat) (m : Mat) : Vec := map (fun r => nth k r 0) m.

(** [m.T] *)
Definition transpose (m : Mat) : Mat := map (fun j => col j m) (seq 0 (ncols m)).

(** [torch.matmul(a, b)] for two matrices *)
Definition matmul (a b : Mat) : Mat :=
  map (fun r => map (fun j => dot r (col j b)) (seq 0 (ncols b))) a.

(** [torch.matmul(u, m)] for a vector and a matrix *)
Definition vecmat (u : Vec) (m : Mat) : Vec :=
  map (fun j => dot u (col j m)) (seq 0 (ncols m)).

(** [torch.outer(u, v)] *)
Definition outer (u v : Vec) : Mat := map (fun a => map (Rmult a) v) u.

Definition madd (a b : Mat) : Mat := zipWith (zipWith Rplus) a b.
Definition msub (a b : Mat) : Mat := zipWith (zipWith Rminus) a b.

(** All the entries of a matrix, in storage order. *)
Definition entries (m : Mat) : Vec := concat m.

(** [v.norm(p=1)] and [v.norm(p=2)] of the flattened tensor *)
Definition norm1 (v : Vec) : R := vsum (map Rabs v).
Definition norm2 (v : Vec) : R := sqrt (vsum (map (fun x => x ^ 2) v)).

(** [t.mean()]: the sum of all entries over their number. *)
Definition mean (v : Vec) : R := vsum v / INR (length v).

(** [m[:, k] = v] *)
Fixpoint set_nth (k : nat) (x : R) (r : Vec) : Vec :=
  match r, k with
  | [], _ => []
  | _ :: t, O => x :: t
  | h :: t, S k' => h :: set_nth k' x t
  end.

Definition set_col (k : nat) (v : Vec) (m : Mat) : Mat :=
  zipWith (fun r x => set_nth k x r) m v.

(** [v.clamp_(0, None)], [v.abs()], [v / c] *)
Definition clamp_min0 (v : Vec) : Vec := map (Rmax 0) v.
Definition vabs (v : Vec) : Vec := map Rabs v.
Definition vdiv (v : Vec) (c : R) : Vec := map (fun x => x / c) v.

(** [x.clamp_(0, 1)] on one entry *)
Definition clamp01 (x : R) : R := Rmin (Rmax x 0) 1.

(** [rows] blocks of [cols] consecutive entries of [flat] *)
Fixpoint chunks {A : Type} (rows cols : nat) (flat : list A) : list (list A) :=
  match rows with
  | O => []
  | S r => firstn cols flat :: chunks r cols (skipn cols flat)
  end.

(** Entry-wise combination of two tensors along one dimension, a
    dimension of size 1 being expanded to the size of the other. *)
Definition bzip {A B D : Type} (f : A -> B -> D) (u : list A) (v : list B)
  : list D :=
  match u, v with
  | [a], _ => map (f a) v
  | _, [b] => map (fun a => f a b) u
  | _, _ => zipWith f u v
  end.

(** The same for an in-place operation: the tensor written to keeps its
    size, only the other operand is expanded. *)
Definition izip {A B : Type} (f : A -> B -> A) (u : list A) (v : list B)
  : list A :=
  match v with
  | [b] => map (fun a => f a b) u
  | _ => zipWith f u v
  end.

Definition map3 (f : R -> R) (t : T3) : T3 := map (map (map f)) t.

(** [t.unsqueeze(-1)] *)
Definition unsqueeze_last (m : Mat) : T3 := map (map (fun x => [x])) m.

(** [a / b] for two matrices, with broadcasting.  The quotient is that of
    the reals, which is the float's where the divisor is not zero; what
    torch makes of a zero divisor is in [Ieee]. *)
Definition bdiv (a b : Mat) : Mat := bzip (bzip Rdiv) a b.

(** What [t *= c] leaves in [t] *)
Definition imul3 (t c : T3) : T3 := izip (izip (izip Rmult)) t c.

(** [torch.matmul(a, b)] for two batches of matrices *)
Definition bmatmul (a b : T3) : T3 := bzip matmul a b.

(** [t.shape] of a 4-d tensor *)
Definition shape4 (t : T4) : nat * nat * nat * nat :=
  (length t, length (hd [] t), length (hd [] (hd [] t)),
   length (hd [] (hd [] (hd [] t)))).

Definition entries3 (t : T3) : Vec := concat (concat t).
Definition entries4 (t : T4) : Vec := concat (concat (concat t)).

(** The 4-d tensor of the given shape with the entries [flat] *)
Definition unflatten4 (shp : nat * nat * nat * nat) (flat : Vec) : T4 :=
  let '(b, c, h, w) := shp in
  map (fun img => map (fun ch => chunks h w ch) (chunks c (h * w) img))
      (chunks b (c * (h * w)) flat).

Definition numel4 (shp : nat * nat * nat * nat) : nat :=
  let '(b, c, h, w) := shp in b * (c * (h * w)).

Definition map4 (f : R -> R) (t : T4) : T4 := map (map (map (map f))) t.

End Tensor.

(* ================================================================== *)
(** * Effects: generators, exceptions, warnings, tensor storage *)
(* ================================================================== *)

Module Effects.
Import Tensor.
Local Open Scope R_scope.

(** A [torch.Generator]: the sequence of standard-normal values it will
    deliver and how many of them have been consumed. *)
Record Generator := mkGen { tape : nat -> R; pos : nat }.

Definition draw (n : nat) (g : Generator) : Vec * Generator :=
  (map (tape g) (seq (pos g) n), mkGen (tape g) (pos g + n)).

(** The argument [rng: torch.Generator = None]: either [None], which makes
    torch use the process-wide default generator, or the caller's
    generator object. *)
Inductive RngArg := RngNone | RngGiven.

Inductive Exception :=
| AssertionError
| AttributeError (name : string)
| ValueError (msg : string)
| NotImplementedError (msg : string)
| LinAlgError
| RuntimeError (msg : string).

(** What a call does besides returning: warnings, calls of the
    collaborating routines, progress-bar updates. *)
Inductive Event :=
| Warn (msg : string)
| InitCode (mode : string)
| Solve (algorithm : string)
| Progress (loss : R).

(** The mutable state a call can reach: the two generators and the
    storages of 3-d tensors that are updated in place. *)
Record World := mkWorld {
  given_gen : Generator;
  default_gen : Generator;
  heap : list T3
}.

Inductive Result (A : Type) :=
| Ok (a : A)
| Raise (e : Exception).
Arguments Ok {A} a.
Arguments Raise {A} e.

Definition M (A : Type) : Type := World -> Result A * World * list Event.

Definition ret {A : Type} (a : A) : M A := fun w => (Ok a, w, []).

Definition bind {A B : Type} (m : M A) (k : A -> M B) : M B :=
  fun w =>
    match m w with
    | (Ok a, w1, ev1) =>
        match k a w1 with
        | (r, w2, ev2) => (r, w2, ev1 ++ ev2)
        end
    | (Raise e, w1, ev1) => (Raise e, w1, ev1)
    end.

Definition raise {A : Type} (e : Exception) : M A := fun w => (Raise e, w, []).

Definition emit (e : Event) : M unit := fun w => (Ok tt, w, [e]).

(** Python's [assert] *)
Definition assert (b : bool) : M unit :=
  if b then ret tt else raise AssertionError.

Definition lift {A : Type} (r : Result A) : M A := fun w => (r, w, []).

(** Run a routine that consumes random numbers on the generator that
    [rng] designates. *)
Definition with_gen {A : Type} (rng : RngArg)
           (f : Generator -> A * Generator) : M A :=
  fun w =>
    match rng with
    | RngGiven =>
        let (a, g) := f (given_gen w) in
        (Ok a, mkWorld g (default_gen w) (heap w), [])
    | RngNone =>
        let (a, g) := f (default_gen w) in
        (Ok a, mkWorld (given_gen w) g (heap w), [])
    end.

(** [for a in l: s = body(a, s)] *)
Fixpoint for_each {A S : Type} (l : list A) (body : A -> S -> M S) (s : S)
  : M S :=
  match l with
  | [] => ret s
  | a :: l' => bind (body a s) (for_each l' body)
  end.

Definition result_of {A : Type} (o : Result A * World * list Event) : Result A :=
  fst (fst o).
Definition world_of {A : Type} (o : Result A * World * list Event) : World :=
  snd (fst o).
Definition events_of {A : Type} (o : Result A * World * list Event) : list Event :=
  snd o.

Definition is_progress (e : Event) : bool :=
  match e with Progress _ => true | _ => false end.
Definition is_solve (e : Event) : bool :=
  match e with Solve _ => true | _ => false end.
Definition is_init_or_warn (e : Event) : bool :=
  match e with InitCode _ | Warn _ => true | _ => false end.

End Effects.

Declare Scope monad_scope.
Notation "x <- c1 ;; c2" := (Effects.bind c1 (fun x => c2))
(at level 61, c1 at next level, right associativity) : monad_scope.
Notation "' pat <- c1 ;; c2" := (Effects.bind c1 (fun x => match x with pat => c2 end))
(at level 61, pat pattern, c1 at next level, right associativity) : monad_scope.
Notation "c1 ;; c2" := (Effects.bind c1 (fun _ => c2))
(at level 61, right associativity) : monad_scope.

(* ================================================================== *)
(** * Routines the two files import *)
(* ================================================================== *)

Module Collab.
Import Tensor Effects.

(** The [z0] argument of the solvers: a tensor, the name of an
    initialisation mode, or left out. *)
Inductive Z0Arg :=
| Z0Tensor (z : Mat)
| Z0Mode (mode : string)
| Z0Omitted.

(** The routines of the package that are called and not defined in the
    two files: the solvers and the code initialiser ([.solver],
    [.sparse_util]), [get_eps], the optical-density conversion, the
    percentile, the stain extractor; and the torch routines whose result
    is not a matter of entry-wise arithmetic.  They are taken for the
    calls that return: an exception raised inside one of them is not
    modelled, save for the initialiser and the Cholesky factorisation,
    whose failures the two files are written around. *)
Class Collaborators := {
  Kwargs : Type;
  no_kwargs : Kwargs;
  ExtractorArgs : Type;
  initialize_code :
    Mat -> Mat -> R -> string -> Generator -> Result Mat * Generator;
  coord_descent : Mat -> Mat -> Z0Arg -> R -> Kwargs -> Mat;
  ista : Mat -> Z0Arg -> Mat -> R -> Kwargs -> Generator -> Mat * Generator;
  get_eps : Mat -> R;
  orthogonal_ : Mat -> Generator -> Mat * Generator;
  cholesky : Mat -> option Mat;
  cholesky_solve : Mat -> Mat -> Mat;
  rgb2od : T4 -> T4;
  percentile : T3 -> R -> nat -> Mat;
  get_stain_matrix : T4 -> ExtractorArgs -> Generator -> T3 * Generator
}.

End Collab.

(* ================================================================== *)
(** * dict_learning.py *)
(* ================================================================== *)

Module DictLearning.
Import Tensor Effects Collab.
Local Open Scope R_scope.
Local Open Scope monad_scope.

(** ** [lasso_loss] *)

Definition lambda2 : R := 10e-10.
Definition lambda1 : R := 0.1.

(** The expression assigned to [loss] is a 0-dimensional tensor: both
    [norm] calls are made without a [dim] and reduce over every entry.
    [loss.mean()] then averages that single entry.  The argument [alpha]
    is accepted and not used. *)
Definition lasso_loss (X Z weight : Mat) (alpha : R) : R :=
  let X_hat := matmul Z (transpose weight) in
  let loss :=
    0.5 * norm2 (entries (msub X X_hat)) ^ 2
    + norm1 (entries weight) * lambda1
    + lambda2 * norm2 (entries weight) ^ 2 in
  mean [loss].


(** ** [update_dict] *)

Section WithCollaborators.
Context {C : Collaborators}.

(** [dictionary[:, k].normal_(generator=rng)] *)
Definition normal_ (rng : RngArg) (n : nat) : M Vec := with_gen rng (draw n).

(** One turn of the loop over [k].  The state is the dictionary, the code
    and the residual [R]; the source updates all three in place. *)
Definition update_atom (positive : bool) (eps : R) (rng : RngArg) (k : nat)
           (st : Mat * Mat * Mat) : M (Mat * Mat * Mat) :=
  let '(dictionary, code, R) := st in
  let R := madd R (outer (col k code) (col k dictionary)) in
  let dictionary := set_col k (vecmat (col k code) R) dictionary in
  let dictionary :=
    if positive then set_col k (clamp_min0 (col k dictionary)) dictionary
    else dictionary in
  let atom_norm := norm2 (col k dictionary) in
  if Rlt_dec atom_norm eps then
    v <- normal_ rng (length (col k dictionary)) ;;
    let dictionary := set_col k v dictionary in
    let dictionary :=
      if positive then
        let d := set_col k (clamp_min0 (col k dictionary)) dictionary in
        set_col k (vabs (col k d)) d
      else dictionary in
    let column_norm := norm2 (col k dictionary) + get_eps dictionary in
    let dictionary := set_col k (vdiv (col k dictionary) column_norm) dictionary in
    let code := set_col k (map (fun _ => 0) (col k code)) code in
    ret (dictionary, code, R)
  else
    let dictionary := set_col k (vdiv (col k dictionary) atom_norm) dictionary in
    let R := msub R (outer (col k code) (col k dictionary)) in
    ret (dictionary, code, R).

(** The source returns [dictionary], which is the argument object itself,
    and leaves its changes to [code] in the caller's tensor; here both are
    returned. *)
Definition update_dict (dictionary x code : Mat) (positive : bool) (eps : R)
           (rng : RngArg) : M (Mat * Mat) :=
  let n_components := ncols dictionary in
  let R := msub x (matmul code (transpose dictionary)) in
  '(dictionary, code, _) <-
     for_each (seq 0 n_components) (update_atom positive eps rng)
              (dictionary, code, R) ;;
  ret (dictionary, code).

(** ** [update_dict_ridge] *)

(** [M.diagonal().add_(c)] *)
Definition add_diagonal (c : R) (m : Mat) : Mat :=
  zipWith (fun i r => set_nth i (nth i r 0 + c) r) (seq 0 (length m)) m.

Definition update_dict_ridge (x code : Mat) (lambd : R) : M Mat :=
  let rhs := matmul (transpose code) x in
  let M := matmul (transpose code) code in
  let M := add_diagonal (lambd * INR (nrows x)) M in
  match cholesky M with
  | None => raise LinAlgError
  | Some L => ret (transpose (cholesky_solve rhs L))
  end.

(** ** [sparse_encode] *)

Definition _init_defaults : list (string * string) :=
  [("ista", "zero"); ("cd", "zero")]%string.

(** [d.get(key, default)] *)
Fixpoint dict_get (d : list (string * string)) (key default : string) : string :=
  match d with
  | [] => default
  | (k, v) :: d' => if String.eqb k key then v else dict_get d' key default
  end.

Definition shape2 (m : Mat) : nat * nat := (nrows m, ncols m).

Definition shape2_eqb (a b : nat * nat) : bool :=
  Nat.eqb (fst a) (fst b) && Nat.eqb (snd a) (snd b).

Definition invalid_algorithm_message (algorithm : string) : string :=
  ("invalid algorithm parameter '" ++ algorithm ++ "'.")%string.

Definition call_initialize_code (x weight : Mat) (alpha : R) (mode : string)
           (rng : RngArg) : M Mat :=
  emit (InitCode mode) ;;
  r <- with_gen rng (initialize_code x weight alpha mode) ;;
  lift r.

Definition sparse_encode (x weight : Mat) (alpha : R) (z0 : option Mat)
           (algorithm : string) (init : option string) (rng : RngArg)
           (kwargs : Kwargs) : M Mat :=
  let n_samples := nrows x in
  let n_components := ncols weight in
  z0 <- match z0 with
        | Some z0 =>
            assert (shape2_eqb (shape2 z0) (n_samples, n_components)) ;;
            ret z0
        | None =>
            init <- match init with
                    | None => ret (dict_get _init_defaults algorithm "zero")
                    | Some init =>
                        (if String.eqb init "zero"
                            && String.eqb algorithm "iter-ridge"
                         then emit (Warn "Iterative Ridge should not be zero-initialized.")
                         else ret tt) ;;
                        ret init
                    end ;;
            call_initialize_code x weight alpha init rng
        end ;;
  if String.eqb algorithm "cd" then
    emit (Solve "cd") ;;
    ret (coord_descent x weight (Z0Tensor z0) alpha kwargs)
  else if String.eqb algorithm "ista" then
    emit (Solve "ista") ;;
    with_gen rng (ista x (Z0Tensor z0) weight alpha kwargs)
  else
    raise (ValueError (invalid_algorithm_message algorithm)).

(** The keyword arguments [z0], [algorithm] and [init] of [sparse_encode]
    reach it through [**kwargs]; they are arguments of their own here,
    [None], ["ista"] and [None] standing for their absence. *)
Definition dict_evaluate (x weight : Mat) (alpha : R) (rng : RngArg)
           (z0 : option Mat) (algorithm : string) (init : option string)
           (kwargs : Kwargs) : M R :=
  Z <- sparse_encode x weight alpha z0 algorithm init rng kwargs ;;
  ret (lasso_loss x Z weight alpha).

(** ** [dict_learning] *)

(** [torch.randn(rows, cols, generator=rng)] *)
Definition randn (rows cols : nat) (rng : RngArg) : M Mat :=
  v <- with_gen rng (draw (rows * cols)) ;;
  ret (chunks rows cols v).

(** [F.normalize(weight, dim=0)]: every column over its norm, the norm
    taken not smaller than [1e-12]. *)
Definition normalize_dim0 (weight : Mat) : Mat :=
  transpose (map (fun c => vdiv c (Rmax (norm2 c) 1e-12)) (transpose weight)).

(** [losses[i] = l] *)
Definition store_loss (i : nat) (l : R) (losses : Vec) : Vec := set_nth i l losses.

(** One turn of the loop over [i].  [Z0 = Z] binds the name [Z0] (here [Z_0]) to the
    tensor [Z]; the constrained update then zeroes columns of that same
    tensor, so the warm start of the next turn is the code as the update
    left it. *)
Definition learning_step (x : Mat) (alpha : R) (constrained persist : bool)
           (lambd : R) (rng : RngArg) (algorithm : string)
           (init : option string) (solver_kwargs : Kwargs) (i : nat)
           (st : Mat * option Mat * Vec) : M (Mat * option Mat * Vec) :=
  let '(weight, Z_0, losses) := st in
  Z <- sparse_encode x weight alpha Z_0 algorithm init rng solver_kwargs ;;
  let l := lasso_loss x Z weight alpha in
  let losses := store_loss i l losses in
  '(weight, Z) <-
     (if constrained then update_dict weight x Z true 1e-7 rng
      else weight <- update_dict_ridge x Z lambd ;; ret (weight, Z)) ;;
  let Z_0 := if persist then Some Z else Z_0 in
  emit (Progress l) ;;
  ret (weight, Z_0, losses).

(** The keyword arguments [algorithm] and [init] of [sparse_encode] reach
    it through [**solver_kwargs]; they are arguments of their own here,
    ["ista"] and [None] standing for their absence. *)
Definition dict_learning (x : Mat) (n_components : nat) (alpha : R)
           (constrained persist : bool) (lambd : R) (steps : nat)
           (rng : RngArg) (algorithm : string) (init : option string)
           (solver_kwargs : Kwargs) : M (Mat * Vec) :=
  let n_features := ncols x in
  weight <- randn n_features n_components rng ;;
  weight <- with_gen RngNone (orthogonal_ weight) ;;
  let weight := if constrained then normalize_dim0 weight else weight in
  let Z_0 : option Mat := None in
  let losses := repeat 0 steps in
  '(weight, _, losses) <-
     for_each (seq 0 steps)
              (learning_step x alpha constrained persist lambd rng
                             algorithm init solver_kwargs)
              (weight, Z_0, losses) ;;
  ret (weight, losses).

(** ** [get_concentrations] *)

Definition get_concentrations_helper (od_flatten stain_matrix : Mat)
           (regularizer : R) (method : string) (rng : RngArg) : M Mat :=
  if String.eqb method "cd" then
    ret (transpose (coord_descent od_flatten (transpose stain_matrix)
                                  Z0Omitted regularizer no_kwargs))
  else if String.eqb method "ista" then
    z <- with_gen rng (ista od_flatten (Z0Mode "ridge") (transpose stain_matrix)
                            regularizer no_kwargs) ;;
    ret (transpose z)
  else
    raise (NotImplementedError (method ++ " is not a valid optimizer")%string).

(** [od.flatten(start_dim=2, end_dim=-1).permute(0, 2, 1)] *)
Definition flatten_permute (od : T4) : T3 :=
  map (fun img => transpose (map (fun ch => concat ch) img)) od.

(** [for a, b in zip(u, v): acc.append(f(a, b))] *)
Fixpoint zip_map {A B D : Type} (f : A -> B -> M D) (u : list A) (v : list B)
  : M (list D) :=
  match u, v with
  | a :: u', b :: v' =>
      d <- f a b ;;
      ds <- zip_map f u' v' ;;
      ret (d :: ds)
  | _, _ => ret []
  end.

(** [torch.stack(result)], which refuses an empty list *)
Definition stack (result : list Mat) : M T3 :=
  match result with
  | [] => raise (RuntimeError "stack expects a non-empty TensorList")
  | _ => ret result
  end.

Definition get_concentrations (image : T4) (stain_matrix : T3)
           (regularizer : R) (algorithm : string) (rng : RngArg) : M T3 :=
  let od := rgb2od image in
  let od_flatten := flatten_permute od in
  result <- zip_map (fun od_single stain_mat_single =>
                       get_concentrations_helper od_single stain_mat_single
                                                 regularizer algorithm rng)
                    od_flatten stain_matrix ;;
  stack result.

End WithCollaborators.

End DictLearning.

(* ================================================================== *)
(** * separation.py *)
(* ================================================================== *)

Module Separation.
Import Tensor Effects Collab.
Local Open Scope R_scope.
Local Open Scope monad_scope.

(** ** Tensor objects and their storage

    A 3-d tensor object names a storage and says whether its two
    trailing dimensions are swapped with respect to it.  Two objects on
    one storage see each other's in-place updates. *)
Record TensorRef := mkRef { storage : nat; swapped : bool }.

Definition view_of (swap : bool) (t : T3) : T3 :=
  if swap then map transpose t else t.

(** A tensor with a storage of its own, as every torch routine that
    computes its result returns. *)
Definition alloc (t : T3) : M TensorRef :=
  fun w =>
    (Ok (mkRef (length (heap w)) false),
     mkWorld (given_gen w) (default_gen w) (heap w ++ [t]), []).

Definition load (r : TensorRef) : M T3 :=
  fun w => (Ok (view_of (swapped r) (nth (storage r) (heap w) [])), w, []).

Fixpoint set_cell (i : nat) (t : T3) (h : list T3) : list T3 :=
  match h, i with
  | [], _ => []
  | _ :: h', O => t :: h'
  | c :: h', S i' => c :: set_cell i' t h'
  end.

Definition save (r : TensorRef) (t : T3) : M unit :=
  fun w =>
    (Ok tt,
     mkWorld (given_gen w) (default_gen w)
             (set_cell (storage r) (view_of (swapped r) t) (heap w)), []).

(** [t *= c] *)
Definition imul (t : TensorRef) (c : T3) : M unit :=
  v <- load t ;;
  save t (imul3 v c).

Section WithCollaborators.
Context {C : Collaborators}.

(** The attributes of a normalizer.  The buffers are absent until
    [fit] (or [fix_source_stain_matrix]) registers them. *)
Record StainSeperation := mkStainSeperation {
  reconst_method : string;
  stain_matrix_target : option T3;
  target_concentrations : option TensorRef;
  maxC_target : option Mat;
  stain_matrix_source : option T3
}.

(** [__init__] *)
Definition init (reconst_method : string) : StainSeperation :=
  mkStainSeperation reconst_method None None None None.

(** [self.name] of a buffer *)
Definition getattr {A : Type} (name : string) (field : option A) : M A :=
  match field with
  | Some a => ret a
  | None => raise (AttributeError name)
  end.

(** [torch.einsum("ijk -> ikj", mat)].  An einsum that only permutes the
    dimensions of its one operand returns a view of it: a tensor object on
    the same storage. *)
Definition _transpose_trailing (mat : TensorRef) : TensorRef :=
  mkRef (storage mat) (negb (swapped mat)).

(** [get_concentrations] ends in [torch.stack], which gives the result a
    storage of its own. *)
Definition get_concentrations (image : T4) (stain_matrix : T3)
           (regularizer : R) (algorithm : string) (rng : RngArg)
  : M TensorRef :=
  c <- DictLearning.get_concentrations image stain_matrix regularizer
                                       algorithm rng ;;
  alloc c.

Definition call_get_stain_matrix (image : T4) (args : ExtractorArgs) : M T3 :=
  with_gen RngNone (get_stain_matrix image args).

Definition fit (self : StainSeperation) (target : T4) (regularizer : R)
           (args : ExtractorArgs) : M StainSeperation :=
  assert (Nat.eqb (length target) 1) ;;
  stain_matrix_target <- call_get_stain_matrix target args ;;
  target_conc <- get_concentrations target stain_matrix_target regularizer
                                    (reconst_method self) RngNone ;;
  let conc_transpose := _transpose_trailing target_conc in
  ct <- load conc_transpose ;;
  let max_c_target := percentile ct 99 1 in
  ret (mkStainSeperation (reconst_method self) (Some stain_matrix_target)
                         (Some target_conc) (Some max_c_target)
                         (stain_matrix_source self)).

Definition fix_source_stain_matrix (self : StainSeperation) (image : T4)
           (args : ExtractorArgs) : M StainSeperation :=
  s <- call_get_stain_matrix image args ;;
  ret (mkStainSeperation (reconst_method self) (stain_matrix_target self)
                         (target_concentrations self) (maxC_target self)
                         (Some s)).

(** [stain_mat.repeat(image.shape[0], 1, 1)]; a stain matrix is 3-d, so
    [torch.atleast_3d] returns it as it is. *)
Definition repeat_stain_mat (stain_mat : T3) (image : T4) : T3 :=
  concat (repeat stain_mat (length image)).

(** [out.reshape(image.shape)] *)
Definition reshape (out : T3) (shp : nat * nat * nat * nat) : M T4 :=
  if Nat.eqb (length (entries3 out)) (numel4 shp)
  then ret (unflatten4 shp (entries3 out))
  else raise (RuntimeError "shape is invalid for input size").

Definition transform (self : StainSeperation) (image : T4)
           (args : ExtractorArgs) : M T4 :=
  stain_matrix_source <-
    match stain_matrix_source self with
    | None => call_get_stain_matrix image args
    | Some s => ret s
    end ;;
  let stain_matrix_source := repeat_stain_mat stain_matrix_source image in
  source_concentration <-
    get_concentrations image stain_matrix_source 0.01
                       (reconst_method self) RngNone ;;
  let c_transposed_srd := _transpose_trailing source_concentration in
  ct <- load c_transposed_srd ;;
  let maxC := percentile ct 99 1 in
  maxC_target <- getattr "maxC_target" (maxC_target self) ;;
  let c_scale := unsqueeze_last (bdiv maxC_target maxC) in
  imul source_concentration c_scale ;;
  ct <- load c_transposed_srd ;;
  stain_matrix_target <- getattr "stain_matrix_target" (stain_matrix_target self) ;;
  out <- alloc (map3 (fun v => exp (-1 * v)) (bmatmul ct stain_matrix_target)) ;;
  let out := _transpose_trailing out in
  o <- load out ;;
  r <- reshape o (shape4 image) ;;
  ret (map4 clamp01 r).

(** [forward] *)
Definition forward (self : StainSeperation) (x : T4) (args : ExtractorArgs)
  : M T4 := transform self x args.

End WithCollaborators.

End Separation.

(* ================================================================== *)
(** * The special values of floating point in [transform] *)
(* ================================================================== *)

Module Ieee.
Import Tensor Effects Collab Separation.
Local Open Scope R_scope.

(** A float32 value as far as its class goes: a finite number, an
    infinity, or not-a-number.  On finite numbers the arithmetic is that
    of the reals (rounding and overflow are left out, and zero has one
    sign); on the special values it is that of IEEE 754, with which torch
    computes. *)
Inductive Fp :=
| Finite (r : R)
| Infinity (negative : bool)
| NaN.

Definition is_negative (r : R) : bool := if Rlt_dec r 0 then true else false.

(** [a / b]: a finite number over zero is an infinity, zero over zero is
    not a number. *)
Definition fp_div (a b : Fp) : Fp :=
  match a, b with
  | NaN, _ | _, NaN => NaN
  | Finite x, Finite y =>
      if Req_dec_T y 0
      then (if Req_dec_T x 0 then NaN else Infinity (is_negative x))
      else Finite (x / y)
  | Finite _, Infinity _ => Finite 0
  | Infinity s, Finite y => Infinity (xorb s (is_negative y))
  | Infinity _, Infinity _ => NaN
  end.

(** [a * b]: zero times an infinity is not a number. *)
Definition fp_mul (a b : Fp) : Fp :=
  match a, b with
  | NaN, _ | _, NaN => NaN
  | Finite x, Finite y => Finite (x * y)
  | Finite x, Infinity s | Infinity s, Finite x =>
      if Req_dec_T x 0 then NaN else Infinity (xorb s (is_negative x))
  | Infinity s, Infinity t => Infinity (xorb s t)
  end.

(** [a + b] *)
Definition fp_add (a b : Fp) : Fp :=
  match a, b with
  | NaN, _ | _, NaN => NaN
  | Finite x, Finite y => Finite (x + y)
  | Finite _, Infinity s | Infinity s, Finite _ => Infinity s
  | Infinity s, Infinity t => if Bool.eqb s t then Infinity s else NaN
  end.

(** [torch.exp] *)
Definition fp_exp (a : Fp) : Fp :=
  match a with
  | Finite x => Finite (exp x)
  | Infinity true => Finite 0
  | Infinity false => Infinity false
  | NaN => NaN
  end.

(** [x.clamp_(0, 1)] on one entry: an infinity is brought to the bound,
    not-a-number stays what it is. *)
Definition fp_clamp01 (a : Fp) : Fp :=
  match a with
  | Finite x => Finite (clamp01 x)
  | Infinity true => Finite 0
  | Infinity false => Finite 1
  | NaN => NaN
  end.

(** The tensor operations of [Tensor] on such values. *)
Definition fp_dot (u v : list Fp) : Fp :=
  fold_right fp_add (Finite 0) (zipWith fp_mul u v).

Definition fp_col (k : nat) (m : list (list Fp)) : list Fp :=
  map (fun r => nth k r (Finite 0)) m.

Definition fp_transpose (m : list (list Fp)) : list (list Fp) :=
  map (fun j => fp_col j m) (seq 0 (length (hd [] m))).

Definition fp_matmul (a b : list (list Fp)) : list (list Fp) :=
  map (fun r => map (fun j => fp_dot r (fp_col j b)) (seq 0 (length (hd [] b)))) a.

Definition fp_unflatten4 (shp : nat * nat * nat * nat) (flat : list Fp)
  : list (list (list (list Fp))) :=
  let '(b, c, h, w) := shp in
  map (fun img => map (fun ch => chunks h w ch) (chunks c (h * w) img))
      (chunks b (c * (h * w)) flat).

(** A tensor of real numbers as a tensor of finite values. *)
Definition finite2 (m : Mat) : list (list Fp) := map (map Finite) m.
Definition finite3 (t : T3) : list (list (list Fp)) := map finite2 t.
Definition finite4 (t : T4) : list (list (list (list Fp))) := map finite3 t.

(** A value in [[0, 1]]: a finite one between the bounds. *)
Definition fp_in_unit (v : Fp) : Prop :=
  match v with
  | Finite r => 0 <= r <= 1
  | _ => False
  end.

Section WithCollaborators.
Context {C : Collaborators}.

(** Lines 133 to 141 of [transform], from the concentrations on, with the
    special values in place.  [source_concentration] holds the finite
    values the estimate returned; [c_transposed_srd] is the view on its
    storage, so it is read off the tensor as the in-place product left
    it. *)
Definition after_concentrations_ieee (self : StainSeperation) (image : T4)
           (conc : T3) : Result (list (list (list (list Fp)))) :=
  let source_concentration := finite3 conc in
  let maxC := percentile (map transpose conc) 99 1 in
  match maxC_target self with
  | None => Raise (AttributeError "maxC_target")
  | Some maxC_target =>
      let c_scale :=
        map (map (fun x => [x]))
            (bzip (bzip fp_div) (finite2 maxC_target) (finite2 maxC)) in
      let source_concentration :=
        izip (izip (izip fp_mul)) source_concentration c_scale in
      let c_transposed_srd := map fp_transpose source_concentration in
      match stain_matrix_target self with
      | None => Raise (AttributeError "stain_matrix_target")
      | Some stain_matrix_target =>
          let out :=
            map (map (map (fun v => fp_exp (fp_mul (Finite (-1)) v))))
                (bzip fp_matmul c_transposed_srd (finite3 stain_matrix_target)) in
          let out := map fp_transpose out in
          let flat := concat (concat out) in
          if Nat.eqb (length flat) (numel4 (shape4 image))
          then Ok (map (map (map (map fp_clamp01)))
                       (fp_unflatten4 (shape4 image) flat))
          else Raise (RuntimeError "shape is invalid for input size")
      end
  end.

(** [transform]: lines 122 to 131 give the concentrations, which are
    finite; the rest is as above. *)
Definition transform_ieee (self : StainSeperation) (image : T4)
           (args : ExtractorArgs) (w : World)
  : Result (list (list (list (list Fp)))) :=
  match
    result_of
      (bind (match stain_matrix_source self with
             | None => call_get_stain_matrix image args
             | Some s => ret s
             end)
            (fun stain_matrix_source =>
               DictLearning.get_concentrations
                 image (repeat_stain_mat stain_matrix_source image) 0.01
                 (reconst_method self) RngNone) w)
  with
  | Ok source_concentration =>
      after_concentrations_ieee self image source_concentration
  | Raise e => Raise e
  end.

End WithCollaborators.

End Ieee.

(* ================================================================== *)
(** * A small instance of the imported routines *)
(* ================================================================== *)

Module Toy.
Import Tensor Effects Collab.
Local Open Scope R_scope.

Definition zeros (rows cols : nat) : Mat := repeat (repeat 0 cols) rows.

(** Zero initialisation; every other mode is refused. *)
Definition toy_initialize_code (x weight : Mat) (alpha : R) (mode : string)
           (g : Generator) : Result Mat * Generator :=
  if String.eqb mode "zero"
  then (Ok (zeros (nrows x) (ncols weight)), g)
  else (Raise (ValueError mode), g).

(** Solvers that return their starting point, or without one the leading
    features of every sample. *)
Definition toy_solve (x weight : Mat) (z0 : Z0Arg) : Mat :=
  match z0 with
  | Z0Tensor z => z
  | _ => map (firstn (ncols weight)) x
  end.

(** The factor and the solution for matrices of size one. *)
Definition toy_cholesky (m : Mat) : option Mat :=
  match m with
  | [[a]] => if Rlt_dec 0 a then Some [[sqrt a]] else None
  | _ => None
  end.

Definition toy_cholesky_solve (b l : Mat) : Mat :=
  match l with
  | [[c]] => [map (fun v => v / (c * c)) (hd [] b)]
  | _ => b
  end.

(** The largest entry of each column, for the percentile. *)
Definition toy_percentile (t : T3) (q : R) (dim : nat) : Mat :=
  map (fun m => map (fun c => fold_right Rmax 0 c) (transpose m)) t.

Definition toy : Collaborators := {|
  Kwargs := unit;
  no_kwargs := tt;
  ExtractorArgs := unit;
  initialize_code := toy_initialize_code;
  coord_descent := fun x w z0 _ _ => toy_solve x w z0;
  ista := fun x z0 w _ _ g => (toy_solve x w z0, g);
  get_eps := fun _ => / 2 ^ 23;
  orthogonal_ := fun m g => (m, g);
  cholesky := toy_cholesky;
  cholesky_solve := toy_cholesky_solve;
  rgb2od := fun t => t;
  percentile := toy_percentile;
  get_stain_matrix := fun _ _ g => ([[[1]]], g)
|}.

(** A generator whose every value is [v]. *)
Definition constant_gen (v : R) : Generator := mkGen (fun _ => v) 0.

Definition world0 : World := mkWorld (constant_gen (-1)) (constant_gen (-1)) [].

(** A fitted normalizer for one stain and one colour channel, its target
    concentrations in the first storage, and an image of one pixel. *)
Definition fitted0 : Separation.StainSeperation :=
  Separation.mkStainSeperation "ista" (Some [[[1]]])
    (Some (Separation.mkRef 0 false)) (Some [[1]]) None.

Definition world1 : World :=
  mkWorld (constant_gen (-1)) (constant_gen (-1)) [[[[1]]]].

Definition image0 : T4 := [[[[0.5]]]].

End Toy.


(* ================================================================== *)
(** * The vocabulary of the statements *)
(* ================================================================== *)

Module Spec.
Import Tensor Effects Collab DictLearning Separation.
Local Open Scope string_scope.
Local Open Scope R_scope.

(** The loss as the specification words it: the squared reconstruction
    error of each sample, averaged over the samples, plus the two
    penalties on the weight. *)
Definition lasso_loss_spec (X Z W : Mat) (alpha : R) : R :=
  mean (map (fun r => 0.5 * norm2 r ^ 2) (msub X (matmul Z (transpose W))))
  + 0.1 * norm1 (entries W)
  + 1e-9 * norm2 (entries W) ^ 2.

(** The generator that [rng] designates in a world. *)
Definition gen_of (rng : RngArg) (w : World) : Generator :=
  match rng with RngGiven => given_gen w | RngNone => default_gen w end.

(** The initialisation mode in force when no warm start is given. *)
Definition resolved_init (algorithm : string) (init : option string) : string :=
  match init with
  | None => dict_get _init_defaults algorithm "zero"
  | Some i => i
  end.

(** How many losses were reported, how many solver calls were made. *)
Definition count_progress (ev : list Event) : nat := length (filter is_progress ev).

Definition count_solve (ev : list Event) : nat := length (filter is_solve ev).

(** How many times the code was initialised. *)
Definition is_init_code (e : Event) : bool :=
  match e with InitCode _ => true | _ => false end.

Definition count_init (ev : list Event) : nat := length (filter is_init_code ev).

(** The errors of the concentration estimate and of the reshape. *)
Definition estimate_error (e : Exception) : Prop :=
  match e with
  | NotImplementedError _ | RuntimeError _ => True
  | _ => False
  end.

(** A computation that leaves the tensor storages and the caller's
    generator alone, reports nothing, and raises no other errors than
    those. *)
Definition quiet {A : Type} (m : M A) : Prop :=
  forall w,
    heap (world_of (m w)) = heap w
    /\ given_gen (world_of (m w)) = given_gen w
    /\ events_of (m w) = []
    /\ forall e, result_of (m w) = Raise e -> estimate_error e.

(** A matrix with [r] rows of [c] entries; its entry in row [i], column [j]. *)
Definition is_matrix (r c : nat) (m : Mat) : Prop :=
  length m = r /\ Forall (fun row => length row = c) m.

Definition entry (i j : nat) (m : Mat) : R := nth j (nth i m []) 0.

(** A batch of [b] matrices with [r] rows of [c] entries. *)
Definition is_tensor3 (b r c : nat) (t : T3) : Prop :=
  length t = b /\ Forall (is_matrix r c) t.

(** [c] times the identity of size [n] *)
Definition scaled_identity (n : nat) (c : R) : Mat :=
  map (fun i => map (fun j => if Nat.eqb i j then c else 0) (seq 0 n)) (seq 0 n).

(** The matrix of the normal equations, [Z^T Z + lambda N I]. *)
Definition normal_matrix (code : Mat) (lambd : R) (N : nat) : Mat :=
  madd (matmul (transpose code) code)
       (scaled_identity (ncols code) (lambd * INR N)).

(** The product of a matrix and a column vector. *)
Definition matvec (m : Mat) (v : Vec) : Vec := map (fun row => dot row v) m.

(** The sum of [g i] over the [i] below [n] *)
Definition sum_n (n : nat) (g : nat -> R) : R := vsum (map g (seq 0 n)).

(** A square matrix of size [n] equal to its transpose; one whose
    quadratic form is positive on every vector but zero. *)
Definition symmetric (n : nat) (m : Mat) : Prop :=
  forall i j, (i < n)%nat -> (j < n)%nat -> entry i j m = entry j i m.

Definition positive_definite (n : nat) (m : Mat) : Prop :=
  forall v, length v = n -> v <> repeat 0 n -> 0 < dot v (matvec m v).

(** The Beer-Lambert reconstruction [exp(-concentration * stain_matrix)]
    of concentrations given with one row for each stain: one row of pixels
    for each colour channel. *)
Definition beer_lambert (conc : T3) (stain_matrix : T3) : T3 :=
  map transpose
      (map3 (fun v => exp (-1 * v)) (bmatmul (map transpose conc) stain_matrix)).

(** The reconstruction brought to the layout [shp] of the image and
    clamped to [[0, 1]]; the reshape is refused when the number of entries
    differs. *)
Definition reshape_clamp (out : T3) (shp : nat * nat * nat * nat) : Result T4 :=
  if Nat.eqb (length (entries3 out)) (numel4 shp)
  then Ok (map4 clamp01 (unflatten4 shp (entries3 out)))
  else Raise (RuntimeError "shape is invalid for input size").

(** ** The constrained update, piece by piece *)

(** The residual with the contribution of atom [k] added back. *)
Definition residual_without (k : nat) (dictionary code Res : Mat) : Mat :=
  madd Res (outer (col k code) (col k dictionary)).

(** The dictionary once atom [k] has been recomputed and, if asked,
    clamped. *)
Definition recomputed (positive : bool) (k : nat) (dictionary code Res : Mat) : Mat :=
  let Res := residual_without k dictionary code Res in
  let dictionary := set_col k (vecmat (col k code) Res) dictionary in
  if positive then set_col k (clamp_min0 (col k dictionary)) dictionary
  else dictionary.

(** The dictionary once atom [k] has been divided by its norm. *)
Definition rescaled_atom (k : nat) (dictionary : Mat) : Mat :=
  set_col k (vdiv (col k dictionary) (norm2 (col k dictionary))) dictionary.

(** What the reseed makes of a draw before the division: the clamp, then
    the absolute value, when the atoms are to be non-negative. *)
Definition seed (positive : bool) (v : Vec) : Vec :=
  if positive then vabs (clamp_min0 v) else v.

(** The dictionary once the draw [v] has been written to atom [k] and
    made non-negative. *)
Definition seeded (positive : bool) (k : nat) (v : Vec) (dictionary : Mat) : Mat :=
  let dictionary := set_col k v dictionary in
  if positive then
    let d := set_col k (clamp_min0 (col k dictionary)) dictionary in
    set_col k (vabs (col k d)) d
  else dictionary.

(** The world once [n] values have been drawn from the generator that
    [rng] designates. *)
Definition after_draw (rng : RngArg) (n : nat) (w : World) : World :=
  match rng with
  | RngGiven => mkWorld (snd (draw n (given_gen w))) (default_gen w) (heap w)
  | RngNone => mkWorld (given_gen w) (snd (draw n (default_gen w))) (heap w)
  end.

(** An atom that was found healthy: a vector, non-negative when atoms are
    to be, of norm not below [eps], divided by its norm. *)
Definition healthy_atom (positive : bool) (eps : R) (atom : Vec) : Prop :=
  exists a,
    (positive = true -> Forall (fun x => 0 <= x) a)
    /\ ~ norm2 a < eps
    /\ atom = vdiv a (norm2 a).

Section WithCollaborators.
Context {C : Collaborators}.

(** The claim as the specification words it: an unknown algorithm makes
    the call fail at once, nothing having happened. *)
Definition fails_without_partial_work
           (x weight : Mat) (alpha : R) (z0 : option Mat)
           (algorithm : string) (init : option string) (rng : RngArg)
           (kwargs : Kwargs) (w : World) : Prop :=
  let o := sparse_encode x weight alpha z0 algorithm init rng kwargs w in
  result_of o = Raise (ValueError (invalid_algorithm_message algorithm))
  /\ events_of o = [].

(** The two halves of [sparse_encode]: the code variable, then the
    inference. *)
Definition code_variable (x weight : Mat) (alpha : R) (z0 : option Mat)
           (algorithm : string) (init : option string) (rng : RngArg)
  : M Mat :=
  match z0 with
  | Some z0 =>
      bind (assert (shape2_eqb (shape2 z0) (nrows x, ncols weight)))
           (fun _ => ret z0)
  | None =>
      bind (match init with
            | None => ret (dict_get _init_defaults algorithm "zero")
            | Some init =>
                bind (if (init =? "zero") && (algorithm =? "iter-ridge")
                      then emit (Warn "Iterative Ridge should not be zero-initialized.")
                      else ret tt)
                     (fun _ => ret init)
            end)
           (fun init => call_initialize_code x weight alpha init rng)
  end.

Definition inference (x weight : Mat) (alpha : R) (algorithm : string)
           (rng : RngArg) (kwargs : Kwargs) (z0 : Mat) : M Mat :=
  if algorithm =? "cd" then
    bind (emit (Solve "cd"))
         (fun _ => ret (coord_descent x weight (Z0Tensor z0) alpha kwargs))
  else if algorithm =? "ista" then
    bind (emit (Solve "ista"))
         (fun _ => with_gen rng (ista x (Z0Tensor z0) weight alpha kwargs))
  else raise (ValueError (invalid_algorithm_message algorithm)).

(** What [torch.linalg.cholesky] and [torch.cholesky_solve] are documented
    to do, for matrices of size [n]: a symmetric positive-definite matrix
    has its lower factor returned, a symmetric matrix that is not
    positive definite is refused; the solve returns the solution of the
    system whose matrix is the product of the factor and its transpose. *)
Definition cholesky_contract (n : nat) : Prop :=
  forall m, is_matrix n n m -> symmetric n m ->
    (positive_definite n m ->
     exists L, cholesky m = Some L /\ is_matrix n n L
               /\ matmul L (transpose L) = m)
    /\ (~ positive_definite n m -> cholesky m = None).

Definition cholesky_solve_contract (n : nat) : Prop :=
  forall f B L,
    is_matrix n f B -> is_matrix n n L ->
    positive_definite n (matmul L (transpose L)) ->
    is_matrix n f (cholesky_solve B L)
    /\ matmul (matmul L (transpose L)) (cholesky_solve B L) = B.

(** The concentrations of the source image, as [transform] obtains them:
    with the fixed source stain matrix if there is one, else with the one
    extracted from the image, repeated over the batch. *)
Definition source_concentrations (self : StainSeperation) (image : T4)
           (args : ExtractorArgs) : M T3 :=
  bind (match stain_matrix_source self with
        | None => call_get_stain_matrix image args
        | Some s => ret s
        end)
       (fun s =>
          DictLearning.get_concentrations image (repeat_stain_mat s image)
                                          0.01 (reconst_method self) RngNone).

(** Steps 4 to 6 of the specification, on the values: the scale of the
    source, the factor target scale over source scale, the rescaled
    concentrations, the Beer-Lambert reconstruction from them in the
    target's stains, the reshaping and the clamp. *)
Definition rescale_factor (maxC_target : Mat) (conc : T3) : Mat :=
  bdiv maxC_target (percentile (map transpose conc) 99 1).

Definition rescaled (maxC_target : Mat) (conc : T3) : T3 :=
  imul3 conc (unsqueeze_last (rescale_factor maxC_target conc)).

Definition reconstruct (maxC_target : Mat) (stain_matrix_target : T3)
           (shp : nat * nat * nat * nat) (conc : T3) : Result T4 :=
  reshape_clamp (beer_lambert (rescaled maxC_target conc) stain_matrix_target) shp.

(** What [transform] does once it has the concentrations. *)
Definition after_concentrations (self : StainSeperation) (image : T4)
           (conc : T3) : M T4 :=
  bind (alloc conc) (fun source_concentration =>
  let c_transposed_srd := _transpose_trailing source_concentration in
  bind (load c_transposed_srd) (fun ct =>
  let maxC := percentile ct 99 1 in
  bind (getattr "maxC_target" (maxC_target self)) (fun maxC_target =>
  let c_scale := unsqueeze_last (bdiv maxC_target maxC) in
  bind (imul source_concentration c_scale) (fun _ =>
  bind (load c_transposed_srd) (fun ct =>
  bind (getattr "stain_matrix_target" (stain_matrix_target self))
       (fun stain_matrix_target =>
  bind (alloc (map3 (fun v => exp (-1 * v)) (bmatmul ct stain_matrix_target)))
       (fun out =>
  let out := _transpose_trailing out in
  bind (load out) (fun o =>
  bind (reshape o (shape4 image)) (fun r =>
  ret (map4 clamp01 r)))))))))).

(** The dictionary once atom [k] has been reseeded with the draw [v]. *)
Definition reseeded (positive : bool) (k : nat) (v : Vec) (dictionary : Mat) : Mat :=
  let dictionary := seeded positive k v dictionary in
  let column_norm := norm2 (col k dictionary) + get_eps dictionary in
  set_col k (vdiv (col k dictionary) column_norm) dictionary.

(** An atom that was reseeded: [f] consecutive values of the generator,
    made non-negative when atoms are to be, divided by their norm plus the
    floor [get_eps]. *)
Definition reseeded_atom (positive : bool) (f : nat) (values : nat -> R)
           (atom : Vec) : Prop :=
  exists p m,
    atom = vdiv (seed positive (map values (seq p f)))
                (norm2 (seed positive (map values (seq p f))) + get_eps m).

(** What a call leaves of atom [k] and of column [k] of the code: the atom
    healthy and the code column as it was, which a zero column excludes;
    or the atom reseeded and the code column zeroed. *)
Definition atom_outcome (positive : bool) (eps : R) (f : nat)
           (values : nat -> R) (code_col atom code_col' : Vec) : Prop :=
  (healthy_atom positive eps atom /\ code_col' = code_col
   /\ ~ Forall (fun x => x = 0) code_col)
  \/ (reseeded_atom positive f values atom
      /\ code_col' = map (fun _ => 0) code_col).

(** What the imported routines are documented to return: the solvers and
    the initialiser a code with one row for each sample and one column for
    each atom, the orthogonal initialisation a matrix of the size it was
    given. *)
Definition solver_contract : Prop :=
  forall n f c x weight z alpha kwargs g,
    is_matrix n f x -> is_matrix f c weight -> is_matrix n c z ->
    is_matrix n c (coord_descent x weight (Z0Tensor z) alpha kwargs)
    /\ is_matrix n c (fst (ista x (Z0Tensor z) weight alpha kwargs g)).

Definition initialize_contract (mode : string) : Prop :=
  forall n f c x weight alpha g,
    (0 < f)%nat -> is_matrix n f x -> is_matrix f c weight ->
    exists z g',
      initialize_code x weight alpha mode g = (Ok z, g') /\ is_matrix n c z.

Definition orthogonal_contract : Prop :=
  forall f c weight g,
    is_matrix f c weight -> is_matrix f c (fst (orthogonal_ weight g)).

(** A valid input of [dict_learning]: at least one sample, one feature and
    one atom, one of the two algorithms, routines that keep to their
    contracts and, for the ridge update, a positive weight decay. *)
Definition valid_input (x : Mat) (n_components : nat) (constrained : bool)
           (lambd : R) (algorithm : string) (init : option string) : Prop :=
  (algorithm = "cd" \/ algorithm = "ista")
  /\ exists n f,
      (0 < n)%nat /\ (0 < f)%nat /\ (0 < n_components)%nat
      /\ is_matrix n f x
      /\ initialize_contract (resolved_init algorithm init)
      /\ solver_contract /\ orthogonal_contract
      /\ (constrained = true
          \/ (0 < lambd /\ cholesky_contract n_components
              /\ cholesky_solve_contract n_components)).

End WithCollaborators.

End Spec.

(* ================================================================== *)
(** * Facts about tensors *)
(* ================================================================== *)

Module TensorFacts.
Import Tensor.
Local Open Scope R_scope.

(** Evaluate the list structure of a tensor expression and leave the
    arithmetic on its entries as it stands. *)
Ltac list_eval :=
  cbv [msub madd matmul vecmat outer transpose zipWith combine map seq
       ncols nrows hd length col nth dot vsum fold_right entries concat app
       norm1 fst snd set_col set_nth clamp_min0 vabs vdiv chunks firstn
       skipn bzip izip map3 map4 unsqueeze_last bdiv imul3 bmatmul shape4
       entries3 entries4 unflatten4 numel4 repeat Nat.mul Nat.add].

Lemma vsum_app (u v : Vec) : vsum (u ++ v) = vsum u + vsum v.
Proof.
  induction u as [|a u IH]; [simpl; lra|].
  change (a + vsum (u ++ v) = a + vsum u + vsum v). rewrite IH; lra.
Qed.

Lemma vsum_cons (a : R) (v : Vec) : vsum (a :: v) = a + vsum v.
Proof. reflexivity. Qed.

Lemma vsum_sq_nonneg (v : Vec) : 0 <= vsum (map (fun x => x ^ 2) v).
Proof.
  induction v as [|a v IH]; [simpl; lra|].
  change (0 <= a ^ 2 + vsum (map (fun x => x ^ 2) v)).
  pose proof (pow2_ge_0 a). lra.
Qed.

Lemma norm2_sq (v : Vec) : norm2 v ^ 2 = vsum (map (fun x => x ^ 2) v).
Proof.
  unfold norm2. simpl. rewrite Rmult_1_r.
  apply sqrt_sqrt, vsum_sq_nonneg.
Qed.

Lemma norm2_nonneg (v : Vec) : 0 <= norm2 v.
Proof. apply sqrt_pos. Qed.

Lemma clamp01_range (x : R) : 0 <= clamp01 x <= 1.
Proof.
  unfold clamp01, Rmin, Rmax.
  destruct (Rle_dec x 0); destruct (Rle_dec _ 1); lra.
Qed.

Lemma length_zipWith {A B D : Type} (f : A -> B -> D) u v :
  length (zipWith f u v) = Nat.min (length u) (length v).
Proof. unfold zipWith. now rewrite length_map, length_combine. Qed.

Lemma mean_singleton (x : R) : mean [x] = x.
Proof. unfold mean. simpl. lra. Qed.

(** The squared norm of all entries is the sum of the squared norms of
    the rows. *)
Lemma norm2_entries_sq (m : Mat) :
  norm2 (entries m) ^ 2 = vsum (map (fun r => norm2 r ^ 2) m).
Proof.
  rewrite norm2_sq. unfold entries.
  induction m as [|r m IH]; [reflexivity|].
  cbn [concat map]. rewrite map_app, vsum_app, vsum_cons, IH, norm2_sq.
  reflexivity.
Qed.

Lemma nth_set_nth (i j : nat) (x : R) (l : list R) :
  nth j (set_nth i x l) 0
  = if Nat.eqb j i && Nat.ltb i (length l) then x else nth j l 0.
Proof.
  revert i j. induction l as [|h l IH]; intros i j.
  - destruct i, j; cbn; rewrite ?andb_false_r; reflexivity.
  - destruct i as [|i], j as [|j]; cbn [set_nth nth length]; try reflexivity.
    rewrite IH. reflexivity.
Qed.

Lemma length_set_nth (i : nat) (x : R) (l : list R) :
  length (set_nth i x l) = length l.
Proof.
  revert i. induction l as [|h l IH]; intros [|i]; cbn; auto.
Qed.

Lemma nth_map_in {A B : Type} (g : A -> B) (l : list A) (i : nat) (d : A) (d' : B) :
  (i < length l)%nat -> nth i (map g l) d' = g (nth i l d).
Proof.
  intros H. rewrite (nth_indep _ d' (g d)) by (now rewrite length_map).
  apply map_nth.
Qed.

Lemma length_chunks {A : Type} (r c : nat) (l : list A) :
  length (chunks r c l) = r.
Proof.
  revert l. induction r as [|r IH]; intro l; cbn; [reflexivity | now rewrite IH].
Qed.

End TensorFacts.

(* ================================================================== *)
(** * Facts about matrices *)
(* ================================================================== *)

Module MatrixFacts.
Import Tensor DictLearning Spec TensorFacts.
Local Open Scope R_scope.

(** ** Matrices of a given size, entry by entry *)

Lemma nth_zipWith {A B D : Type} (f : A -> B -> D) (u : list A) (v : list B)
      (i : nat) (da : A) (db : B) (dd : D) :
  (i < length u)%nat -> (i < length v)%nat ->
  nth i (zipWith f u v) dd = f (nth i u da) (nth i v db).
Proof.
  revert v i. induction u as [|a u IH]; intros [|b v] [|i] Hu Hv;
    cbn in *; try lia; [reflexivity|].
  apply IH; lia.
Qed.

Lemma nth_map_seq {A : Type} (f : nat -> A) (n i : nat) (d : A) :
  (i < n)%nat -> nth i (map f (seq 0 n)) d = f i.
Proof.
  intros H. rewrite (nth_indep _ d (f 0%nat)) by (now rewrite length_map, length_seq).
  rewrite (map_nth f (seq 0 n) 0%nat i), seq_nth by assumption. reflexivity.
Qed.

Lemma nth_col (j i : nat) (m : Mat) : nth i (col j m) 0 = entry i j m.
Proof.
  unfold col, entry.
  destruct (Nat.lt_ge_cases i (length m)) as [H|H].
  - rewrite (nth_indep _ 0 (nth j [] 0)) by (now rewrite length_map).
    now rewrite (map_nth (fun r => nth j r 0) m [] i).
  - rewrite (nth_overflow (map _ m)) by (now rewrite length_map).
    rewrite (nth_overflow m) by assumption. now destruct j.
Qed.

Lemma is_matrix_row (r c : nat) (m : Mat) (i : nat) :
  is_matrix r c m -> (i < r)%nat -> length (nth i m []) = c.
Proof.
  intros [Hl Hf] Hi. rewrite Forall_forall in Hf.
  apply Hf, nth_In. lia.
Qed.

Lemma is_matrix_ncols (r c : nat) (m : Mat) :
  is_matrix r c m -> (0 < r)%nat -> ncols m = c.
Proof.
  intros H Hr. unfold ncols.
  replace (hd [] m) with (nth 0 m []) by (now destruct m).
  now apply (is_matrix_row H).
Qed.

(** Two matrices of one size with the same entries are equal. *)
Lemma matrix_ext (r c : nat) (a b : Mat) :
  is_matrix r c a -> is_matrix r c b ->
  (forall i j, (i < r)%nat -> (j < c)%nat -> entry i j a = entry i j b) ->
  a = b.
Proof.
  intros Ha Hb H.
  apply (nth_ext a b [] []); [destruct Ha, Hb; congruence|].
  intros i Hi. destruct Ha as [La Fa] eqn:Ea. clear Ea.
  assert (Hi' : (i < r)%nat) by lia.
  apply (nth_ext _ _ 0 0).
  - rewrite (is_matrix_row (conj La Fa) Hi'), (is_matrix_row Hb Hi'). reflexivity.
  - intros j Hj. rewrite (is_matrix_row (conj La Fa) Hi') in Hj.
    now apply H.
Qed.

Lemma is_matrix_transpose (r c : nat) (m : Mat) :
  is_matrix r c m -> (0 < r)%nat -> is_matrix c r (transpose m).
Proof.
  intros H Hr. unfold transpose. rewrite (is_matrix_ncols H Hr).
  split; [now rewrite length_map, length_seq|].
  apply Forall_forall. intros row Hrow.
  apply in_map_iff in Hrow. destruct Hrow as (j & <- & _).
  unfold col. rewrite length_map. apply H.
Qed.

Lemma entry_transpose (r c : nat) (m : Mat) (i j : nat) :
  is_matrix r c m -> (0 < r)%nat -> (i < c)%nat ->
  entry i j (transpose m) = entry j i m.
Proof.
  intros H Hr Hi. unfold entry at 1, transpose.
  rewrite (is_matrix_ncols H Hr), nth_map_seq by assumption.
  apply nth_col.
Qed.

Lemma row_transpose (r c : nat) (m : Mat) (i : nat) :
  is_matrix r c m -> (0 < r)%nat -> (i < c)%nat ->
  nth i (transpose m) [] = col i m.
Proof.
  intros H Hr Hi. unfold transpose.
  rewrite (is_matrix_ncols H Hr).
  now rewrite (nth_map_seq (fun j => col j m)).
Qed.

Lemma is_matrix_matmul (r k c : nat) (a b : Mat) :
  is_matrix r k a -> is_matrix k c b -> (0 < k)%nat ->
  is_matrix r c (matmul a b).
Proof.
  intros Ha Hb Hk. unfold matmul. rewrite (is_matrix_ncols Hb Hk).
  split; [rewrite length_map; apply Ha|].
  apply Forall_forall. intros row Hrow.
  apply in_map_iff in Hrow. destruct Hrow as (x & <- & _).
  now rewrite length_map, length_seq.
Qed.

Lemma entry_matmul (r k c : nat) (a b : Mat) (i j : nat) :
  is_matrix r k a -> is_matrix k c b -> (0 < k)%nat ->
  (i < r)%nat -> (j < c)%nat ->
  entry i j (matmul a b) = dot (nth i a []) (col j b).
Proof.
  intros Ha Hb Hk Hi Hj. unfold entry, matmul.
  rewrite (is_matrix_ncols Hb Hk).
  rewrite (nth_indep _ [] ((fun r0 => map (fun j0 => dot r0 (col j0 b)) (seq 0 c)) []))
    by (rewrite length_map; destruct Ha; lia).
  rewrite (map_nth (fun r0 => map (fun j0 => dot r0 (col j0 b)) (seq 0 c)) a [] i).
  now rewrite nth_map_seq.
Qed.

Lemma dot_comm (u v : Vec) : dot u v = dot v u.
Proof.
  unfold dot, zipWith. revert v.
  induction u as [|a u IH]; intros [|b v]; cbn [combine map]; try reflexivity.
  rewrite !vsum_cons, IH. cbn [fst snd]. lra.
Qed.

Lemma is_matrix_madd (r c : nat) (a b : Mat) :
  is_matrix r c a -> is_matrix r c b -> is_matrix r c (madd a b).
Proof.
  intros [La Fa] [Lb Fb]. unfold madd. split.
  - rewrite length_zipWith. lia.
  - apply Forall_forall. intros row Hrow.
    unfold zipWith in Hrow at 1. apply in_map_iff in Hrow.
    destruct Hrow as ([u v] & <- & Hin). cbn [fst snd].
    rewrite length_zipWith.
    rewrite Forall_forall in Fa, Fb.
    rewrite (Fa u) by (eapply in_combine_l; eauto).
    rewrite (Fb v) by (eapply in_combine_r; eauto). lia.
Qed.

Lemma entry_madd (r c : nat) (a b : Mat) (i j : nat) :
  is_matrix r c a -> is_matrix r c b -> (i < r)%nat -> (j < c)%nat ->
  entry i j (madd a b) = entry i j a + entry i j b.
Proof.
  intros Ha Hb Hi Hj. unfold entry, madd.
  rewrite (nth_zipWith _ a b [] [] []) by (destruct Ha, Hb; lia).
  apply nth_zipWith.
  - now rewrite (is_matrix_row Ha Hi).
  - now rewrite (is_matrix_row Hb Hi).
Qed.

Lemma length_col (k : nat) (m : Mat) : length (col k m) = length m.
Proof. unfold col. apply length_map. Qed.

Lemma length_vecmat (u : Vec) (m : Mat) : length (vecmat u m) = ncols m.
Proof. unfold vecmat. now rewrite length_map, length_seq. Qed.

Lemma is_matrix_msub (r c : nat) (a b : Mat) :
  is_matrix r c a -> is_matrix r c b -> is_matrix r c (msub a b).
Proof.
  intros [La Fa] [Lb Fb]. unfold msub. split.
  - rewrite length_zipWith. lia.
  - apply Forall_forall. intros row Hrow.
    unfold zipWith in Hrow at 1. apply in_map_iff in Hrow.
    destruct Hrow as ([u v] & <- & Hin). cbn [fst snd].
    rewrite length_zipWith.
    rewrite Forall_forall in Fa, Fb.
    rewrite (Fa u) by (eapply in_combine_l; eauto).
    rewrite (Fb v) by (eapply in_combine_r; eauto). lia.
Qed.

Lemma is_matrix_outer (u v : Vec) :
  is_matrix (length u) (length v) (outer u v).
Proof.
  unfold outer. split; [apply length_map|].
  apply Forall_forall. intros row Hrow.
  apply in_map_iff in Hrow. destruct Hrow as (a & <- & _).
  apply length_map.
Qed.

(** ** Writing a column *)

Lemma is_matrix_set_col (r c k : nat) (v : Vec) (m : Mat) :
  is_matrix r c m -> length v = r -> is_matrix r c (set_col k v m).
Proof.
  intros [L F] Hv. unfold set_col. split.
  - rewrite length_zipWith. lia.
  - apply Forall_forall. intros row Hrow.
    unfold zipWith in Hrow. apply in_map_iff in Hrow.
    destruct Hrow as ([u x] & <- & Hin). cbn [fst snd].
    rewrite length_set_nth. rewrite Forall_forall in F.
    apply F. eapply in_combine_l; eauto.
Qed.

Lemma entry_set_col (r c k : nat) (v : Vec) (m : Mat) (i j : nat) :
  is_matrix r c m -> length v = r -> (i < r)%nat ->
  entry i j (set_col k v m)
  = if Nat.eqb j k && Nat.ltb k c then nth i v 0 else entry i j m.
Proof.
  intros H Hv Hi. unfold entry, set_col.
  rewrite (nth_zipWith _ m v [] 0 []) by (destruct H; lia).
  now rewrite nth_set_nth, (is_matrix_row H Hi).
Qed.

(** Reading back the column just written gives the vector written. *)
Lemma col_set_col_same (r c k : nat) (v : Vec) (m : Mat) :
  is_matrix r c m -> length v = r -> (k < c)%nat ->
  col k (set_col k v m) = v.
Proof.
  intros H Hv Hk.
  apply (nth_ext _ _ 0 0).
  - rewrite length_col. destruct (@is_matrix_set_col r c k v m H Hv) as [-> _]. now symmetry.
  - intros i Hi. rewrite length_col in Hi.
    destruct (@is_matrix_set_col r c k v m H Hv) as [Hl _]. rewrite Hl in Hi.
    rewrite nth_col, (@entry_set_col r c k v m i k H Hv Hi).
    rewrite Nat.eqb_refl.
    now replace (k <? c)%nat with true by (symmetry; now apply Nat.ltb_lt).
Qed.

(** The other columns are as they were. *)
Lemma col_set_col_other (r c k j : nat) (v : Vec) (m : Mat) :
  is_matrix r c m -> length v = r -> j <> k ->
  col j (set_col k v m) = col j m.
Proof.
  intros H Hv Hjk.
  apply (nth_ext _ _ 0 0).
  - rewrite !length_col. destruct (@is_matrix_set_col r c k v m H Hv) as [-> _].
    now destruct H.
  - intros i Hi. rewrite length_col in Hi.
    destruct (@is_matrix_set_col r c k v m H Hv) as [Hl _]. rewrite Hl in Hi.
    rewrite !nth_col, (@entry_set_col r c k v m i j H Hv Hi).
    now replace (j =? k)%nat with false by (symmetry; now apply Nat.eqb_neq).
Qed.

Lemma dot_zeros_l (u v : Vec) : Forall (fun x => x = 0) u -> dot u v = 0.
Proof.
  unfold dot, zipWith. intros H. revert v.
  induction H as [|a u Ha _ IH]; intros [|b v]; cbn [combine map]; try reflexivity.
  rewrite vsum_cons, IH. cbn [fst snd]. rewrite Ha. lra.
Qed.

Lemma vecmat_zeros (u : Vec) (m : Mat) :
  Forall (fun x => x = 0) u -> Forall (fun x => x = 0) (vecmat u m).
Proof.
  intros H. unfold vecmat. apply Forall_forall. intros x Hx.
  apply in_map_iff in Hx. destruct Hx as (j & <- & _).
  now apply dot_zeros_l.
Qed.

Lemma is_matrix_map_map (g : R -> R) (r c : nat) (m : Mat) :
  is_matrix r c m -> is_matrix r c (map (map g) m).
Proof.
  intros [L F]. split; [now rewrite length_map|].
  apply Forall_map. revert F. apply Forall_impl. intros row Hrow.
  now rewrite length_map.
Qed.

Lemma entry_map_map (g : R -> R) (r c : nat) (m : Mat) (i j : nat) :
  is_matrix r c m -> (i < r)%nat -> (j < c)%nat ->
  entry i j (map (map g) m) = g (entry i j m).
Proof.
  intros H Hi Hj. unfold entry.
  rewrite (nth_map_in _ m [] []) by (destruct H; lia).
  apply nth_map_in. now rewrite (is_matrix_row H Hi).
Qed.

(** ** Sums over indices *)

Lemma sum_n_S (n : nat) (g : nat -> R) : sum_n (S n) g = sum_n n g + g n.
Proof.
  unfold sum_n. rewrite seq_S, map_app, vsum_app. cbn. lra.
Qed.

Lemma sum_n_ext (n : nat) (g h : nat -> R) :
  (forall i, (i < n)%nat -> g i = h i) -> sum_n n g = sum_n n h.
Proof.
  induction n as [|n IH]; intros E; [reflexivity|].
  rewrite !sum_n_S, IH, E by (intros; try apply E; lia). reflexivity.
Qed.

Lemma sum_n_plus (n : nat) (g h : nat -> R) :
  sum_n n (fun i => g i + h i) = sum_n n g + sum_n n h.
Proof.
  induction n as [|n IH]; [cbn; lra|]. rewrite !sum_n_S, IH. lra.
Qed.

Lemma sum_n_scal (n : nat) (a : R) (g : nat -> R) :
  sum_n n (fun i => a * g i) = a * sum_n n g.
Proof.
  induction n as [|n IH]; [cbn; lra|]. rewrite !sum_n_S, IH. lra.
Qed.

Lemma sum_n_swap (n m : nat) (g : nat -> nat -> R) :
  sum_n n (fun i => sum_n m (fun j => g i j))
  = sum_n m (fun j => sum_n n (fun i => g i j)).
Proof.
  induction n as [|n IH].
  - cbn. induction m as [|m IHm]; [reflexivity|].
    rewrite sum_n_S, <- IHm. cbn. lra.
  - rewrite sum_n_S, IH, <- sum_n_plus.
    apply sum_n_ext. intros j _. now rewrite sum_n_S.
Qed.

Lemma sum_n_nonneg (n : nat) (g : nat -> R) :
  (forall i, (i < n)%nat -> 0 <= g i) -> 0 <= sum_n n g.
Proof.
  induction n as [|n IH]; intros H; [cbn; lra|].
  rewrite sum_n_S. specialize (IH (fun i Hi => H i (Nat.lt_lt_succ_r _ _ Hi))).
  specialize (H n (Nat.lt_succ_diag_r n)). lra.
Qed.

Lemma sum_n_pos (n : nat) (g : nat -> R) (i : nat) :
  (forall j, (j < n)%nat -> 0 <= g j) -> (i < n)%nat -> 0 < g i ->
  0 < sum_n n g.
Proof.
  induction n as [|n IH]; intros H Hi Hg; [lia|].
  rewrite sum_n_S.
  assert (H' : forall j, (j < n)%nat -> 0 <= g j) by (intros; apply H; lia).
  pose proof (sum_n_nonneg _ H') as Hs.
  destruct (Nat.eq_dec i n) as [->|Hne]; [lra|].
  specialize (IH H' ltac:(lia) Hg). specialize (H n (Nat.lt_succ_diag_r n)). lra.
Qed.

Lemma sum_n_delta (n i : nat) (a : R) (g : nat -> R) :
  (i < n)%nat ->
  sum_n n (fun j => (if Nat.eqb i j then a else 0) * g j) = a * g i.
Proof.
  induction n as [|n IH]; intros Hi; [lia|].
  rewrite sum_n_S.
  destruct (Nat.eq_dec i n) as [->|Hne].
  - rewrite Nat.eqb_refl.
    rewrite (@sum_n_ext n _ (fun j => 0 * g j)).
    + rewrite sum_n_scal. lra.
    + intros j Hj. replace (n =? j)%nat with false; [reflexivity|].
      symmetry. apply Nat.eqb_neq. lia.
  - rewrite IH by lia.
    replace (i =? n)%nat with false by (symmetry; now apply Nat.eqb_neq). lra.
Qed.

(** A dot product as a sum over the indices. *)
Lemma dot_sum_n (n : nat) (u v : list R) :
  length u = n -> length v = n ->
  dot u v = sum_n n (fun i => nth i u 0 * nth i v 0).
Proof.
  revert u v. induction n as [|n IH]; intros u v Hu Hv.
  - destruct u, v; try discriminate. reflexivity.
  - destruct u as [|a u], v as [|b v]; try discriminate.
    unfold dot, zipWith, sum_n. cbn [combine map seq vsum fold_right fst snd nth].
    f_equal.
    rewrite <- seq_shift, map_map.
    specialize (IH u v ltac:(cbn in Hu; lia) ltac:(cbn in Hv; lia)).
    exact IH.
Qed.

Lemma sum_n_scal_r (n : nat) (a : R) (g : nat -> R) :
  sum_n n (fun i => g i * a) = sum_n n g * a.
Proof.
  induction n as [|n IH]; [cbn; lra|]. rewrite !sum_n_S, IH. lra.
Qed.

Lemma nonzero_entry (n : nat) (v : list R) :
  length v = n -> v <> repeat 0 n ->
  exists i, (i < n)%nat /\ nth i v 0 <> 0.
Proof.
  revert v. induction n as [|n IH]; intros v Hv Hne.
  - destruct v; [now elim Hne | discriminate].
  - destruct v as [|a v]; [discriminate|].
    destruct (Req_dec a 0) as [->|Ha].
    + destruct (IH v) as (i & Hi & Hx).
      * cbn in Hv. lia.
      * intros E. apply Hne. cbn. now rewrite E.
      * exists (S i). split; [lia | assumption].
    + exists 0%nat. split; [lia | assumption].
Qed.

Lemma nth_matvec (r c : nat) (m : Mat) (v : list R) (i : nat) :
  is_matrix r c m -> length v = c -> (i < r)%nat ->
  nth i (matvec m v) 0 = sum_n c (fun j => entry i j m * nth j v 0).
Proof.
  intros H Hv Hi. unfold matvec.
  rewrite (nth_map_in _ m [] 0) by (destruct H; lia).
  apply dot_sum_n; [now apply (is_matrix_row H) | assumption].
Qed.

(** ** Sizes of the dictionary *)

Lemma is_matrix_chunks (r c : nat) (v : list R) :
  length v = (r * c)%nat -> is_matrix r c (chunks r c v).
Proof.
  intros H. split; [apply length_chunks|].
  revert v H. induction r as [|r IH]; intros v H; [constructor|].
  cbn [chunks]. constructor.
  - rewrite length_firstn. cbn in H. lia.
  - apply IH. rewrite length_skipn. cbn in H. lia.
Qed.

Lemma is_matrix_shape2 (r c : nat) (m : Mat) :
  (0 < r)%nat -> is_matrix r c m -> shape2 m = (r, c).
Proof.
  intros Hr H. unfold shape2, nrows.
  rewrite (is_matrix_ncols H Hr). now destruct H as [-> _].
Qed.

Lemma is_matrix_normalize_dim0 (f c : nat) (weight : Mat) :
  (0 < f)%nat -> (0 < c)%nat ->
  is_matrix f c weight -> is_matrix f c (normalize_dim0 weight).
Proof.
  intros Hf Hc H. unfold normalize_dim0.
  apply is_matrix_transpose; [|assumption].
  destruct (is_matrix_transpose H Hf) as [L F].
  split; [now rewrite length_map|].
  apply Forall_map. revert F. apply Forall_impl. intros col Hcol.
  unfold vdiv. now rewrite length_map.
Qed.

End MatrixFacts.

(* ================================================================== *)
(** * The effect monad *)
(* ================================================================== *)

Module EffectFacts.
Import Tensor Effects Spec.

Section Laws.
Context {A B D : Type}.

Lemma result_bind (m : M A) (k : A -> M B) (w : World) :
  result_of (bind m k w)
  = match result_of (m w) with
    | Ok a => result_of (k a (world_of (m w)))
    | Raise e => Raise e
    end.
Proof.
  unfold bind, result_of, world_of.
  destruct (m w) as [[[a|e] w1] ev1]; cbn; [|reflexivity].
  now destruct (k a w1) as [[r w2] ev2].
Qed.

Lemma events_bind (m : M A) (k : A -> M B) (w : World) :
  events_of (bind m k w)
  = events_of (m w)
    ++ match result_of (m w) with
       | Ok a => events_of (k a (world_of (m w)))
       | Raise e => []
       end.
Proof.
  unfold bind, result_of, world_of, events_of.
  destruct (m w) as [[[a|e] w1] ev1]; cbn; [|now rewrite app_nil_r].
  now destruct (k a w1) as [[r w2] ev2].
Qed.

Lemma bind_assoc (m : M A) (f : A -> M B) (g : B -> M D) (w : World) :
  bind (bind m f) g w = bind m (fun a => bind (f a) g) w.
Proof.
  unfold bind.
  destruct (m w) as [[[a|e] w1] ev1]; [|reflexivity].
  destruct (f a w1) as [[[b|e] w2] ev2]; [|reflexivity].
  destruct (g b w2) as [[r w3] ev3]. now rewrite app_assoc.
Qed.

Lemma bind_ext (m : M A) (k1 k2 : A -> M B) (w : World) :
  (forall a w', k1 a w' = k2 a w') -> bind m k1 w = bind m k2 w.
Proof.
  intros H. unfold bind.
  destruct (m w) as [[[a|e] w1] ev1]; [|reflexivity].
  now rewrite H.
Qed.

Lemma bind_ret_l (a : A) (k : A -> M B) (w : World) :
  bind (ret a) k w = k a w.
Proof.
  unfold bind, ret. now destruct (k a w) as [[r w2] ev2].
Qed.

Lemma bind_ok_silent (m : M A) (k : A -> M B) (w w1 : World) (a : A) :
  m w = (Ok a, w1, []) -> bind m k w = k a w1.
Proof.
  intros E. unfold bind. rewrite E. now destruct (k a w1) as [[r w2] ev2].
Qed.

Lemma with_gen_ok (rng : RngArg) (f : Generator -> A * Generator) (w : World) :
  exists a w1, with_gen rng f w = (Ok a, w1, []).
Proof.
  unfold with_gen. destruct rng.
  - destruct (f (default_gen w)) as [a g]. eauto.
  - destruct (f (given_gen w)) as [a g]. eauto.
Qed.

End Laws.

Lemma with_gen_run {A : Type} (rng : RngArg) (f : Generator -> A * Generator)
      (w : World) :
  exists w1, with_gen rng f w = (Ok (fst (f (gen_of rng w))), w1, []).
Proof.
  unfold with_gen, gen_of.
  destruct rng; [destruct (f (default_gen w)) | destruct (f (given_gen w))];
    eexists; reflexivity.
Qed.

Lemma with_gen_result {A : Type} (rng : RngArg) (f : Generator -> A * Generator)
      (w : World) :
  result_of (with_gen rng f w) = Ok (fst (f (gen_of rng w))).
Proof.
  unfold with_gen, gen_of.
  destruct rng; [destruct (f (default_gen w)) | destruct (f (given_gen w))];
    reflexivity.
Qed.

End EffectFacts.

(* ================================================================== *)
(** * The loss *)
(* ================================================================== *)

Module LossFacts.
Import Tensor TensorFacts DictLearning Spec.
Local Open Scope R_scope.

(** What the source computes: the reduction over all entries makes the
    first term the sum, over the samples, of the halved squared errors;
    the closing [mean] averages one number. *)
Lemma lasso_loss_sum (X Z W : Mat) (alpha : R) :
  lasso_loss X Z W alpha =
    vsum (map (fun r => 0.5 * norm2 r ^ 2) (msub X (matmul Z (transpose W))))
    + 0.1 * norm1 (entries W) + 1e-9 * norm2 (entries W) ^ 2.
Proof.
  unfold lasso_loss. rewrite mean_singleton.
  rewrite (norm2_entries_sq (msub _ _)).
  unfold lambda1, lambda2.
  assert (E : forall m : Mat,
             0.5 * vsum (map (fun r => norm2 r ^ 2) m)
             = vsum (map (fun r => 0.5 * norm2 r ^ 2) m)).
  { induction m as [|r m IH]; [simpl; lra|].
    cbn [map]. rewrite !vsum_cons, <- IH. lra. }
  rewrite E. lra.
Qed.

(** C2.  Two samples [1] and [1] of one feature, the code and the weight
    zero: the source's loss is 1, the sum of the two halved squared
    errors, where the mean over the two samples is 1/2. *)
Theorem lasso_loss_is_not_the_sample_mean :
  lasso_loss [[1]; [1]] [[0]; [0]] [[0]] 1 = 1
  /\ lasso_loss_spec [[1]; [1]] [[0]; [0]] [[0]] 1 = 1 / 2.
Proof.
  split.
  - rewrite lasso_loss_sum. list_eval.
    rewrite !norm2_sq. list_eval.
    rewrite Rabs_R0. lra.
  - unfold lasso_loss_spec, mean. list_eval.
    rewrite !norm2_sq. list_eval. cbv [INR].
    rewrite Rabs_R0. lra.
Qed.

End LossFacts.

(* ================================================================== *)
(** * Sparse coding *)
(* ================================================================== *)

Module SparseEncodeFacts.
Import Tensor Effects Collab DictLearning Spec.
Local Open Scope string_scope.

Section WithCollaborators.
Context {C : Collaborators}.

Lemma message_names_algorithm (algorithm : string) :
  exists pre post,
    invalid_algorithm_message algorithm = pre ++ algorithm ++ post.
Proof.
  exists "invalid algorithm parameter '", "'.". reflexivity.
Qed.

Lemma sparse_encode_halves x weight alpha z0 algorithm init rng kwargs :
  sparse_encode x weight alpha z0 algorithm init rng kwargs
  = bind (code_variable x weight alpha z0 algorithm init rng)
         (inference x weight alpha algorithm rng kwargs).
Proof. reflexivity. Qed.

Lemma inference_invalid x weight alpha algorithm rng kwargs z w :
  algorithm <> "cd" -> algorithm <> "ista" ->
  inference x weight alpha algorithm rng kwargs z w
  = (Raise (ValueError (invalid_algorithm_message algorithm)), w, []).
Proof.
  intros Hcd Hista. apply String.eqb_neq in Hcd, Hista.
  unfold inference. now rewrite Hcd, Hista.
Qed.

(** A warm start of the right shape is the code variable, and nothing
    else happens. *)
Lemma code_variable_warm x weight alpha z algorithm init rng w :
  shape2 z = (nrows x, ncols weight) ->
  code_variable x weight alpha (Some z) algorithm init rng w = (Ok z, w, []).
Proof.
  intros Hs. unfold code_variable, bind, assert.
  rewrite Hs. unfold shape2_eqb. cbn [fst snd].
  now rewrite !Nat.eqb_refl.
Qed.

(** A warm start never leads to a warning or an initialisation. *)
Lemma code_variable_warm_events x weight alpha z algorithm init rng w :
  events_of (code_variable x weight alpha (Some z) algorithm init rng w) = [].
Proof.
  unfold code_variable, bind, assert.
  now destruct (shape2_eqb _ _).
Qed.

(** Without a warm start the initialiser is called, on the generator
    that [rng] designates; the code variable is what it returns. *)
Lemma code_variable_cold x weight alpha algorithm init rng w :
  let o := code_variable x weight alpha None algorithm init rng w in
  let r := initialize_code x weight alpha (resolved_init algorithm init)
                           (gen_of rng w) in
  result_of o = fst r
  /\ In (InitCode (resolved_init algorithm init)) (events_of o)
  /\ filter is_solve (events_of o) = [].
Proof.
  unfold code_variable, call_initialize_code, resolved_init, gen_of.
  destruct init as [i|]; destruct rng;
    unfold bind, emit, ret, with_gen, lift, result_of, events_of;
    cbn [fst snd];
    try destruct ((i =? "zero") && (algorithm =? "iter-ridge"));
    cbn [fst snd];
    match goal with
    | |- context [initialize_code ?a ?b ?c ?d ?e] =>
        destruct (initialize_code a b c d e) as [[z1|e1] g1]
    end; cbn; auto.
Qed.

(** C3, amended.  An algorithm other than ["cd"] and ["ista"] never
    reaches a solver.  With a warm start of the right shape the call
    raises the [ValueError] naming the algorithm and nothing else
    happens.  Without a warm start the code is initialised first (the
    initialiser is called, and may consume random numbers); if it returns
    a code, the same [ValueError] is raised. *)
Theorem sparse_encode_invalid_algorithm
        (x weight : Mat) (alpha : R) (z0 : option Mat) (algorithm : string)
        (init : option string) (rng : RngArg) (kwargs : Kwargs) (w : World) :
  algorithm <> "cd" -> algorithm <> "ista" ->
  let o := sparse_encode x weight alpha z0 algorithm init rng kwargs w in
  (exists pre post,
      invalid_algorithm_message algorithm = pre ++ algorithm ++ post)
  /\ filter is_solve (events_of o) = []
  /\ (forall z, z0 = Some z -> shape2 z = (nrows x, ncols weight) ->
      result_of o = Raise (ValueError (invalid_algorithm_message algorithm))
      /\ events_of o = [] /\ world_of o = w)
  /\ (z0 = None ->
      In (InitCode (resolved_init algorithm init)) (events_of o)
      /\ forall z g,
          initialize_code x weight alpha (resolved_init algorithm init)
                          (gen_of rng w) = (Ok z, g) ->
          result_of o = Raise (ValueError (invalid_algorithm_message algorithm))).
Proof.
  intros Hcd Hista o. subst o. rewrite sparse_encode_halves.
  split; [apply message_names_algorithm|].
  split; [|split].
  - (* no solver *)
    unfold bind at 1.
    destruct z0 as [z|].
    + pose proof (code_variable_warm_events x weight alpha z algorithm init rng w) as E.
      destruct (code_variable _ _ _ _ _ _ _ w) as [[[z1|e] w1] ev]; cbn in E; subst ev.
      * now rewrite inference_invalid.
      * reflexivity.
    + destruct (code_variable_cold x weight alpha algorithm init rng w) as (_ & _ & E).
      destruct (code_variable _ _ _ _ _ _ _ w) as [[[z1|e] w1] ev]; cbn in E.
      * rewrite inference_invalid by assumption. cbn. now rewrite app_nil_r.
      * exact E.
  - (* a warm start of the right shape *)
    intros z -> Hs. unfold bind.
    rewrite code_variable_warm by assumption.
    rewrite inference_invalid by assumption. now cbn.
  - (* no warm start *)
    intros ->.
    destruct (code_variable_cold x weight alpha algorithm init rng w) as (Er & Ein & _).
    unfold bind.
    destruct (code_variable _ _ _ _ _ _ _ w) as [[[z1|e] w1] ev]; cbn in Er, Ein.
    + rewrite inference_invalid by assumption. cbn. rewrite app_nil_r.
      split; [assumption|reflexivity].
    + split; [assumption|]. intros z g Hz. rewrite Hz in Er. discriminate.
Qed.

Lemma inference_events x weight alpha algorithm rng kwargs z w :
  filter is_init_or_warn
         (events_of (inference x weight alpha algorithm rng kwargs z w)) = [].
Proof.
  unfold inference, bind, emit, ret, with_gen, raise.
  destruct (algorithm =? "cd"); [reflexivity|].
  destruct (algorithm =? "ista"); [|reflexivity].
  destruct rng; cbn;
    match goal with
    | |- context [ista ?a ?b ?c ?d ?e ?f] => destruct (ista a b c d e f)
    end; reflexivity.
Qed.

(** C10.  With a warm start of the right shape the outcome of
    [sparse_encode] (the code, the generators, the events) is the same for
    any two values of [init]: it is the outcome of the inference started
    from the warm start itself, and no initialisation or warning is among
    its events. *)
Theorem sparse_encode_warm_start_ignores_init
        (x weight : Mat) (alpha : R) (z0 : Mat) (algorithm : string)
        (init1 init2 : option string) (rng : RngArg) (kwargs : Kwargs)
        (w : World) :
  shape2 z0 = (nrows x, ncols weight) ->
  sparse_encode x weight alpha (Some z0) algorithm init1 rng kwargs w
  = sparse_encode x weight alpha (Some z0) algorithm init2 rng kwargs w
  /\ sparse_encode x weight alpha (Some z0) algorithm init1 rng kwargs w
     = inference x weight alpha algorithm rng kwargs z0 w
  /\ filter is_init_or_warn
            (events_of (sparse_encode x weight alpha (Some z0) algorithm
                                      init1 rng kwargs w)) = [].
Proof.
  intros Hs.
  assert (E : forall init,
             sparse_encode x weight alpha (Some z0) algorithm init rng kwargs w
             = inference x weight alpha algorithm rng kwargs z0 w).
  { intro init. rewrite sparse_encode_halves. unfold bind.
    rewrite code_variable_warm by assumption.
    now destruct (inference _ _ _ _ _ _ _ w) as [[r w2] ev2]. }
  split; [now rewrite !E|].
  split; [apply E|].
  rewrite E. apply inference_events.
Qed.

End WithCollaborators.

(** C3 as worded fails: with no warm start, the unknown algorithm
    ["iter-ridge"] and [init="zero"], a warning is issued and the code is
    initialised before the error is raised. *)
Lemma sparse_encode_invalid_algorithm_partial_work :
  ~ fails_without_partial_work (C := Toy.toy) [[1%R]] [[1%R]] 1%R None
      "iter-ridge" (Some "zero") RngNone tt Toy.world0.
Proof.
  unfold fails_without_partial_work. intros [_ H].
  vm_compute in H. discriminate H.
Qed.

Lemma sparse_encode_invalid_algorithm_witness :
  result_of (sparse_encode (C := Toy.toy) [[1%R]] [[1%R]] 1%R (Some [[0%R]])
                           "iter-ridge" None RngNone tt Toy.world0)
  = Raise (ValueError "invalid algorithm parameter 'iter-ridge'.").
Proof.
  destruct (@sparse_encode_invalid_algorithm Toy.toy [[1%R]] [[1%R]] 1%R
              (Some [[0%R]]) "iter-ridge" None RngNone tt Toy.world0)
    as (_ & _ & H & _); [discriminate | discriminate |].
  apply (H [[0%R]]); reflexivity.
Defined.

Lemma sparse_encode_warm_start_ignores_init_witness :
  sparse_encode (C := Toy.toy) [[1%R]] [[1%R]] 1%R (Some [[0%R]]) "ista"
                (Some "zero") RngNone tt Toy.world0
  = sparse_encode (C := Toy.toy) [[1%R]] [[1%R]] 1%R (Some [[0%R]]) "ista"
                  (Some "ridge") RngNone tt Toy.world0.
Proof.
  apply (@sparse_encode_warm_start_ignores_init Toy.toy [[1%R]] [[1%R]] 1%R
           [[0%R]] "ista" (Some "zero") (Some "ridge") RngNone tt Toy.world0).
  reflexivity.
Defined.

End SparseEncodeFacts.

(* ================================================================== *)
(** * The constrained update *)
(* ================================================================== *)

Module UpdateDictFacts.
Import Tensor Effects Collab DictLearning TensorFacts EffectFacts Spec MatrixFacts.
Local Open Scope R_scope.

Ltac run_eval :=
  cbv [update_dict update_atom for_each bind ret normal_ with_gen draw emit
       raise lift assert result_of world_of events_of
       given_gen default_gen heap tape pos Toy.world0 Toy.constant_gen
       get_eps Toy.toy];
  list_eval.

Lemma Rmax_0_nonpos (x : R) : x <= 0 -> Rmax 0 x = 0.
Proof. intros H. unfold Rmax. destruct (Rle_dec 0 x); lra. Qed.

Lemma Rmax_0_nonneg (x : R) : 0 <= Rmax 0 x.
Proof. unfold Rmax. destruct (Rle_dec 0 x); lra. Qed.

Lemma norm2_zeros (v : list R) : Forall (fun x => x = 0) v -> norm2 v = 0.
Proof.
  intros H. unfold norm2.
  replace (vsum (map (fun x => x ^ 2) v)) with 0; [apply sqrt_0|].
  induction H as [|x v Hx _ IH]; [reflexivity|].
  cbn [map]. rewrite vsum_cons, <- IH, Hx. lra.
Qed.

(** ** The reseed *)

(** After the clamp the absolute value changes nothing. *)
Lemma abs_after_clamp (v : list R) : vabs (clamp_min0 v) = clamp_min0 v.
Proof.
  unfold vabs, clamp_min0. rewrite map_map. apply map_ext.
  intros x. apply Rabs_right, Rle_ge, Rmax_0_nonneg.
Qed.

(** A draw without a positive value is clamped to the zero vector. *)
Lemma clamp_nonpos_draw (v : list R) :
  Forall (fun x => x <= 0) v -> clamp_min0 v = map (fun _ => 0) v.
Proof.
  intros H. unfold clamp_min0. apply map_ext_Forall.
  revert H. apply Forall_impl. intros x. apply Rmax_0_nonpos.
Qed.

(** So the atom that the reseed leaves for such a draw is the zero
    vector, whatever the positive number its norm is raised by. *)
Lemma reseed_nonpos_draw (v : list R) (floor : R) :
  Forall (fun x => x <= 0) v ->
  let atom := vabs (clamp_min0 v) in
  vdiv atom (norm2 atom + floor) = map (fun _ => 0) v.
Proof.
  intros H. cbn zeta. rewrite abs_after_clamp, clamp_nonpos_draw by assumption.
  unfold vdiv. rewrite map_map. apply map_ext. intros _.
  unfold Rdiv. apply Rmult_0_l.
Qed.

(** ** One turn of the loop over the atoms *)

Section WithCollaborators.
Context {C : Collaborators}.

Lemma update_atom_degenerate positive eps rng k dictionary code Res w :
  norm2 (col k (recomputed positive k dictionary code Res)) < eps ->
  let d := recomputed positive k dictionary code Res in
  let v := fst (draw (length (col k d)) (gen_of rng w)) in
  update_atom positive eps rng k (dictionary, code, Res) w
  = (Ok (reseeded positive k v d,
         set_col k (map (fun _ => 0) (col k code)) code,
         residual_without k dictionary code Res),
     after_draw rng (length (col k d)) w, []).
Proof.
  intros Hlt. cbn zeta. unfold update_atom.
  fold (residual_without k dictionary code Res).
  change (if positive
          then set_col k (clamp_min0 (col k (set_col k (vecmat (col k code) (residual_without k dictionary code Res)) dictionary)))
                       (set_col k (vecmat (col k code) (residual_without k dictionary code Res)) dictionary)
          else set_col k (vecmat (col k code) (residual_without k dictionary code Res)) dictionary)
    with (recomputed positive k dictionary code Res).
  destruct (Rlt_dec _ _) as [_|Hn]; [|contradiction].
  unfold bind, normal_, with_gen, ret, after_draw, gen_of, reseeded, seeded.
  destruct rng; cbn [draw fst snd]; reflexivity.
Qed.

Lemma update_atom_healthy positive eps rng k dictionary code Res w :
  ~ norm2 (col k (recomputed positive k dictionary code Res)) < eps ->
  let d := rescaled_atom k (recomputed positive k dictionary code Res) in
  update_atom positive eps rng k (dictionary, code, Res) w
  = (Ok (d, code,
         msub (residual_without k dictionary code Res)
              (outer (col k code) (col k d))),
     w, []).
Proof.
  intros Hge. cbn zeta. unfold update_atom.
  fold (residual_without k dictionary code Res).
  change (if positive
          then set_col k (clamp_min0 (col k (set_col k (vecmat (col k code) (residual_without k dictionary code Res)) dictionary)))
                       (set_col k (vecmat (col k code) (residual_without k dictionary code Res)) dictionary)
          else set_col k (vecmat (col k code) (residual_without k dictionary code Res)) dictionary)
    with (recomputed positive k dictionary code Res).
  destruct (Rlt_dec _ _) as [Hlt|_]; [contradiction|].
  reflexivity.
Qed.

(** *** Sizes and columns of the pieces *)

Section Sizes.
Variables (f c n k : nat) (dictionary code Res : Mat).
Hypothesis Hn : (0 < n)%nat.
Hypothesis HD : is_matrix f c dictionary.
Hypothesis Hcode : is_matrix n c code.
Hypothesis HR : is_matrix n f Res.

Lemma length_col_dictionary j : length (col j dictionary) = f.
Proof. rewrite length_col. apply HD. Qed.

Lemma length_col_code j : length (col j code) = n.
Proof. rewrite length_col. apply Hcode. Qed.

Lemma is_matrix_residual_without :
  is_matrix n f (residual_without k dictionary code Res).
Proof.
  unfold residual_without. apply is_matrix_madd; [assumption|].
  rewrite <- (length_col_code k) at 1. rewrite <- (length_col_dictionary k).
  apply is_matrix_outer.
Qed.

Lemma length_candidate :
  length (vecmat (col k code) (residual_without k dictionary code Res)) = f.
Proof.
  rewrite length_vecmat.
  exact (is_matrix_ncols is_matrix_residual_without Hn).
Qed.

Lemma is_matrix_recomputed positive :
  is_matrix f c (recomputed positive k dictionary code Res).
Proof.
  unfold recomputed. cbn zeta.
  pose proof (@is_matrix_set_col f c k _ _ HD length_candidate) as H1.
  destruct positive; [|exact H1].
  apply is_matrix_set_col; [exact H1|].
  unfold clamp_min0. rewrite length_map, length_col. apply H1.
Qed.

Lemma col_recomputed positive :
  (k < c)%nat ->
  col k (recomputed positive k dictionary code Res)
  = let a := vecmat (col k code) (residual_without k dictionary code Res) in
    if positive then clamp_min0 a else a.
Proof.
  intros Hk. unfold recomputed. cbn zeta.
  pose proof (@is_matrix_set_col f c k _ _ HD length_candidate) as H1.
  pose proof (@col_set_col_same f c k _ _ HD length_candidate Hk) as E1.
  destruct positive; [|exact E1].
  rewrite col_set_col_same with (r := f) (c := c); try assumption.
  - now rewrite E1.
  - unfold clamp_min0. rewrite length_map, length_col. apply H1.
Qed.

Lemma col_recomputed_other positive j :
  j <> k -> col j (recomputed positive k dictionary code Res) = col j dictionary.
Proof.
  intros Hj. unfold recomputed. cbn zeta.
  pose proof (@is_matrix_set_col f c k _ _ HD length_candidate) as H1.
  pose proof (@col_set_col_other f c k j _ _ HD length_candidate Hj) as E1.
  destruct positive; [|exact E1].
  rewrite col_set_col_other with (r := f) (c := c); try assumption.
  unfold clamp_min0. rewrite length_map, length_col. apply H1.
Qed.

End Sizes.

Section Atom.
Variables (f c k : nat) (d : Mat).
Hypothesis Hd : is_matrix f c d.

Lemma is_matrix_rescaled_atom : is_matrix f c (rescaled_atom k d).
Proof.
  unfold rescaled_atom. apply is_matrix_set_col; [assumption|].
  unfold vdiv. rewrite length_map, length_col. apply Hd.
Qed.

Lemma col_rescaled_atom :
  (k < c)%nat ->
  col k (rescaled_atom k d) = vdiv (col k d) (norm2 (col k d)).
Proof.
  intros Hk. unfold rescaled_atom.
  apply col_set_col_same with (r := f) (c := c); try assumption.
  unfold vdiv. rewrite length_map, length_col. apply Hd.
Qed.

Lemma col_rescaled_atom_other j :
  j <> k -> col j (rescaled_atom k d) = col j d.
Proof.
  intros Hj. unfold rescaled_atom.
  apply col_set_col_other with (r := f) (c := c); try assumption.
  unfold vdiv. rewrite length_map, length_col. apply Hd.
Qed.

Variable v : Vec.
Hypothesis Hv : length v = f.

Lemma is_matrix_seeded positive : is_matrix f c (seeded positive k v d).
Proof.
  unfold seeded. cbn zeta.
  pose proof (@is_matrix_set_col f c k v d Hd Hv) as H1.
  destruct positive; [|exact H1].
  assert (H2 : is_matrix f c (set_col k (clamp_min0 (col k (set_col k v d)))
                                      (set_col k v d))).
  { apply is_matrix_set_col; [exact H1|].
    unfold clamp_min0. rewrite length_map, length_col. apply H1. }
  apply is_matrix_set_col; [exact H2|].
  unfold vabs. rewrite length_map, length_col. apply H2.
Qed.

Lemma col_seeded positive :
  (k < c)%nat -> col k (seeded positive k v d) = seed positive v.
Proof.
  intros Hk. unfold seeded, seed. cbn zeta.
  pose proof (@is_matrix_set_col f c k v d Hd Hv) as H1.
  pose proof (@col_set_col_same f c k v d Hd Hv Hk) as E1.
  destruct positive; [|exact E1].
  assert (L2 : length (clamp_min0 (col k (set_col k v d))) = f).
  { unfold clamp_min0. rewrite length_map, length_col. apply H1. }
  pose proof (@is_matrix_set_col f c k _ _ H1 L2) as H2.
  pose proof (@col_set_col_same f c k _ _ H1 L2 Hk) as E2.
  rewrite col_set_col_same with (r := f) (c := c); try assumption.
  - now rewrite E2, E1.
  - unfold vabs. rewrite length_map, length_col. apply H2.
Qed.

Lemma col_seeded_other positive j :
  j <> k -> col j (seeded positive k v d) = col j d.
Proof.
  intros Hj. unfold seeded. cbn zeta.
  pose proof (@is_matrix_set_col f c k v d Hd Hv) as H1.
  pose proof (@col_set_col_other f c k j v d Hd Hv Hj) as E1.
  destruct positive; [|exact E1].
  assert (L2 : length (clamp_min0 (col k (set_col k v d))) = f).
  { unfold clamp_min0. rewrite length_map, length_col. apply H1. }
  pose proof (@is_matrix_set_col f c k _ _ H1 L2) as H2.
  pose proof (@col_set_col_other f c k j _ _ H1 L2 Hj) as E2.
  rewrite col_set_col_other with (r := f) (c := c); try assumption.
  - now rewrite E2, E1.
  - unfold vabs. rewrite length_map, length_col. apply H2.
Qed.

Lemma is_matrix_reseeded positive : is_matrix f c (reseeded positive k v d).
Proof.
  unfold reseeded. cbn zeta.
  apply is_matrix_set_col; [apply is_matrix_seeded|].
  unfold vdiv. rewrite length_map, length_col. apply is_matrix_seeded.
Qed.

Lemma col_reseeded positive :
  (k < c)%nat ->
  col k (reseeded positive k v d)
  = vdiv (seed positive v)
         (norm2 (seed positive v) + get_eps (seeded positive k v d)).
Proof.
  intros Hk. unfold reseeded. cbn zeta.
  rewrite col_set_col_same with (r := f) (c := c); try assumption.
  - now rewrite col_seeded.
  - apply is_matrix_seeded.
  - unfold vdiv. rewrite length_map, length_col. apply is_matrix_seeded.
Qed.

Lemma col_reseeded_other positive j :
  j <> k -> col j (reseeded positive k v d) = col j d.
Proof.
  intros Hj. unfold reseeded. cbn zeta.
  rewrite col_set_col_other with (r := f) (c := c); try assumption.
  - now apply col_seeded_other.
  - apply is_matrix_seeded.
  - unfold vdiv. rewrite length_map, length_col. apply is_matrix_seeded.
Qed.

End Atom.

End WithCollaborators.

(** *** The turn *)

Lemma clamp_zeros (v : list R) :
  Forall (fun x => x = 0) v -> Forall (fun x => x = 0) (clamp_min0 v).
Proof.
  intros H. unfold clamp_min0. apply Forall_map.
  revert H. apply Forall_impl. intros x ->. apply Rmax_0_nonpos. lra.
Qed.

Lemma clamp_nonneg (v : list R) : Forall (fun x => 0 <= x) (clamp_min0 v).
Proof.
  unfold clamp_min0. apply Forall_map, Forall_forall.
  intros x _. apply Rmax_0_nonneg.
Qed.

Lemma tape_after_draw (rng : RngArg) (n : nat) (w : World) :
  tape (gen_of rng (after_draw rng n w)) = tape (gen_of rng w).
Proof. now destruct rng. Qed.

Section Turn.
Context {C : Collaborators}.
Variables (f c n : nat) (positive : bool) (eps : R) (rng : RngArg).
Hypothesis Heps : 0 < eps.
Hypothesis Hn : (0 < n)%nat.

(** The sizes are kept, the other atoms and code columns are untouched,
    and atom [k] ends healthy or reseeded. *)
Lemma update_atom_step (k : nat) (dictionary code Res : Mat) (w : World) :
  (k < c)%nat ->
  is_matrix f c dictionary -> is_matrix n c code -> is_matrix n f Res ->
  exists dictionary' code' Res' w',
    update_atom positive eps rng k (dictionary, code, Res) w
    = (Ok (dictionary', code', Res'), w', [])
    /\ is_matrix f c dictionary' /\ is_matrix n c code' /\ is_matrix n f Res'
    /\ tape (gen_of rng w') = tape (gen_of rng w)
    /\ (forall j, j <> k ->
        col j dictionary' = col j dictionary /\ col j code' = col j code)
    /\ atom_outcome positive eps f (tape (gen_of rng w))
                    (col k code) (col k dictionary') (col k code').
Proof.
  intros Hk HD Hcode HR.
  pose proof (@is_matrix_residual_without f c n k dictionary code Res HD Hcode HR) as HR1.
  pose proof (@is_matrix_recomputed f c n k dictionary code Res Hn HD Hcode HR positive) as Hd.
  pose proof (@col_recomputed f c n k dictionary code Res Hn HD Hcode HR positive Hk) as Ea.
  cbn zeta in Ea.
  assert (Lcol : length (col k (recomputed positive k dictionary code Res)) = f)
    by (rewrite length_col; apply Hd).
  destruct (Rlt_dec (norm2 (col k (recomputed positive k dictionary code Res))) eps)
    as [Hlt|Hge].
  - (* degenerate: the atom is reseeded *)
    rewrite (update_atom_degenerate _ _ _ _ _ _ _ Hlt). cbn zeta. rewrite Lcol.
    set (d := recomputed positive k dictionary code Res) in *.
    set (v := fst (draw f (gen_of rng w))).
    assert (Hv : length v = f) by (subst v; cbn; now rewrite length_map, length_seq).
    assert (Lz : length (map (fun _ : R => 0) (col k code)) = n)
      by (rewrite length_map, length_col; apply Hcode).
    do 4 eexists. split; [reflexivity|].
    split; [now apply is_matrix_reseeded|].
    split; [now apply is_matrix_set_col|].
    split; [assumption|].
    split; [apply tape_after_draw|].
    split.
    + intros j Hj. split.
      * rewrite (@col_reseeded_other _ f c k d Hd v Hv positive j Hj).
        now apply (@col_recomputed_other f c n k dictionary code Res Hn HD Hcode HR).
      * now apply col_set_col_other with (r := n) (c := c).
    + right. split.
      * exists (pos (gen_of rng w)), (seeded positive k v d).
        now rewrite (@col_reseeded _ f c k d Hd v Hv positive Hk).
      * now apply col_set_col_same with (r := n) (c := c).
  - (* healthy: the atom is divided by its norm *)
    rewrite (update_atom_healthy _ _ _ _ _ _ _ Hge). cbn zeta.
    set (d := recomputed positive k dictionary code Res) in *.
    pose proof (@is_matrix_rescaled_atom f c k d Hd) as Hd5.
    do 4 eexists. split; [reflexivity|].
    split; [assumption|]. split; [assumption|].
    split.
    { apply is_matrix_msub; [assumption|].
      pose proof (is_matrix_outer (col k code) (col k (rescaled_atom k d))) as Ho.
      rewrite !length_col in Ho.
      destruct Hcode as [Lc _]. destruct Hd5 as [L5 _].
      now rewrite Lc, L5 in Ho. }
    split; [reflexivity|].
    split.
    + intros j Hj. split; [|reflexivity].
      rewrite (@col_rescaled_atom_other f c k d Hd j Hj).
      now apply (@col_recomputed_other f c n k dictionary code Res Hn HD Hcode HR).
    + left. split; [|split; [reflexivity|]].
      * exists (col k d). split; [|split; [assumption|]].
        -- intros ->. rewrite Ea. apply clamp_nonneg.
        -- now apply (@col_rescaled_atom f c k d Hd).
      * intros Hz. apply Hge.
        rewrite norm2_zeros; [assumption|].
        rewrite Ea. pose proof (vecmat_zeros (residual_without k dictionary code Res) Hz) as Hc.
        destruct positive; [now apply clamp_zeros | assumption].
Qed.

(** *** The loop *)

Lemma update_atoms_loop (ks : list nat) :
  NoDup ks -> Forall (fun k => (k < c)%nat) ks ->
  forall (dictionary code Res : Mat) (w : World),
    is_matrix f c dictionary -> is_matrix n c code -> is_matrix n f Res ->
    exists dictionary' code' Res' w',
      for_each ks (update_atom positive eps rng) (dictionary, code, Res) w
      = (Ok (dictionary', code', Res'), w', [])
      /\ is_matrix f c dictionary' /\ is_matrix n c code'
      /\ tape (gen_of rng w') = tape (gen_of rng w)
      /\ (forall j, ~ In j ks ->
          col j dictionary' = col j dictionary /\ col j code' = col j code)
      /\ (forall k, In k ks ->
          atom_outcome positive eps f (tape (gen_of rng w))
                       (col k code) (col k dictionary') (col k code')).
Proof.
  induction ks as [|k ks IH]; intros Hnd Hlt dictionary code Res w HD Hcode HR.
  - exists dictionary, code, Res, w.
    split; [reflexivity|]. split; [assumption|]. split; [assumption|].
    split; [reflexivity|].
    split; [intros j _; now split | intros k []].
  - inversion Hnd as [|? ? Hnotin Hnd']. inversion Hlt as [|? ? Hk Hlt']. subst.
    destruct (update_atom_step w Hk HD Hcode HR)
      as (D1 & code1 & R1 & w1 & E1 & HD1 & Hcode1 & HR1 & T1 & O1 & A1).
    destruct (IH Hnd' Hlt' D1 code1 R1 w1 HD1 Hcode1 HR1)
      as (D2 & code2 & R2 & w2 & E2 & HD2 & Hcode2 & T2 & O2 & A2).
    exists D2, code2, R2, w2.
    split.
    { cbn [for_each]. erewrite bind_ok_silent by exact E1. exact E2. }
    split; [assumption|]. split; [assumption|].
    split; [congruence|].
    split.
    + intros j Hj.
      assert (j <> k) by (intros ->; apply Hj; now left).
      assert (~ In j ks) by (intros Hin; apply Hj; now right).
      destruct (O1 j) as [a1 b1]; [assumption|].
      destruct (O2 j) as [a2 b2]; [assumption|].
      split; congruence.
    + intros k' [<-|Hin].
      * destruct (O2 k Hnotin) as [-> ->]. exact A1.
      * assert (k' <> k) by (intros ->; contradiction).
        destruct (O1 k') as [_ b1]; [assumption|].
        rewrite <- b1, <- T1. now apply A2.
Qed.

End Turn.

(** ** The whole update *)

Section Update.
Context {C : Collaborators}.
Variables (f c n : nat) (positive : bool) (eps : R) (rng : RngArg).
Hypothesis Heps : 0 < eps.
Hypothesis Hn : (0 < n)%nat.
Hypothesis Hf : (0 < f)%nat.
Hypothesis Hc : (0 < c)%nat.

(** [update_dict] raises nothing and keeps the sizes; every atom of the
    dictionary it returns is either healthy, its code column as it was, or
    reseeded, its code column zero. *)
Lemma update_dict_outcome (dictionary x code : Mat) (w : World) :
  is_matrix f c dictionary -> is_matrix n f x -> is_matrix n c code ->
  exists dictionary' code' w',
    update_dict dictionary x code positive eps rng w
    = (Ok (dictionary', code'), w', [])
    /\ is_matrix f c dictionary' /\ is_matrix n c code'
    /\ forall k, (k < c)%nat ->
         atom_outcome positive eps f (tape (gen_of rng w))
                      (col k code) (col k dictionary') (col k code').
Proof.
  intros HD Hx Hcode. unfold update_dict.
  rewrite (is_matrix_ncols HD Hf).
  assert (HR : is_matrix n f (msub x (matmul code (transpose dictionary)))).
  { apply is_matrix_msub; [assumption|].
    exact (is_matrix_matmul Hcode (is_matrix_transpose HD Hf) Hc). }
  assert (Hlt : Forall (fun k => (k < c)%nat) (seq 0 c)).
  { apply Forall_forall. intros k Hk. apply in_seq in Hk. lia. }
  destruct (@update_atoms_loop C f c n positive eps rng Heps Hn (seq 0 c)
              (seq_NoDup c 0) Hlt dictionary code _ w HD Hcode HR)
    as (D' & code' & R' & w' & E & HD' & Hcode' & _ & _ & A).
  exists D', code', w'.
  split; [erewrite bind_ok_silent by exact E; reflexivity|].
  split; [assumption|]. split; [assumption|].
  intros k Hk. apply A, in_seq. lia.
Qed.

(** When column [k] of the code is zero, atom [k] is reseeded and the
    column is zero after the call. *)
Lemma update_dict_zero_code_column (dictionary x code : Mat) (w : World) (k : nat) :
  is_matrix f c dictionary -> is_matrix n f x -> is_matrix n c code ->
  (k < c)%nat -> Forall (fun v => v = 0) (col k code) ->
  exists dictionary' code' w',
    update_dict dictionary x code positive eps rng w
    = (Ok (dictionary', code'), w', [])
    /\ reseeded_atom positive f (tape (gen_of rng w)) (col k dictionary')
    /\ Forall (fun v => v = 0) (col k code').
Proof.
  intros HD Hx Hcode Hk Hz.
  destruct (update_dict_outcome w HD Hx Hcode)
    as (D' & code' & w' & E & _ & _ & A).
  exists D', code', w'. split; [assumption|].
  destruct (A k Hk) as [(_ & _ & Hnz)|(Hre & ->)]; [contradiction|].
  split; [assumption|].
  apply Forall_map, Forall_forall. reflexivity.
Qed.

End Update.

(** ** The norm of the atoms *)

Lemma vsum_sq_vdiv (a : list R) (c : R) :
  c <> 0 ->
  vsum (map (fun x => x ^ 2) (vdiv a c)) = vsum (map (fun x => x ^ 2) a) / c ^ 2.
Proof.
  intros Hc. unfold vdiv. induction a as [|x a IH].
  - cbn. unfold Rdiv. now rewrite Rmult_0_l.
  - cbn [map]. rewrite !vsum_cons, IH. field. exact Hc.
Qed.

Lemma norm2_vdiv (a : list R) (c : R) :
  0 < c -> norm2 (vdiv a c) = norm2 a / c.
Proof.
  intros Hc. unfold norm2.
  rewrite vsum_sq_vdiv by lra.
  rewrite sqrt_div_alt by (apply pow_lt; assumption).
  now rewrite sqrt_pow2 by lra.
Qed.

(** A healthy atom has norm 1. *)
Lemma healthy_atom_unit_norm (positive : bool) (eps : R) (atom : list R) :
  0 < eps -> healthy_atom positive eps atom -> norm2 atom = 1.
Proof.
  intros Heps (a & _ & Hge & ->).
  assert (Ha : 0 < norm2 a) by lra.
  rewrite norm2_vdiv by assumption. field. lra.
Qed.

(** A healthy atom is non-negative when atoms are to be. *)
Lemma healthy_atom_nonneg (eps : R) (atom : list R) :
  0 < eps -> healthy_atom true eps atom -> Forall (fun x => 0 <= x) atom.
Proof.
  intros Heps (a & Hpos & Hge & ->).
  assert (Ha : 0 < norm2 a) by lra.
  unfold vdiv. apply Forall_map. specialize (Hpos eq_refl).
  revert Hpos. apply Forall_impl. intros x Hx.
  apply Rle_mult_inv_pos; assumption.
Qed.

Lemma seed_nonneg (v : list R) : Forall (fun x => 0 <= x) (seed true v).
Proof.
  unfold seed, vabs. apply Forall_map, Forall_forall.
  intros x _. apply Rabs_pos.
Qed.

Section Reseeded.
Context {C : Collaborators}.
Hypothesis get_eps_pos : forall m, 0 < get_eps m.

(** A reseeded atom is non-negative when atoms are to be, and its norm is
    the norm [s] of the seed over [s] plus the floor: below 1, and 0 when
    the seed is the zero vector. *)
Lemma reseeded_atom_nonneg (f : nat) (values : nat -> R) (atom : list R) :
  reseeded_atom true f values atom -> Forall (fun x => 0 <= x) atom.
Proof.
  intros (p & m & ->). unfold vdiv. apply Forall_map.
  generalize (seed_nonneg (map values (seq p f))).
  apply Forall_impl. intros x Hx.
  apply Rle_mult_inv_pos; [assumption|].
  pose proof (norm2_nonneg (seed true (map values (seq p f)))).
  pose proof (get_eps_pos m). lra.
Qed.

Lemma reseeded_atom_norm (positive : bool) (f : nat) (values : nat -> R)
      (atom : list R) :
  reseeded_atom positive f values atom ->
  exists s floor, 0 <= s /\ 0 < floor /\ norm2 atom = s / (s + floor)
                  /\ norm2 atom < 1.
Proof.
  intros (p & m & ->).
  set (sd := seed positive (map values (seq p f))).
  pose proof (norm2_nonneg sd) as Hs. pose proof (get_eps_pos m) as He.
  exists (norm2 sd), (get_eps m).
  rewrite norm2_vdiv by lra.
  repeat split; try assumption.
  apply Rmult_lt_reg_r with (norm2 sd + get_eps m); [lra|].
  unfold Rdiv. rewrite Rmult_assoc, Rinv_l by lra. lra.
Qed.

(** When no value of the draw is positive the reseeded atom is the zero
    vector. *)
Lemma reseeded_atom_zero (f : nat) (values : nat -> R) (atom : list R) :
  (forall i, values i <= 0) ->
  reseeded_atom true f values atom -> atom = repeat 0 f.
Proof.
  intros Hneg (p & m & ->). unfold seed.
  rewrite reseed_nonpos_draw.
  - rewrite map_map. clear. generalize p. induction f as [|f IH]; intro q.
    + reflexivity.
    + cbn [seq map repeat]. now rewrite IH.
  - apply Forall_map, Forall_forall. intros i _. apply Hneg.
Qed.

End Reseeded.

(** ** The defect on an input *)

(** C5.  One sample, two features, one atom, the code column of the atom
    zero, and a generator whose values are negative: the call returns, the
    code column is zero, and the atom is the zero vector, where a non-zero
    vector of unit norm is claimed. *)
Theorem update_dict_zero_code_column_negative_draw :
  result_of (update_dict (C := Toy.toy) [[1]; [0]] [[1; 1]] [[0]] true 1e-7
                         RngNone Toy.world0)
  = Ok ([[0]; [0]], [[0]])
  /\ norm2 (col 0 [[0]; [0]]) = 0.
Proof.
  split; [|apply norm2_zeros; repeat constructor].
  run_eval.
  match goal with
  | |- context [Rlt_dec ?a ?b] => destruct (Rlt_dec a b) as [Hlt|Hge]
  end.
  - run_eval. rewrite !(@Rmax_0_nonpos (-1)) by lra. rewrite Rabs_R0.
    unfold Rdiv. rewrite Rmult_0_l. reflexivity.
  - exfalso. apply Hge. rewrite norm2_zeros; [lra|].
    repeat constructor; apply Rmax_0_nonpos; lra.
Qed.

(** C4.  One sample of optical density zero, one feature, one atom: the
    recomputed atom is degenerate, the generator's value is negative, and
    the atom returned has norm 0, not 1. *)
Theorem update_dict_returns_atom_of_norm_zero :
  result_of (update_dict (C := Toy.toy) [[1]] [[0]] [[1]] true 1e-7
                         RngNone Toy.world0)
  = Ok ([[0]], [[0]])
  /\ norm2 (col 0 [[0]]) = 0.
Proof.
  split; [|apply norm2_zeros; repeat constructor].
  run_eval.
  match goal with
  | |- context [Rlt_dec ?a ?b] => destruct (Rlt_dec a b) as [Hlt|Hge]
  end.
  - run_eval. rewrite !(@Rmax_0_nonpos (-1)) by lra. rewrite Rabs_R0.
    unfold Rdiv. rewrite Rmult_0_l. reflexivity.
  - exfalso. apply Hge. rewrite norm2_zeros; [lra|].
    repeat constructor; apply Rmax_0_nonpos; lra.
Qed.

End UpdateDictFacts.

(* ================================================================== *)
(** * The ridge update *)
(* ================================================================== *)

Module RidgeFacts.
Import Tensor Effects Collab DictLearning TensorFacts EffectFacts Spec MatrixFacts.
Local Open Scope R_scope.

(** ** The normal equations *)

Lemma is_matrix_scaled_identity (n : nat) (c : R) :
  is_matrix n n (scaled_identity n c).
Proof.
  unfold scaled_identity. split; [now rewrite length_map, length_seq|].
  apply Forall_forall. intros row Hrow.
  apply in_map_iff in Hrow. destruct Hrow as (i & <- & _).
  now rewrite length_map, length_seq.
Qed.

Lemma entry_scaled_identity (n : nat) (c : R) (i j : nat) :
  (i < n)%nat -> (j < n)%nat ->
  entry i j (scaled_identity n c) = if Nat.eqb i j then c else 0.
Proof.
  intros Hi Hj. unfold entry, scaled_identity.
  rewrite (nth_map_seq (fun i => map (fun j => if Nat.eqb i j then c else 0) (seq 0 n)))
    by assumption.
  now rewrite (nth_map_seq (fun j => if Nat.eqb i j then c else 0)).
Qed.

Lemma is_matrix_add_diagonal (n : nat) (c : R) (m : Mat) :
  is_matrix n n m -> is_matrix n n (add_diagonal c m).
Proof.
  intros [L F]. unfold add_diagonal. split.
  - rewrite length_zipWith, length_seq. lia.
  - apply Forall_forall. intros row Hrow.
    unfold zipWith in Hrow. apply in_map_iff in Hrow.
    destruct Hrow as ([i r] & <- & Hin). cbn [fst snd].
    rewrite length_set_nth. rewrite Forall_forall in F.
    apply F. eapply in_combine_r; eauto.
Qed.

Lemma entry_add_diagonal (n : nat) (c : R) (m : Mat) (i j : nat) :
  is_matrix n n m -> (i < n)%nat -> (j < n)%nat ->
  entry i j (add_diagonal c m)
  = entry i j m + (if Nat.eqb i j then c else 0).
Proof.
  intros H Hi Hj. unfold entry, add_diagonal.
  rewrite (nth_zipWith _ (seq 0 (length m)) m 0%nat [] [])
    by (rewrite ?length_seq; destruct H; lia).
  rewrite seq_nth by (destruct H; lia). cbn [Nat.add].
  rewrite nth_set_nth, (is_matrix_row H Hi).
  rewrite (Nat.eqb_sym j i).
  destruct (Nat.eqb_spec i j) as [->|Hne]; cbn [andb].
  - replace (j <? n)%nat with true by (symmetry; now apply Nat.ltb_lt). lra.
  - lra.
Qed.

(** Adding [c] to the diagonal in place is adding [c] times the identity. *)
Lemma add_diagonal_scaled_identity (n : nat) (c : R) (m : Mat) :
  is_matrix n n m -> add_diagonal c m = madd m (scaled_identity n c).
Proof.
  intros H.
  apply (matrix_ext (is_matrix_add_diagonal c H)
                    (is_matrix_madd H (is_matrix_scaled_identity n c))).
  intros i j Hi Hj.
  rewrite (entry_add_diagonal c H Hi Hj).
  rewrite (entry_madd H (is_matrix_scaled_identity n c) Hi Hj).
  now rewrite entry_scaled_identity.
Qed.

Lemma gram_is_matrix (N k : nat) (code : Mat) :
  is_matrix N k code -> (0 < N)%nat ->
  is_matrix k k (matmul (transpose code) code).
Proof.
  intros H HN.
  exact (is_matrix_matmul (is_matrix_transpose H HN) H HN).
Qed.

Lemma gram_symmetric (N k : nat) (code : Mat) :
  is_matrix N k code -> (0 < N)%nat ->
  symmetric k (matmul (transpose code) code).
Proof.
  intros H HN i j Hi Hj.
  rewrite !(entry_matmul (is_matrix_transpose H HN) H HN) by assumption.
  rewrite !(row_transpose H HN) by assumption.
  apply dot_comm.
Qed.

Lemma normal_matrix_is_matrix (N k : nat) (code : Mat) (lambd : R) :
  is_matrix N k code -> (0 < N)%nat ->
  is_matrix k k (normal_matrix code lambd N).
Proof.
  intros H HN. unfold normal_matrix. rewrite (is_matrix_ncols H HN).
  apply is_matrix_madd;
    [now apply (gram_is_matrix H) | apply is_matrix_scaled_identity].
Qed.

Lemma normal_matrix_symmetric (N k : nat) (code : Mat) (lambd : R) :
  is_matrix N k code -> (0 < N)%nat ->
  symmetric k (normal_matrix code lambd N).
Proof.
  intros H HN i j Hi Hj. unfold normal_matrix.
  rewrite (is_matrix_ncols H HN).
  rewrite !(entry_madd (gram_is_matrix H HN) (is_matrix_scaled_identity k _))
    by assumption.
  rewrite (gram_symmetric H HN Hi Hj), !entry_scaled_identity by assumption.
  now rewrite (Nat.eqb_sym j i).
Qed.

(** ** When the matrix is positive definite *)

Lemma entry_gram (N k : nat) (code : Mat) (i j : nat) :
  is_matrix N k code -> (0 < N)%nat -> (i < k)%nat -> (j < k)%nat ->
  entry i j (matmul (transpose code) code)
  = sum_n N (fun s => entry s i code * entry s j code).
Proof.
  intros H HN Hi Hj.
  rewrite (@entry_matmul k N k _ _ i j (is_matrix_transpose H HN) H HN Hi Hj).
  rewrite (@row_transpose N k _ i H HN Hi).
  rewrite (@dot_sum_n N) by (rewrite length_col; apply H).
  apply sum_n_ext. intros s _. now rewrite !nth_col.
Qed.

(** The quadratic form of [Z^T Z] is a sum of squares. *)
Lemma gram_quadratic_form (N k : nat) (code : Mat) (v : list R) :
  is_matrix N k code -> (0 < N)%nat -> length v = k ->
  sum_n k (fun i => nth i v 0
                    * sum_n k (fun j => entry i j (matmul (transpose code) code)
                                        * nth j v 0))
  = sum_n N (fun s => sum_n k (fun i => entry s i code * nth i v 0) ^ 2).
Proof.
  intros H HN Hv.
  set (q := fun s => sum_n k (fun i => entry s i code * nth i v 0)).
  transitivity (sum_n k (fun i => sum_n N (fun s => entry s i code * nth i v 0 * q s))).
  - apply sum_n_ext. intros i Hi.
    rewrite <- sum_n_scal.
    transitivity (sum_n k (fun j => sum_n N (fun s =>
                     nth i v 0 * (entry s i code * entry s j code * nth j v 0)))).
    + apply sum_n_ext. intros j Hj.
      rewrite (entry_gram H HN Hi Hj), <- sum_n_scal_r, <- sum_n_scal.
      reflexivity.
    + rewrite sum_n_swap. apply sum_n_ext. intros s _. unfold q.
      rewrite <- sum_n_scal. apply sum_n_ext. intros j _. ring.
  - rewrite sum_n_swap. apply sum_n_ext. intros s _.
    rewrite sum_n_scal_r. fold (q s). ring.
Qed.

(** With a positive weight decay and at least one sample the matrix of
    the normal equations is positive definite, whatever the code. *)
Lemma normal_matrix_positive_definite (N k : nat) (code : Mat) (lambd : R) :
  is_matrix N k code -> (0 < N)%nat -> 0 < lambd ->
  positive_definite k (normal_matrix code lambd N).
Proof.
  intros H HN Hl v Hv Hne.
  pose proof (normal_matrix_is_matrix lambd H HN) as HM.
  assert (Ha : 0 < lambd * INR N)
    by (apply Rmult_lt_0_compat; [assumption | now apply lt_0_INR]).
  rewrite (@dot_sum_n k)
    by (unfold matvec; rewrite ?length_map; first [assumption | apply HM]).
  rewrite (@sum_n_ext k _
             (fun i => nth i v 0
                       * sum_n k (fun j => entry i j (matmul (transpose code) code)
                                           * nth j v 0)
                       + lambd * INR N * (nth i v 0 * nth i v 0))).
  - rewrite sum_n_plus, (@gram_quadratic_form N k code v H HN Hv), sum_n_scal.
    assert (0 <= sum_n N (fun s => sum_n k (fun i => entry s i code * nth i v 0) ^ 2))
      by (apply sum_n_nonneg; intros; apply pow2_ge_0).
    destruct (nonzero_entry Hv Hne) as (i & Hi & Hx).
    assert (0 < sum_n k (fun i => nth i v 0 * nth i v 0)).
    { apply sum_n_pos with (i := i); try assumption.
      - intros j _. nra.
      - nra. }
    nra.
  - intros i Hi.
    rewrite (@nth_matvec k k _ v i HM Hv Hi).
    rewrite (@sum_n_ext k _
               (fun j => entry i j (matmul (transpose code) code) * nth j v 0
                         + (if Nat.eqb i j then lambd * INR N else 0) * nth j v 0)).
    + rewrite sum_n_plus, (@sum_n_delta k i _ _ Hi). ring.
    + intros j Hj. unfold normal_matrix.
      rewrite (is_matrix_ncols H HN).
      rewrite (@entry_madd k k _ _ i j (gram_is_matrix H HN)
                 (is_matrix_scaled_identity k _) Hi Hj).
      rewrite (@entry_scaled_identity k _ i j Hi Hj). ring.
Qed.

Section WithCollaborators.
Context {C : Collaborators}.

(** The matrix the source factors is the matrix of the normal equations. *)
Lemma ridge_matrix (N k f : nat) (x code : Mat) (lambd : R) :
  is_matrix N f x -> is_matrix N k code -> (0 < N)%nat ->
  add_diagonal (lambd * INR (nrows x)) (matmul (transpose code) code)
  = normal_matrix code lambd N.
Proof.
  intros Hx Hc HN. unfold normal_matrix, nrows.
  rewrite (is_matrix_ncols Hc HN). destruct Hx as [-> _].
  apply add_diagonal_scaled_identity. now apply (gram_is_matrix Hc).
Qed.

(** The factorisation and the solve, when the matrix is positive
    definite. *)
Lemma ridge_factored (x code : Mat) (lambd : R) (N k f : nat) (w : World) :
  cholesky_contract k -> cholesky_solve_contract k ->
  (0 < N)%nat -> is_matrix N f x -> is_matrix N k code ->
  positive_definite k (normal_matrix code lambd N) ->
  exists L V,
    cholesky (normal_matrix code lambd N) = Some L
    /\ V = cholesky_solve (matmul (transpose code) x) L
    /\ update_dict_ridge x code lambd w = (Ok (transpose V), w, [])
    /\ is_matrix k f V
    /\ matmul (normal_matrix code lambd N) V = matmul (transpose code) x.
Proof.
  intros Hchol Hsolve HN Hx Hc PD.
  unfold update_dict_ridge. rewrite (ridge_matrix lambd Hx Hc HN).
  destruct (Hchol _ (normal_matrix_is_matrix lambd Hc HN)
                  (normal_matrix_symmetric lambd Hc HN)) as (Hpd & _).
  destruct (Hpd PD) as (L & EL & HL & HLL).
  rewrite EL.
  assert (Hrhs : is_matrix k f (matmul (transpose code) x))
    by exact (is_matrix_matmul (is_matrix_transpose Hc HN) Hx HN).
  assert (PD' : positive_definite k (matmul L (transpose L)))
    by now rewrite HLL.
  destruct (Hsolve f _ L Hrhs HL PD') as (HV & EV).
  exists L, (cholesky_solve (matmul (transpose code) x) L).
  rewrite HLL in EV.
  split; [reflexivity|]. split; [reflexivity|]. split; [reflexivity|].
  split; assumption.
Qed.

(** With a positive weight decay the update always returns, and what it
    returns has the size of a dictionary. *)
Lemma update_dict_ridge_returns (x code : Mat) (lambd : R) (N k f : nat)
      (w : World) :
  cholesky_contract k -> cholesky_solve_contract k ->
  (0 < N)%nat -> (0 < k)%nat -> 0 < lambd ->
  is_matrix N f x -> is_matrix N k code ->
  exists weight,
    update_dict_ridge x code lambd w = (Ok weight, w, [])
    /\ is_matrix f k weight.
Proof.
  intros Hchol Hsolve HN Hk Hl Hx Hc.
  destruct (ridge_factored lambd w Hchol Hsolve HN Hx Hc
              (normal_matrix_positive_definite Hc HN Hl))
    as (L & V & _ & _ & E & HV & _).
  exists (transpose V). split; [assumption|].
  now apply is_matrix_transpose.
Qed.

(** C6.  With [N] samples, when [Z^T Z + lambda N I] is positive definite
    [update_dict_ridge] returns the transpose of the solution [V] of
    [(Z^T Z + lambda N I) V = Z^T x], obtained from the Cholesky factor;
    when it is not, the call raises the error of the factorisation and
    returns no dictionary. *)
Theorem update_dict_ridge_solves_normal_equations
        (x code : Mat) (lambd : R) (N k f : nat) (w : World) :
  cholesky_contract k -> cholesky_solve_contract k ->
  (0 < N)%nat -> is_matrix N f x -> is_matrix N k code ->
  (positive_definite k (normal_matrix code lambd N) ->
   exists L V,
     cholesky (normal_matrix code lambd N) = Some L
     /\ V = cholesky_solve (matmul (transpose code) x) L
     /\ update_dict_ridge x code lambd w = (Ok (transpose V), w, [])
     /\ is_matrix k f V
     /\ matmul (normal_matrix code lambd N) V = matmul (transpose code) x)
  /\ (~ positive_definite k (normal_matrix code lambd N) ->
      update_dict_ridge x code lambd w = (Raise LinAlgError, w, [])).
Proof.
  intros Hchol Hsolve HN Hx Hc. split.
  - now apply ridge_factored.
  - intros NPD. unfold update_dict_ridge.
    rewrite (ridge_matrix lambd Hx Hc HN).
    destruct (Hchol _ (normal_matrix_is_matrix lambd Hc HN)
                    (normal_matrix_symmetric lambd Hc HN)) as (_ & Hnpd).
    now rewrite (Hnpd NPD).
Qed.

End WithCollaborators.

(** ** The contract at size one *)

Lemma matrix_1_1 (m : Mat) : is_matrix 1 1 m -> exists a, m = [[a]].
Proof.
  intros [L F]. destruct m as [|r [|r' m]]; try discriminate.
  inversion F as [|? ? Hr _]. destruct r as [|a [|a' r]]; try discriminate.
  now exists a.
Qed.

Lemma positive_definite_1 (a : R) : positive_definite 1 [[a]] <-> 0 < a.
Proof.
  unfold positive_definite. split.
  - intros H. specialize (H [1] eq_refl).
    assert (Hne : [1] <> repeat 0 1) by (cbn; intros [= E]; lra).
    specialize (H Hne). revert H. list_eval. cbv [matvec map]. list_eval.
    intros H. lra.
  - intros Ha v Hv Hne.
    destruct v as [|t [|t' v]]; try discriminate.
    assert (Ht : t <> 0) by (intros ->; now apply Hne).
    list_eval. cbv [matvec map]. list_eval.
    pose proof (Rsqr_pos_lt t Ht) as Hsq. unfold Rsqr in Hsq.
    replace (t * (a * t + 0) + 0) with (a * (t * t)) by ring.
    now apply Rmult_lt_0_compat.
Qed.

Lemma toy_cholesky_contract : cholesky_contract (C := Toy.toy) 1.
Proof.
  intros m Hm _. destruct (matrix_1_1 Hm) as (a & ->).
  rewrite positive_definite_1. cbn [cholesky Toy.toy Toy.toy_cholesky].
  destruct (Rlt_dec 0 a) as [Ha|Ha]; split; intros H; try contradiction.
  - exists [[sqrt a]]. split; [reflexivity|]. split.
    + split; [reflexivity | repeat constructor].
    + list_eval. rewrite sqrt_sqrt by lra. repeat f_equal. lra.
  - reflexivity.
Qed.

Lemma toy_cholesky_solve_contract : cholesky_solve_contract (C := Toy.toy) 1.
Proof.
  intros f B L HB HL PD.
  destruct (matrix_1_1 HL) as (c & ->).
  destruct HB as [LB FB].
  destruct B as [|b [|b' B]]; try discriminate.
  inversion FB as [|? ? Hb _]. subst.
  cbn [cholesky_solve Toy.toy Toy.toy_cholesky_solve hd].
  assert (Hc : 0 < c * c + 0).
  { apply positive_definite_1. revert PD. list_eval. exact (fun H => H). }
  assert (Hsol : is_matrix 1 (length b) [map (fun v => v / (c * c)) b]).
  { split; [reflexivity|]. repeat constructor. now rewrite length_map. }
  split; [exact Hsol|].
  assert (HA : is_matrix 1 1 (matmul [[c]] (transpose [[c]]))).
  { split; [reflexivity | repeat constructor]. }
  apply (matrix_ext (r := 1) (c := length b)).
  - exact (is_matrix_matmul HA Hsol Nat.lt_0_1).
  - split; [reflexivity | repeat constructor].
  - intros i j Hi Hj. assert (i = 0%nat) by lia. subst i.
    rewrite (entry_matmul HA Hsol Nat.lt_0_1) by assumption.
    change ((c * c + 0) * nth j (map (fun u => u / (c * c)) b) 0 + 0
            = nth j b 0).
    replace 0 with ((fun u => u / (c * c)) 0) at 2 by (unfold Rdiv; lra).
    rewrite (map_nth (fun u => u / (c * c)) b 0 j).
    assert (Hcc : c <> 0) by (intros E; rewrite E in Hc; lra).
    field. exact Hcc.
Qed.

Lemma update_dict_ridge_solves_normal_equations_witness :
  exists L V,
    @cholesky Toy.toy (normal_matrix [[1]] 1 1) = Some L
    /\ V = @cholesky_solve Toy.toy (matmul (transpose [[1]]) [[2]]) L
    /\ update_dict_ridge (C := Toy.toy) [[2]] [[1]] 1 Toy.world0
       = (Ok (transpose V), Toy.world0, [])
    /\ is_matrix 1 1 V
    /\ matmul (normal_matrix [[1]] 1 1) V = matmul (transpose [[1]]) [[2]].
Proof.
  apply (@update_dict_ridge_solves_normal_equations Toy.toy [[2]] [[1]] 1 1 1 1
           Toy.world0 toy_cholesky_contract toy_cholesky_solve_contract).
  - lia.
  - split; [reflexivity | repeat constructor].
  - split; [reflexivity | repeat constructor].
  - unfold normal_matrix, scaled_identity. list_eval.
    apply positive_definite_1. cbn [Nat.eqb INR]. lra.
Defined.

End RidgeFacts.

(* ================================================================== *)
(** * The learning loop *)
(* ================================================================== *)

Module LearningFacts.
Import Tensor Effects Collab DictLearning TensorFacts MatrixFacts EffectFacts
       SparseEncodeFacts UpdateDictFacts RidgeFacts Spec.
Local Open Scope R_scope.

(** ** Loops *)

Lemma for_each_silent {A S : Type} (body : A -> S -> M S) (l : list A) :
  (forall a s w, events_of (body a s w) = []
                 /\ exists s', result_of (body a s w) = Ok s') ->
  forall s w, events_of (for_each l body s w) = []
              /\ exists s', result_of (for_each l body s w) = Ok s'.
Proof.
  intros Hbody. induction l as [|a l IH]; intros s w.
  - split; [reflexivity | now exists s].
  - cbn [for_each]. rewrite events_bind, result_bind.
    destruct (Hbody a s w) as (Ev & s1 & Er). rewrite Ev, Er. cbn [app].
    apply IH.
Qed.

Section WithCollaborators.
Context {C : Collaborators}.

(** ** The events of the pieces of one turn *)

Lemma count_progress_app ev1 ev2 :
  count_progress (ev1 ++ ev2) = (count_progress ev1 + count_progress ev2)%nat.
Proof. unfold count_progress. now rewrite filter_app, length_app. Qed.

Lemma count_solve_app ev1 ev2 :
  count_solve (ev1 ++ ev2) = (count_solve ev1 + count_solve ev2)%nat.
Proof. unfold count_solve. now rewrite filter_app, length_app. Qed.

Lemma code_variable_trace x weight alpha z0 algorithm init rng w :
  filter is_progress
         (events_of (code_variable x weight alpha z0 algorithm init rng w)) = []
  /\ filter is_solve
            (events_of (code_variable x weight alpha z0 algorithm init rng w)) = [].
Proof.
  destruct z0 as [z|].
  - rewrite code_variable_warm_events. now split.
  - unfold code_variable, call_initialize_code.
    destruct init as [i|]; destruct rng;
      unfold bind, emit, ret, with_gen, lift, events_of;
      cbn [fst snd];
      try destruct ((i =? "zero")%string && (algorithm =? "iter-ridge")%string);
      cbn [fst snd];
      match goal with
      | |- context [initialize_code ?a ?b ?c ?d ?e] =>
          destruct (initialize_code a b c d e) as [[z1|e1] g1]
      end; cbn; auto.
Qed.

Lemma inference_trace x weight alpha algorithm rng kwargs z w :
  let o := inference x weight alpha algorithm rng kwargs z w in
  filter is_progress (events_of o) = []
  /\ match result_of o with
     | Ok _ => count_solve (events_of o) = 1%nat
     | Raise _ => count_solve (events_of o) = 0%nat
     end.
Proof.
  unfold inference, bind, emit, ret, with_gen, raise.
  destruct (algorithm =? "cd")%string; [now split|].
  destruct (algorithm =? "ista")%string; [|now split].
  destruct rng; cbn;
    match goal with
    | |- context [ista ?a ?b ?c ?d ?e ?f] => destruct (ista a b c d e f)
    end; now split.
Qed.

Lemma sparse_encode_trace x weight alpha z0 algorithm init rng kwargs w :
  let o := sparse_encode x weight alpha z0 algorithm init rng kwargs w in
  filter is_progress (events_of o) = []
  /\ match result_of o with
     | Ok _ => count_solve (events_of o) = 1%nat
     | Raise _ => count_solve (events_of o) = 0%nat
     end.
Proof.
  cbn zeta. rewrite sparse_encode_halves, events_bind, result_bind.
  destruct (code_variable_trace x weight alpha z0 algorithm init rng w) as (P & S).
  rewrite filter_app, count_solve_app, P. unfold count_solve at 1 3. rewrite S.
  cbn [app length Nat.add].
  destruct (result_of (code_variable x weight alpha z0 algorithm init rng w))
    as [z|e].
  - apply inference_trace.
  - now split.
Qed.

Lemma update_atom_silent positive eps rng k st w :
  events_of (update_atom positive eps rng k st w) = []
  /\ exists st', result_of (update_atom positive eps rng k st w) = Ok st'.
Proof.
  destruct st as [[dictionary code] R]. unfold update_atom.
  destruct (Rlt_dec _ _).
  - unfold bind, normal_, with_gen, ret. destruct rng; cbn; eauto.
  - cbn. eauto.
Qed.

Lemma update_dict_silent dictionary x code positive eps rng w :
  events_of (update_dict dictionary x code positive eps rng w) = []
  /\ exists r, result_of (update_dict dictionary x code positive eps rng w) = Ok r.
Proof.
  unfold update_dict. rewrite events_bind, result_bind.
  destruct (for_each_silent (update_atom positive eps rng)
              (seq 0 (ncols dictionary)) (update_atom_silent positive eps rng)
              (dictionary, code, msub x (matmul code (transpose dictionary))) w)
    as (Ev & [[d c] r] & Er).
  rewrite Ev, Er. cbn. eauto.
Qed.

Lemma update_dict_ridge_silent x code lambd w :
  events_of (update_dict_ridge x code lambd w) = [].
Proof. unfold update_dict_ridge. now destruct (cholesky _). Qed.

(** ** One turn *)

(** A turn that completes has called a solver once, has stored its loss at
    position [i] and has reported that loss; a turn that raises has
    reported nothing. *)
Lemma learning_step_trace x alpha constrained persist lambd rng algorithm
      init kwargs i weight Z_0 losses w :
  let o := learning_step x alpha constrained persist lambd rng algorithm init
                         kwargs i (weight, Z_0, losses) w in
  match result_of o with
  | Ok (_, _, losses') =>
      exists l, losses' = set_nth i l losses
                /\ filter is_progress (events_of o) = [Progress l]
                /\ count_solve (events_of o) = 1%nat
  | Raise _ => filter is_progress (events_of o) = []
  end.
Proof.
  cbn zeta. unfold learning_step.
  rewrite events_bind, result_bind.
  destruct (sparse_encode_trace x weight alpha Z_0 algorithm init rng kwargs w)
    as (P & S).
  rewrite filter_app, count_solve_app, P. cbn [app].
  destruct (result_of (sparse_encode x weight alpha Z_0 algorithm init rng kwargs w))
    as [Z|e]; [|reflexivity].
  rewrite S.
  set (w1 := world_of (sparse_encode x weight alpha Z_0 algorithm init rng kwargs w)).
  rewrite events_bind, result_bind.
  destruct constrained.
  - destruct (update_dict_silent weight x Z true 1e-7 rng w1) as (Ev & [d c] & Er).
    rewrite Ev, Er. cbn. eexists. repeat split.
  - rewrite events_bind, result_bind, update_dict_ridge_silent.
    unfold update_dict_ridge.
    destruct (cholesky _); cbn; [|reflexivity].
    eexists. repeat split.
Qed.

(** ** The loop *)

Lemma set_nth_split (i : nat) (x : R) (l : list R) :
  (i < length l)%nat -> set_nth i x l = firstn i l ++ x :: skipn (S i) l.
Proof.
  revert i. induction l as [|h l IH]; intros [|i] H; cbn in *; try lia.
  - reflexivity.
  - rewrite <- IH by lia. reflexivity.
Qed.

Lemma learning_loop_trace x alpha constrained persist lambd rng algorithm
      init kwargs n :
  forall a weight Z_0 losses w,
    (a + n <= length losses)%nat ->
    let o := for_each (seq a n)
                      (learning_step x alpha constrained persist lambd rng
                                     algorithm init kwargs)
                      (weight, Z_0, losses) w in
    match result_of o with
    | Ok (_, _, losses') =>
        exists ls,
          length ls = n
          /\ losses' = firstn a losses ++ ls ++ skipn (a + n) losses
          /\ filter is_progress (events_of o) = map Progress ls
          /\ count_solve (events_of o) = n
    | Raise _ => (count_progress (events_of o) < n)%nat
    end.
Proof.
  induction n as [|n IH]; intros a weight Z_0 losses w Hlen; cbn zeta.
  - cbn. exists []. rewrite Nat.add_0_r, firstn_skipn. now repeat split.
  - cbn [seq for_each]. rewrite events_bind, result_bind.
    pose proof (learning_step_trace x alpha constrained persist lambd rng
                  algorithm init kwargs a weight Z_0 losses w) as Hstep.
    cbn zeta in Hstep.
    destruct (result_of (learning_step x alpha constrained persist lambd rng
                           algorithm init kwargs a (weight, Z_0, losses) w))
      as [[[weight1 Z1] losses1]|e].
    + destruct Hstep as (l & El & Ep & Es).
      set (w1 := world_of _).
      assert (Hlen1 : (S a + n <= length losses1)%nat)
        by (rewrite El, length_set_nth; lia).
      specialize (IH (S a) weight1 Z1 losses1 w1 Hlen1). cbn zeta in IH.
      destruct (result_of (for_each (seq (S a) n) _ (weight1, Z1, losses1) w1))
        as [[[weight2 Z2] losses2]|e].
      * destruct IH as (ls & Hls & E2 & Ep2 & Es2).
        exists (l :: ls). split; [cbn; lia|]. split; [|split].
        -- rewrite E2, El, set_nth_split by lia.
           rewrite firstn_app, firstn_firstn, length_firstn.
           replace (Nat.min (S a) a) with a by lia.
           replace (S a - Nat.min a (length losses))%nat with 1%nat by lia.
           cbn [firstn].
           rewrite skipn_app, length_firstn.
           replace (S a + n - Nat.min a (length losses))%nat with (S n) by lia.
           rewrite (skipn_all2 (firstn a losses)) by (rewrite length_firstn; lia).
           rewrite skipn_cons. cbn [app]. rewrite skipn_skipn.
           replace (n + S a)%nat with (a + S n)%nat by lia.
           rewrite <- app_assoc. reflexivity.
        -- rewrite filter_app, Ep, Ep2. reflexivity.
        -- rewrite count_solve_app, Es, Es2. reflexivity.
      * rewrite count_progress_app. unfold count_progress at 1. rewrite Ep.
        cbn [length]. lia.
    + rewrite app_nil_r. unfold count_progress. rewrite Hstep. cbn. lia.
Qed.

(** In the default configuration (the constrained update, no warm start
    kept) every turn completes when the algorithm is one of the two and the
    initialiser returns a code. *)
Lemma learning_loop_completes x alpha lambd rng algorithm init kwargs n :
  (algorithm = "cd" \/ algorithm = "ista")%string ->
  (forall x' weight' alpha' g,
      exists z g', initialize_code x' weight' alpha'
                                   (resolved_init algorithm init) g = (Ok z, g')) ->
  forall a weight losses w,
  exists weight' losses',
    result_of (for_each (seq a n)
                        (learning_step x alpha true false lambd rng
                                       algorithm init kwargs)
                        (weight, None, losses) w)
    = Ok (weight', None, losses').
Proof.
  intros Halg Hinit.
  induction n as [|n IH]; intros a weight losses w.
  - now exists weight, losses.
  - cbn [seq for_each]. rewrite result_bind.
    assert (Hstep : exists weight1 losses1,
               result_of (learning_step x alpha true false lambd rng algorithm
                                        init kwargs a (weight, None, losses) w)
               = Ok (weight1, None, losses1)).
    { unfold learning_step. rewrite result_bind.
      assert (Henc : exists Z, result_of (sparse_encode x weight alpha None
                                            algorithm init rng kwargs w) = Ok Z).
      { rewrite sparse_encode_halves, result_bind.
        destruct (code_variable_cold x weight alpha algorithm init rng w)
          as (Er & _ & _).
        destruct (Hinit x weight alpha (gen_of rng w)) as (z & g' & Ez).
        rewrite Ez in Er. cbn [fst] in Er. rewrite Er.
        unfold inference.
        destruct Halg as [-> | ->]; cbn [String.eqb Ascii.eqb Bool.eqb];
          unfold bind, emit, ret, with_gen, result_of.
        - cbn. eauto.
        - destruct rng; cbn;
            match goal with
            | |- context [ista ?a ?b ?c ?d ?e ?f] => destruct (ista a b c d e f)
            end; cbn; eauto. }
      destruct Henc as (Z & ->).
      rewrite result_bind.
      destruct (update_dict_silent weight x Z true 1e-7 rng
                  (world_of (sparse_encode x weight alpha None algorithm init
                                           rng kwargs w)))
        as (_ & [d c] & ->).
      cbn. eauto. }
    destruct Hstep as (weight1 & losses1 & ->).
    apply IH.
Qed.

(** ** Valid inputs *)

Section Valid.
Variables (n f c : nat) (x : Mat) (alpha : R) (algorithm : string)
          (init : option string) (rng : RngArg) (kwargs : Kwargs).
Hypothesis Hn : (0 < n)%nat.
Hypothesis Hf : (0 < f)%nat.
Hypothesis Hc : (0 < c)%nat.
Hypothesis Hx : is_matrix n f x.
Hypothesis Halg : (algorithm = "cd" \/ algorithm = "ista")%string.
Hypothesis Hinit : initialize_contract (resolved_init algorithm init).
Hypothesis Hsolver : solver_contract.

(** The coding returns a code of the right size. *)
Lemma sparse_encode_returns (weight : Mat) (Z_0 : option Mat) (w : World) :
  is_matrix f c weight ->
  (forall z, Z_0 = Some z -> is_matrix n c z) ->
  exists Z,
    result_of (sparse_encode x weight alpha Z_0 algorithm init rng kwargs w)
    = Ok Z
    /\ is_matrix n c Z.
Proof.
  intros Hw HZ. rewrite sparse_encode_halves, result_bind.
  assert (Hcv : exists z,
             result_of (code_variable x weight alpha Z_0 algorithm init rng w)
             = Ok z /\ is_matrix n c z).
  { destruct Z_0 as [z|].
    - exists z. split; [|now apply HZ].
      rewrite code_variable_warm; [reflexivity|].
      rewrite (is_matrix_shape2 Hn (HZ z eq_refl)). unfold nrows.
      rewrite (is_matrix_ncols Hw Hf). now destruct Hx as [-> _].
    - destruct (code_variable_cold x weight alpha algorithm init rng w)
        as (Er & _ & _).
      destruct (@Hinit n f c x weight alpha (gen_of rng w) Hf Hx Hw)
        as (z & g' & Ez & Hz).
      exists z. rewrite Er, Ez. now split. }
  destruct Hcv as (z & -> & Hz).
  destruct (@Hsolver n f c x weight z alpha kwargs
              (gen_of rng (world_of (code_variable x weight alpha Z_0 algorithm
                                                   init rng w)))
              Hx Hw Hz) as (Hcd & Hista).
  unfold inference.
  destruct Halg as [-> | ->]; cbn [String.eqb Ascii.eqb Bool.eqb].
  - eexists. split; [reflexivity | exact Hcd].
  - rewrite result_bind. cbn [emit result_of fst].
    rewrite with_gen_result. eexists. split; [reflexivity | exact Hista].
Qed.

Variables (constrained persist : bool) (lambd : R).
Hypothesis Hupdate :
  constrained = true
  \/ (0 < lambd /\ cholesky_contract c /\ cholesky_solve_contract c).

(** A turn returns and keeps the sizes of the dictionary and of the warm
    start. *)
Lemma learning_step_returns (i : nat) (weight : Mat) (Z_0 : option Mat)
      (losses : list R) (w : World) :
  is_matrix f c weight ->
  (forall z, Z_0 = Some z -> is_matrix n c z) ->
  exists weight' Z_0' losses',
    result_of (learning_step x alpha constrained persist lambd rng algorithm
                             init kwargs i (weight, Z_0, losses) w)
    = Ok (weight', Z_0', losses')
    /\ is_matrix f c weight'
    /\ (forall z, Z_0' = Some z -> is_matrix n c z).
Proof.
  intros Hw HZ. unfold learning_step. rewrite result_bind.
  destruct (sparse_encode_returns w Hw HZ) as (Z & -> & HZ1).
  set (w1 := world_of _).
  rewrite result_bind.
  assert (Hup : exists weight' Z',
             result_of ((if constrained
                         then update_dict weight x Z true 1e-7 rng
                         else bind (update_dict_ridge x Z lambd)
                                   (fun weight0 => ret (weight0, Z))) w1)
             = Ok (weight', Z')
             /\ is_matrix f c weight' /\ is_matrix n c Z').
  { destruct constrained.
    - assert (Heps : 0 < 1e-7) by lra.
      destruct (@update_dict_outcome C f c n true 1e-7 rng Heps Hn Hf Hc
                  weight x Z w1 Hw Hx HZ1)
        as (D' & code' & w' & E & HD' & Hcode' & _).
      exists D', code'. rewrite E.
      split; [reflexivity|]. split; assumption.
    - destruct Hupdate as [Hfalse | (Hl & Hchol & Hsolve)]; [discriminate|].
      destruct (@update_dict_ridge_returns C x Z lambd n c f w1 Hchol Hsolve
                  Hn Hc Hl Hx HZ1) as (weight' & E & Hw').
      exists weight', Z. rewrite result_bind, E.
      split; [reflexivity|]. split; assumption. }
  destruct Hup as (weight' & Z' & -> & Hw' & HZ').
  rewrite result_bind. cbn [emit result_of fst ret].
  do 3 eexists. split; [reflexivity|]. split; [assumption|].
  destruct persist; [|assumption].
  intros z [= <-]. assumption.
Qed.

Lemma learning_loop_returns (steps : nat) :
  forall (a : nat) (weight : Mat) (Z_0 : option Mat) (losses : list R)
         (w : World),
    is_matrix f c weight ->
    (forall z, Z_0 = Some z -> is_matrix n c z) ->
    exists st,
      result_of (for_each (seq a steps)
                          (learning_step x alpha constrained persist lambd rng
                                         algorithm init kwargs)
                          (weight, Z_0, losses) w)
      = Ok st.
Proof.
  induction steps as [|steps IH]; intros a weight Z_0 losses w Hw HZ.
  - eexists. reflexivity.
  - cbn [seq for_each]. rewrite result_bind.
    destruct (learning_step_returns a losses w Hw HZ)
      as (weight' & Z_0' & losses' & -> & Hw' & HZ').
    now apply IH.
Qed.

End Valid.

(** ** [dict_learning] *)

(** The dictionary the loop starts from, and the loop. *)
Lemma dict_learning_split x n_components alpha constrained persist lambd steps
      rng algorithm init kwargs w :
  exists v g w0,
    length v = (ncols x * n_components)%nat
    /\ dict_learning x n_components alpha constrained persist lambd steps rng
                     algorithm init kwargs w
       = bind (for_each (seq 0 steps)
                        (learning_step x alpha constrained persist lambd rng
                                       algorithm init kwargs)
                        (let weight :=
                           fst (orthogonal_ (chunks (ncols x) n_components v) g) in
                         if constrained then normalize_dim0 weight else weight,
                         None, repeat 0 steps))
              (fun st => match st with (weight, _, losses) => ret (weight, losses) end)
              w0.
Proof.
  unfold dict_learning, randn.
  destruct (with_gen_run rng (draw (ncols x * n_components)) w) as (w1 & E1).
  rewrite bind_assoc. erewrite bind_ok_silent by exact E1; rewrite bind_ret_l.
  destruct (with_gen_run RngNone
              (orthogonal_ (chunks (ncols x) n_components
                                   (fst (draw (ncols x * n_components) (gen_of rng w)))))
              w1) as (w2 & E2).
  erewrite bind_ok_silent by exact E2.
  eexists _, _, w2. split; [|reflexivity].
  cbn. now rewrite length_map, length_seq.
Qed.

(** C7.  [dict_learning] runs the loop body once for every [i] below
    [steps]: a run that returns has called a solver [steps] times, has
    reported [steps] losses, and the loss trace it returns consists of
    exactly those losses in order; the only way to make fewer turns is an
    exception.  On a valid input the run does return, in each of the four
    configurations of [constrained] and [persist]. *)
Theorem dict_learning_fixed_budget
        (x : Mat) (n_components : nat) (alpha : R)
        (constrained persist : bool) (lambd : R) (steps : nat) (rng : RngArg)
        (algorithm : string) (init : option string) (kwargs : Kwargs)
        (w : World) :
  let o := dict_learning x n_components alpha constrained persist lambd steps
                         rng algorithm init kwargs w in
  match result_of o with
  | Ok (weight, losses) =>
      length losses = steps
      /\ filter is_progress (events_of o) = map Progress losses
      /\ count_solve (events_of o) = steps
  | Raise _ => (count_progress (events_of o) < steps)%nat
  end
  /\ (valid_input x n_components constrained lambd algorithm init ->
      exists weight losses, result_of o = Ok (weight, losses)).
Proof.
  cbn zeta.
  destruct (dict_learning_split x n_components alpha constrained persist lambd
              steps rng algorithm init kwargs w) as (v & g & w0 & Hv & ->).
  set (weight0 := let weight := fst (orthogonal_ (chunks (ncols x) n_components v) g) in
                  if constrained then normalize_dim0 weight else weight).
  rewrite events_bind, result_bind.
  split.
  - pose proof (learning_loop_trace x alpha constrained persist lambd rng
                  algorithm init kwargs steps 0 weight0 None (repeat 0 steps) w0)
      as H.
    rewrite repeat_length in H. specialize (H (Nat.le_refl _)). cbn zeta in H.
    destruct (result_of (for_each (seq 0 steps) _ _ w0))
      as [[[weight1 Z1] losses1]|e].
    + destruct H as (ls & Hls & El & Ep & Es).
      cbn [Nat.add firstn app] in El.
      rewrite skipn_all2, app_nil_r in El by (rewrite repeat_length; lia).
      subst losses1. cbn. rewrite !app_nil_r. now repeat split.
    + now rewrite app_nil_r.
  - intros (Halg & n & f & Hn & Hf & Hc & Hx & Hinit & Hsolver & Horth & Hupdate).
    assert (Hw0 : is_matrix f n_components weight0).
    { subst weight0. cbn zeta.
      rewrite (is_matrix_ncols Hx Hn) in *.
      assert (H1 : is_matrix f n_components
                     (fst (orthogonal_ (chunks f n_components v) g)))
        by (apply Horth; now apply is_matrix_chunks).
      destruct constrained; [now apply is_matrix_normalize_dim0 | exact H1]. }
    destruct (@learning_loop_returns n f n_components x alpha algorithm init rng
                kwargs Hn Hf Hc Hx Halg Hinit Hsolver constrained persist lambd
                Hupdate steps 0%nat weight0 None (repeat 0 steps) w0 Hw0)
      as ([[weight1 Z1] losses1] & ->); [discriminate|].
    cbn. eauto.
Qed.

(** In the default configuration the sizes do not matter: the run
    returns as soon as the initialiser does. *)
Lemma dict_learning_default_returns
      (x : Mat) (n_components : nat) (alpha lambd : R) (steps : nat)
      (rng : RngArg) (algorithm : string) (init : option string)
      (kwargs : Kwargs) (w : World) :
  (algorithm = "cd" \/ algorithm = "ista")%string ->
  (forall x' weight' alpha' g,
      exists z g', initialize_code x' weight' alpha'
                                   (resolved_init algorithm init) g
                   = (Ok z, g')) ->
  exists weight losses,
    result_of (dict_learning x n_components alpha true false lambd steps rng
                             algorithm init kwargs w)
    = Ok (weight, losses).
Proof.
  intros Halg Hinit.
  destruct (dict_learning_split x n_components alpha true false lambd
              steps rng algorithm init kwargs w) as (v & g & w0 & _ & ->).
  rewrite result_bind. cbv beta iota zeta.
  destruct (@learning_loop_completes x alpha lambd rng algorithm init kwargs
              steps Halg Hinit 0%nat
              (normalize_dim0 (fst (orthogonal_ (chunks (ncols x) n_components v) g)))
              (repeat 0 steps) w0)
    as (weight1 & losses1 & ->).
  cbn. eauto.
Qed.

End WithCollaborators.

(** ** The contracts of the small instance *)

Lemma toy_solver_contract : solver_contract (C := Toy.toy).
Proof. intros n f c x weight z alpha kwargs g _ _ Hz. now split. Qed.

Lemma toy_initialize_contract : initialize_contract (C := Toy.toy) "zero".
Proof.
  intros n f c x weight alpha g Hf Hx Hw.
  exists (Toy.zeros (nrows x) (ncols weight)), g. split; [reflexivity|].
  unfold nrows. rewrite (is_matrix_ncols Hw Hf). destruct Hx as [-> _].
  unfold Toy.zeros. split; [apply repeat_length|].
  apply Forall_forall. intros row Hrow.
  apply repeat_spec in Hrow. subst row. apply repeat_length.
Qed.

Lemma toy_orthogonal_contract : orthogonal_contract (C := Toy.toy).
Proof. intros f c weight g H. exact H. Qed.

Lemma dict_learning_fixed_budget_witness :
  exists weight losses,
    result_of (dict_learning (C := Toy.toy) [[1]; [2]] 1 1 false true
                             0.01 3 RngGiven "ista" None tt Toy.world0)
    = Ok (weight, losses).
Proof.
  apply (@dict_learning_fixed_budget Toy.toy [[1]; [2]] 1 1 false true
           0.01 3 RngGiven "ista" None tt Toy.world0).
  split; [now right|].
  exists 2%nat, 1%nat.
  split; [lia|]. split; [lia|]. split; [lia|].
  split; [split; [reflexivity | repeat constructor]|].
  split; [exact toy_initialize_contract|].
  split; [exact toy_solver_contract|].
  split; [exact toy_orthogonal_contract|].
  right. split; [lra|].
  split; [exact toy_cholesky_contract | exact toy_cholesky_solve_contract].
Defined.

End LearningFacts.

(* ================================================================== *)
(** * The stain-separation normalizer *)
(* ================================================================== *)

Module SeparationFacts.
Import Tensor Effects Collab Separation TensorFacts MatrixFacts EffectFacts Spec.
Local Open Scope R_scope.

(** ** Storage *)

Lemma nth_fresh (h : list T3) (t : T3) : nth (length h) (h ++ [t]) [] = t.
Proof. rewrite app_nth2, Nat.sub_diag by lia. reflexivity. Qed.

Lemma set_cell_fresh (h : list T3) (t t' : T3) :
  set_cell (length h) t' (h ++ [t]) = h ++ [t'].
Proof. induction h as [|c h IH]; cbn; [reflexivity | now rewrite IH]. Qed.

(** ** Shapes *)

Lemma hd_chunks_length {A : Type} (r c : nat) (l : list A) :
  length l = (S r * c)%nat -> length (hd [] (chunks (S r) c l)) = c.
Proof.
  intros H. cbn [chunks hd]. rewrite length_firstn. cbn in H. lia.
Qed.

Lemma hd_chunks {A : Type} (r c : nat) (l : list A) :
  hd [] (chunks (S r) c l) = firstn c l.
Proof. reflexivity. Qed.

Lemma shape4_unflatten4_gen (b c h w : nat) (flat : Vec) :
  (b = 0 -> c = 0)%nat -> (c = 0 -> h = 0)%nat -> (h = 0 -> w = 0)%nat ->
  length flat = (b * (c * (h * w)))%nat ->
  shape4 (unflatten4 (b, c, h, w) flat) = (b, c, h, w).
Proof.
  intros Hc Hh Hw Hlen.
  unfold shape4, unflatten4. rewrite length_map, length_chunks.
  destruct b as [|b].
  { rewrite (Hc eq_refl), (Hh (Hc eq_refl)), (Hw (Hh (Hc eq_refl))). reflexivity. }
  cbn [chunks map hd]. rewrite length_map, length_chunks.
  destruct c as [|c].
  { rewrite (Hh eq_refl), (Hw (Hh eq_refl)). reflexivity. }
  cbn [chunks map hd]. rewrite length_chunks.
  destruct h as [|h].
  { rewrite (Hw eq_refl). reflexivity. }
  cbn [chunks hd]. rewrite !length_firstn.
  repeat f_equal. cbn in Hlen. nia.
Qed.

Lemma shape4_unflatten4 (image : T4) (flat : Vec) :
  length flat = numel4 (shape4 image) ->
  shape4 (unflatten4 (shape4 image) flat) = shape4 image.
Proof.
  unfold shape4 at 1 3. intros Hlen.
  apply shape4_unflatten4_gen; [| | |exact Hlen].
  - destruct image; [reflexivity | discriminate].
  - destruct (hd [] image); [reflexivity | discriminate].
  - destruct (hd [] (hd [] image)); [reflexivity | discriminate].
Qed.

Lemma hd_map_map {A B : Type} (f : A -> B) (l : list (list A)) :
  hd [] (map (map f) l) = map f (hd [] l).
Proof. now destruct l. Qed.

Lemma shape4_map4 (f : R -> R) (t : T4) : shape4 (map4 f t) = shape4 t.
Proof.
  unfold shape4, map4.
  rewrite !hd_map_map, !length_map. reflexivity.
Qed.

Lemma entries4_map4 (f : R -> R) (t : T4) :
  entries4 (map4 f t) = map f (entries4 t).
Proof.
  unfold entries4, map4. now rewrite !concat_map.
Qed.

Lemma clamped_entries (t : T4) :
  Forall (fun v => 0 <= v <= 1) (entries4 (map4 clamp01 t)).
Proof.
  rewrite entries4_map4. apply Forall_forall. intros v Hv.
  apply in_map_iff in Hv. destruct Hv as (u & <- & _).
  apply clamp01_range.
Qed.

(** ** Sizes under broadcasting *)

Lemma izip_map_or_zip {A B : Type} (f : A -> B -> A) (u : list A) (v : list B) :
  length u = length v ->
  izip f u v = zipWith f u v.
Proof.
  intros H. unfold izip.
  destruct v as [|b [|b' v]]; try reflexivity.
  destruct u as [|a [|a' u]]; try discriminate. reflexivity.
Qed.

Lemma bzip_same_length {A B D : Type} (f : A -> B -> D) (u : list A) (v : list B) :
  length u = length v ->
  bzip f u v = zipWith f u v.
Proof.
  intros H. unfold bzip.
  destruct u as [|a [|a' u]], v as [|b [|b' v]]; try discriminate; reflexivity.
Qed.

Lemma bzip_single_l {A B D : Type} (f : A -> B -> D) (a : A) (v : list B) :
  bzip f [a] v = map (f a) v.
Proof. reflexivity. Qed.

Lemma bzip_single_r {A B D : Type} (f : A -> B -> D) (u : list A) (b : B) :
  bzip f u [b] = map (fun a => f a b) u.
Proof.
  unfold bzip. destruct u as [|a [|a' u]]; reflexivity.
Qed.

Lemma Forall_zipWith {A B D : Type} (f : A -> B -> D) (P : A -> Prop)
      (Q : B -> Prop) (S : D -> Prop) (u : list A) (v : list B) :
  (forall a b, P a -> Q b -> S (f a b)) ->
  Forall P u -> Forall Q v -> Forall S (zipWith f u v).
Proof.
  intros H Hu. revert v. induction Hu as [|a u Ha _ IH]; intros v Hv.
  - constructor.
  - destruct Hv as [|b v Hb Hv]; [constructor|].
    cbn. constructor; [now apply H | now apply IH].
Qed.

(** The factor has one entry for each image and stain. *)
Lemma is_matrix_bdiv (b s : nat) (mT maxC : Mat) :
  is_matrix 1 s mT -> is_matrix b s maxC -> is_matrix b s (bdiv mT maxC).
Proof.
  intros [LT FT] [LC FC].
  destruct mT as [|rowT [|r' mT]]; try discriminate.
  inversion FT as [|? ? HrowT _]. subst.
  unfold bdiv. rewrite bzip_single_l.
  split; [now rewrite length_map|].
  apply Forall_map. revert FC. apply Forall_impl. intros row Hrow.
  rewrite bzip_same_length by congruence.
  rewrite length_zipWith. lia.
Qed.

Lemma is_tensor3_unsqueeze_last (b s : nat) (m : Mat) :
  is_matrix b s m -> is_tensor3 b s 1 (unsqueeze_last m).
Proof.
  intros [L F]. unfold unsqueeze_last. split; [now rewrite length_map|].
  apply Forall_map. revert F. apply Forall_impl. intros row Hrow.
  split; [now rewrite length_map|].
  apply Forall_map, Forall_forall. reflexivity.
Qed.

(** The in-place product keeps the size of the concentrations. *)
Lemma is_tensor3_imul3 (b s p : nat) (t c : T3) :
  is_tensor3 b s p t -> is_tensor3 b s 1 c -> is_tensor3 b s p (imul3 t c).
Proof.
  intros [Lt Ft] [Lc Fc]. unfold imul3.
  rewrite izip_map_or_zip by congruence.
  split; [rewrite length_zipWith; lia|].
  apply Forall_zipWith with (P := is_matrix s p) (Q := is_matrix s 1); try assumption.
  intros m m1 [Lm Fm] [Lm1 Fm1].
  rewrite izip_map_or_zip by congruence.
  split; [rewrite length_zipWith; lia|].
  apply Forall_zipWith with (P := fun r => length r = p)
                            (Q := fun r => length r = 1%nat); try assumption.
  intros r r1 Hr Hr1.
  destruct r1 as [|x [|x' r1]]; try discriminate.
  unfold izip. now rewrite length_map.
Qed.

Lemma is_tensor3_map_transpose (b r c : nat) (t : T3) :
  (0 < r)%nat -> is_tensor3 b r c t -> is_tensor3 b c r (map transpose t).
Proof.
  intros Hr [L F]. split; [now rewrite length_map|].
  apply Forall_map. revert F. apply Forall_impl. intros m Hm.
  now apply is_matrix_transpose.
Qed.

Lemma is_tensor3_bmatmul (b p s c : nat) (t sT : T3) :
  (0 < s)%nat -> is_tensor3 b p s t -> is_tensor3 1 s c sT ->
  is_tensor3 b p c (bmatmul t sT).
Proof.
  intros Hs [Lt Ft] [LT FT].
  destruct sT as [|S [|S' sT]]; try discriminate.
  inversion FT as [|? ? HS _]. subst.
  unfold bmatmul. rewrite bzip_single_r.
  split; [now rewrite length_map|].
  apply Forall_map. revert Ft. apply Forall_impl. intros m Hm.
  now apply is_matrix_matmul with (k := s).
Qed.

Lemma is_tensor3_map3 (g : R -> R) (b r c : nat) (t : T3) :
  is_tensor3 b r c t -> is_tensor3 b r c (map3 g t).
Proof.
  intros [L F]. unfold map3. split; [now rewrite length_map|].
  apply Forall_map. revert F. apply Forall_impl. intros m [Lm Fm].
  split; [now rewrite length_map|].
  apply Forall_map. revert Fm. apply Forall_impl. intros row Hrow.
  now rewrite length_map.
Qed.

Lemma length_concat_uniform {A : Type} (n c : nat) (l : list (list A)) :
  length l = n -> Forall (fun r => length r = c) l ->
  length (concat l) = (n * c)%nat.
Proof.
  intros <- F. induction F as [|r l Hr _ IH]; [reflexivity|].
  cbn [concat length]. rewrite length_app, IH, Hr. lia.
Qed.

Lemma length_entries3 (b r c : nat) (t : T3) :
  is_tensor3 b r c t -> length (entries3 t) = (b * (r * c))%nat.
Proof.
  intros [L F]. unfold entries3.
  rewrite (length_concat_uniform (n := b * r) (c := c)); [lia | |].
  - apply length_concat_uniform; [assumption|].
    revert F. apply Forall_impl. intros m Hm. apply Hm.
  - apply Forall_concat. revert F. apply Forall_impl. intros m Hm. apply Hm.
Qed.

(** Two batches of one size with the same entries are equal. *)
Lemma tensor3_ext (b r c : nat) (t t' : T3) :
  is_tensor3 b r c t -> is_tensor3 b r c t' ->
  (forall i j q, (i < b)%nat -> (j < r)%nat -> (q < c)%nat ->
                 nth q (nth j (nth i t []) []) 0
                 = nth q (nth j (nth i t' []) []) 0) ->
  t = t'.
Proof.
  intros [L F] [L' F'] H.
  apply (nth_ext t t' [] []); [congruence|].
  intros i Hi. rewrite L in Hi.
  rewrite Forall_forall in F, F'.
  apply matrix_ext with (r := r) (c := c).
  - apply F, nth_In. lia.
  - apply F', nth_In. lia.
  - intros j q Hj Hq. now apply H.
Qed.

Section WithCollaborators.
Context {C : Collaborators}.

Lemma transform_split self image args w :
  transform self image args w
  = bind (source_concentrations self image args)
         (after_concentrations self image) w.
Proof.
  unfold source_concentrations. rewrite bind_assoc.
  unfold transform, get_concentrations.
  apply bind_ext; intros s w1. now rewrite bind_assoc.
Qed.

Lemma after_concentrations_result self image conc w mT sT :
  maxC_target self = Some mT ->
  stain_matrix_target self = Some sT ->
  result_of (after_concentrations self image conc w)
  = reconstruct mT sT (shape4 image) conc.
Proof.
  intros HmT HsT.
  unfold after_concentrations. rewrite HmT, HsT.
  unfold reconstruct, reshape_clamp, beer_lambert, rescaled, rescale_factor.
  cbv [bind alloc load imul save getattr ret reshape raise
       _transpose_trailing result_of view_of storage swapped heap negb
       fst snd given_gen default_gen].
  rewrite !nth_fresh, set_cell_fresh, nth_fresh.
  now destruct (_ =? _).
Qed.

(** ** The reconstruction, entry by entry *)

(** Entry by entry: the concentration of stain [j] at pixel [q] of image
    [i] is multiplied by the target scale of stain [j] over the source
    scale of stain [j] in image [i]. *)
Lemma rescaled_entry (b s p : nat) (mT : Mat) (conc : T3) (i j q : nat) :
  is_tensor3 b s p conc ->
  is_matrix b s (percentile (map transpose conc) 99 1) ->
  is_matrix 1 s mT ->
  (i < b)%nat -> (j < s)%nat -> (q < p)%nat ->
  nth q (nth j (nth i (rescaled mT conc) []) []) 0
  = nth q (nth j (nth i conc []) []) 0
    * (entry 0 j mT / entry i j (percentile (map transpose conc) 99 1)).
Proof.
  intros [Lc Fc] HmaxC HmT Hi Hj Hq.
  unfold rescaled, rescale_factor.
  set (maxC := percentile (map transpose conc) 99 1) in *.
  pose proof (is_matrix_bdiv HmT HmaxC) as HF.
  pose proof (is_tensor3_unsqueeze_last HF) as [LU FU].
  assert (Hci : is_matrix s p (nth i conc [])).
  { rewrite Forall_forall in Fc. apply Fc, nth_In. lia. }
  assert (Hrow : length (nth j (nth i conc []) []) = p)
    by exact (is_matrix_row Hci Hj).
  unfold imul3.
  rewrite izip_map_or_zip by congruence.
  rewrite (nth_zipWith _ conc _ [] [] []) by lia.
  unfold unsqueeze_last at 1.
  rewrite (nth_map_in _ (bdiv mT maxC) [] []) by (destruct HF; lia).
  rewrite izip_map_or_zip
    by (rewrite length_map, (is_matrix_row HF Hi); apply Hci).
  rewrite (nth_zipWith _ (nth i conc []) _ [] [] [])
    by (rewrite ?length_map, ?(is_matrix_row HF Hi); destruct Hci; lia).
  rewrite (nth_map_in _ (nth i (bdiv mT maxC) []) 0 [])
    by (rewrite (is_matrix_row HF Hi); lia).
  unfold izip.
  rewrite (nth_map_in _ _ 0 0) by lia.
  f_equal.
  (* the factor *)
  destruct HmT as [LT FT].
  destruct mT as [|rowT [|r' mT]]; try discriminate.
  inversion FT as [|? ? HrowT _]. subst.
  unfold bdiv. rewrite bzip_single_l.
  rewrite (nth_map_in _ maxC [] []) by (destruct HmaxC; lia).
  rewrite bzip_same_length by (rewrite (is_matrix_row HmaxC Hi); reflexivity).
  rewrite (nth_zipWith _ rowT _ 0 0 0)
    by (rewrite ?(is_matrix_row HmaxC Hi); lia).
  reflexivity.
Qed.

(** Concentrations of one image rescaled by their own scale are
    unchanged, where that scale is not zero. *)
Lemma rescaled_by_own_scale (s p : nat) (conc : T3) :
  is_tensor3 1 s p conc ->
  is_matrix 1 s (percentile (map transpose conc) 99 1) ->
  (forall j, (j < s)%nat ->
             entry 0 j (percentile (map transpose conc) 99 1) <> 0) ->
  rescaled (percentile (map transpose conc) 99 1) conc = conc.
Proof.
  intros Hc HmaxC Hnz.
  apply tensor3_ext with (b := 1%nat) (r := s) (c := p); [|assumption|].
  - unfold rescaled, rescale_factor.
    apply is_tensor3_imul3; [assumption|].
    apply is_tensor3_unsqueeze_last. now apply is_matrix_bdiv.
  - intros i j q Hi Hj Hq.
    rewrite (rescaled_entry Hc HmaxC HmaxC Hi Hj Hq).
    assert (i = 0%nat) by lia. subst i.
    field. now apply Hnz.
Qed.

(** Entry by entry: the reconstruction at channel [k] and pixel [q] of image
    [i] is [exp] of minus the sum over the stains of concentration times
    stain colour. *)
Lemma beer_lambert_entry (b s p ch : nat) (conc : T3) (S : Mat) (i k q : nat) :
  (0 < s)%nat -> (0 < p)%nat ->
  is_tensor3 b s p conc -> is_matrix s ch S ->
  (i < b)%nat -> (k < ch)%nat -> (q < p)%nat ->
  entry k q (nth i (beer_lambert conc [S]) [])
  = exp (-1 * dot (col q (nth i conc [])) (col k S)).
Proof.
  intros Hs Hp [Lc Fc] HS Hi Hk Hq.
  assert (Hci : is_matrix s p (nth i conc [])).
  { rewrite Forall_forall in Fc. apply Fc, nth_In. lia. }
  unfold beer_lambert, bmatmul, map3. rewrite bzip_single_r.
  rewrite !map_map.
  rewrite (nth_map_in _ conc [] []) by lia.
  pose proof (is_matrix_transpose Hci Hs) as Ht.
  pose proof (is_matrix_matmul Ht HS Hs) as Hm.
  pose proof (is_matrix_map_map (fun v => exp (-1 * v)) Hm) as Hg.
  rewrite (@entry_transpose p ch _ k q Hg Hp Hk).
  rewrite (@entry_map_map _ p ch _ q k Hm Hq Hk).
  rewrite (@entry_matmul p s ch _ _ q k Ht HS Hs Hq Hk).
  now rewrite (@row_transpose s p _ q Hci Hs Hq).
Qed.

(** C1.  For a fitted normalizer, what [transform] returns is the
    reconstruction from the rescaled source concentrations: the
    concentrations are multiplied, stain channel by stain channel, by the
    target scale over the source scale, and [exp(-c * stain_matrix_target)]
    is taken of the product; the in-place multiplication reaches the
    transposed tensor because both are on one storage. *)
Theorem transform_reconstructs_from_rescaled_concentrations
        (self : StainSeperation) (image : T4) (args : ExtractorArgs)
        (w : World) (mT : Mat) (sT : T3) :
  maxC_target self = Some mT ->
  stain_matrix_target self = Some sT ->
  result_of (transform self image args w)
  = match result_of (source_concentrations self image args w) with
    | Ok conc =>
        reshape_clamp
          (beer_lambert
             (imul3 conc
                    (unsqueeze_last
                       (bdiv mT (percentile (map transpose conc) 99 1))))
             sT)
          (shape4 image)
    | Raise e => Raise e
    end.
Proof.
  intros HmT HsT.
  rewrite transform_split, result_bind.
  destruct (result_of (source_concentrations self image args w)) as [conc|e];
    [|reflexivity].
  now rewrite (after_concentrations_result _ _ _ _ HmT HsT).
Qed.

(** The reconstruction of concentrations of size [b x s x p] in [ch]
    colour channels has [b * ch * p] entries. *)
Lemma length_reconstruction (b s p ch : nat) (mT : Mat) (sT conc : T3) :
  (0 < s)%nat -> (0 < p)%nat ->
  is_tensor3 b s p conc ->
  is_matrix b s (percentile (map transpose conc) 99 1) ->
  is_matrix 1 s mT -> is_tensor3 1 s ch sT ->
  length (entries3 (beer_lambert (rescaled mT conc) sT)) = (b * (ch * p))%nat.
Proof.
  intros Hs Hp Hconc HmaxC HmT HsT.
  apply length_entries3.
  unfold beer_lambert, rescaled, rescale_factor.
  apply is_tensor3_map_transpose; [assumption|].
  apply is_tensor3_map3.
  apply is_tensor3_bmatmul with (s := s); try assumption.
  apply is_tensor3_map_transpose; [assumption|].
  apply is_tensor3_imul3; [assumption|].
  apply is_tensor3_unsqueeze_last.
  now apply is_matrix_bdiv.
Qed.

End WithCollaborators.

Lemma transform_reconstructs_from_rescaled_concentrations_witness :
  result_of (transform (C := Toy.toy) Toy.fitted0 Toy.image0 tt Toy.world1)
  = match result_of (source_concentrations (C := Toy.toy) Toy.fitted0
                                           Toy.image0 tt Toy.world1) with
    | Ok conc =>
        reshape_clamp
          (beer_lambert
             (imul3 conc
                    (unsqueeze_last
                       (bdiv [[1]] (@percentile Toy.toy (map transpose conc) 99 1))))
             [[[1]]])
          (shape4 Toy.image0)
    | Raise e => Raise e
    end.
Proof.
  apply (@transform_reconstructs_from_rescaled_concentrations Toy.toy
           Toy.fitted0 Toy.image0 tt Toy.world1 [[1]] [[[1]]]);
    reflexivity.
Defined.

End SeparationFacts.

(* ================================================================== *)
(** * The clamp and the values that are not numbers *)
(* ================================================================== *)

Module IeeeFacts.
Import Tensor Effects Collab Separation Ieee Spec TensorFacts MatrixFacts
       EffectFacts SeparationFacts.
Local Open Scope R_scope.

(** ** Zero over zero, and zero times an infinity *)

Lemma fp_mul_zero_div_zero (m : R) :
  fp_mul (Finite 0) (fp_div (Finite m) (Finite 0)) = NaN.
Proof.
  unfold fp_div. destruct (Req_dec_T 0 0) as [_|H]; [|now contradiction H].
  destruct (Req_dec_T m 0); [reflexivity|].
  unfold fp_mul. destruct (Req_dec_T 0 0) as [_|H];
    [reflexivity | now contradiction H].
Qed.

(** ** Finite values: the arithmetic of the reals *)

Lemma fp_div_finite (x y : R) :
  y <> 0 -> fp_div (Finite x) (Finite y) = Finite (x / y).
Proof.
  intros Hy. unfold fp_div. now destruct (Req_dec_T y 0).
Qed.

Lemma zipWith_map {A B D A' B' D' : Type} (f : A -> B -> D)
      (f' : A' -> B' -> D') (g : A -> A') (h : B -> B') (k : D -> D')
      (u : list A) (v : list B) :
  (forall a b, In a u -> In b v -> f' (g a) (h b) = k (f a b)) ->
  zipWith f' (map g u) (map h v) = map k (zipWith f u v).
Proof.
  revert v. induction u as [|a u IH]; intros [|b v] H; try reflexivity.
  unfold zipWith in *. cbn [map combine fst snd].
  rewrite H by (now left). f_equal.
  apply IH. intros a' b' Ha Hb. apply H; now right.
Qed.

Lemma bzip_map {A B D A' B' D' : Type} (f : A -> B -> D)
      (f' : A' -> B' -> D') (g : A -> A') (h : B -> B') (k : D -> D')
      (u : list A) (v : list B) :
  (forall a b, In a u -> In b v -> f' (g a) (h b) = k (f a b)) ->
  bzip f' (map g u) (map h v) = map k (bzip f u v).
Proof.
  intros H.
  assert (Hz : zipWith f' (map g u) (map h v) = map k (zipWith f u v))
    by now apply zipWith_map.
  assert (Hl : forall a, In a u ->
                 map (f' (g a)) (map h v) = map k (map (f a) v)).
  { intros a Ha. rewrite !map_map. apply map_ext_in.
    intros b Hb. now apply H. }
  assert (Hr : forall b, In b v ->
                 map (fun a => f' a (h b)) (map g u)
                 = map k (map (fun a => f a b) u)).
  { intros b Hb. rewrite !map_map. apply map_ext_in.
    intros a Ha. now apply H. }
  destruct u as [|a [|a' u]]; destruct v as [|b [|b' v]];
    try reflexivity; try exact Hz;
    try (apply Hl; now left); try (apply Hr; now left).
Qed.

Lemma izip_map {A B A' B' : Type} (f : A -> B -> A) (f' : A' -> B' -> A')
      (g : A -> A') (h : B -> B') (u : list A) (v : list B) :
  (forall a b, In a u -> In b v -> f' (g a) (h b) = g (f a b)) ->
  izip f' (map g u) (map h v) = map g (izip f u v).
Proof.
  intros H.
  assert (Hz : zipWith f' (map g u) (map h v) = map g (zipWith f u v))
    by now apply zipWith_map.
  destruct v as [|b [|b' v]]; try exact Hz.
  cbn [izip map]. rewrite !map_map. apply map_ext_in.
  intros a Ha. apply H; [assumption | now left].
Qed.

Lemma fp_col_finite (j : nat) (m : Mat) :
  fp_col j (finite2 m) = map Finite (col j m).
Proof.
  unfold fp_col, finite2, col. rewrite !map_map. apply map_ext.
  intros r. apply (map_nth Finite).
Qed.

Lemma hd_finite2 (m : Mat) : length (hd [] (finite2 m)) = ncols m.
Proof. destruct m as [|r m]; [reflexivity|]. cbn. apply length_map. Qed.

Lemma fp_transpose_finite (m : Mat) :
  fp_transpose (finite2 m) = finite2 (transpose m).
Proof.
  unfold fp_transpose, transpose. rewrite hd_finite2.
  unfold finite2 at 2. rewrite map_map. apply map_ext.
  intros j. apply fp_col_finite.
Qed.

Lemma fp_dot_finite (u v : list R) :
  fp_dot (map Finite u) (map Finite v) = Finite (dot u v).
Proof.
  unfold fp_dot, dot.
  rewrite (zipWith_map Rmult fp_mul Finite Finite Finite) by reflexivity.
  generalize (zipWith Rmult u v). intros l.
  induction l as [|a l IH]; [reflexivity|].
  cbn [map fold_right]. rewrite IH. reflexivity.
Qed.

Lemma fp_matmul_finite (a b : Mat) :
  fp_matmul (finite2 a) (finite2 b) = finite2 (matmul a b).
Proof.
  unfold fp_matmul, matmul. rewrite hd_finite2.
  set (fb := finite2 b). unfold finite2. rewrite !map_map. apply map_ext.
  intros r. rewrite map_map. apply map_ext. intros j.
  subst fb. rewrite fp_col_finite. apply fp_dot_finite.
Qed.

Lemma chunks_map {A B : Type} (g : A -> B) (r c : nat) (l : list A) :
  chunks r c (map g l) = map (map g) (chunks r c l).
Proof.
  revert l. induction r as [|r IH]; intros l; [reflexivity|].
  cbn [chunks map]. now rewrite firstn_map, skipn_map, IH.
Qed.

Lemma fp_unflatten4_finite (shp : nat * nat * nat * nat) (l : list R) :
  fp_unflatten4 shp (map Finite l) = finite4 (unflatten4 shp l).
Proof.
  destruct shp as [[[b c] h] w]. unfold fp_unflatten4, unflatten4, finite4.
  rewrite chunks_map, !map_map. apply map_ext. intros img.
  unfold finite3. rewrite chunks_map, !map_map. apply map_ext. intros ch.
  apply chunks_map.
Qed.

Lemma concat_finite3 (t : T3) :
  concat (concat (finite3 t)) = map Finite (entries3 t).
Proof.
  unfold finite3, finite2, entries3.
  now rewrite <- !concat_map.
Qed.

Section WithCollaborators.
Context {C : Collaborators}.

(** Where no scale of the source is zero, every value stays finite and the
    special values play no part: the outcome is the one computed over the
    reals. *)
Lemma after_concentrations_ieee_finite self image conc mT sT :
  maxC_target self = Some mT ->
  stain_matrix_target self = Some sT ->
  Forall (Forall (fun v => v <> 0)) (percentile (map transpose conc) 99 1) ->
  after_concentrations_ieee self image conc
  = match reconstruct mT sT (shape4 image) conc with
    | Ok out => Ok (finite4 out)
    | Raise e => Raise e
    end.
Proof.
  intros HmT HsT Hnz. unfold after_concentrations_ieee. rewrite HmT, HsT.
  set (maxC := percentile (map transpose conc) 99 1) in *.
  assert (E1 : bzip (bzip fp_div) (finite2 mT) (finite2 maxC)
               = finite2 (bdiv mT maxC)).
  { unfold finite2, bdiv. apply bzip_map. intros a b _ Hb.
    apply bzip_map. intros x y _ Hy. apply fp_div_finite.
    rewrite Forall_forall in Hnz. specialize (Hnz b Hb).
    rewrite Forall_forall in Hnz. now apply Hnz. }
  rewrite E1.
  assert (E2 : map (map (fun x => [x])) (finite2 (bdiv mT maxC))
               = finite3 (unsqueeze_last (bdiv mT maxC))).
  { unfold finite3, finite2, unsqueeze_last. rewrite !map_map.
    apply map_ext. intros r. rewrite !map_map. reflexivity. }
  rewrite E2.
  assert (E3 : izip (izip (izip fp_mul)) (finite3 conc)
                    (finite3 (unsqueeze_last (bdiv mT maxC)))
               = finite3 (rescaled mT conc)).
  { unfold rescaled, rescale_factor, imul3, finite3, finite2. fold maxC.
    apply izip_map. intros a b _ _.
    apply izip_map. intros a1 b1 _ _.
    apply izip_map. reflexivity. }
  rewrite E3.
  assert (E4 : map fp_transpose (finite3 (rescaled mT conc))
               = finite3 (map transpose (rescaled mT conc))).
  { unfold finite3. rewrite !map_map. apply map_ext.
    intros m. apply fp_transpose_finite. }
  rewrite E4.
  assert (E5 : bzip fp_matmul (finite3 (map transpose (rescaled mT conc)))
                    (finite3 sT)
               = finite3 (bmatmul (map transpose (rescaled mT conc)) sT)).
  { unfold finite3, bmatmul. apply bzip_map. intros a b _ _.
    apply fp_matmul_finite. }
  rewrite E5.
  assert (E6 : map fp_transpose
                   (map (map (map (fun v => fp_exp (fp_mul (Finite (-1)) v))))
                        (finite3 (bmatmul (map transpose (rescaled mT conc)) sT)))
               = finite3 (beer_lambert (rescaled mT conc) sT)).
  { unfold beer_lambert, map3.
    set (t := bmatmul (map transpose (rescaled mT conc)) sT).
    transitivity (map fp_transpose
                      (finite3 (map (map (map (fun v => exp (-1 * v)))) t))).
    - f_equal. unfold finite3, finite2. rewrite !map_map. apply map_ext.
      intros m. rewrite !map_map. apply map_ext. intros r.
      rewrite !map_map. reflexivity.
    - unfold finite3. rewrite !map_map. apply map_ext.
      intros m. apply fp_transpose_finite. }
  rewrite E6, concat_finite3, length_map.
  unfold reconstruct, reshape_clamp.
  destruct (_ =? _)%nat; [|reflexivity].
  rewrite fp_unflatten4_finite. f_equal.
  unfold finite4, finite3, finite2, map4. rewrite !map_map. apply map_ext.
  intros a. rewrite !map_map. apply map_ext. intros b.
  rewrite !map_map. apply map_ext. intros c0.
  rewrite !map_map. reflexivity.
Qed.

Lemma transform_ieee_split self image args w :
  transform_ieee self image args w
  = match result_of (source_concentrations self image args w) with
    | Ok conc => after_concentrations_ieee self image conc
    | Raise e => Raise e
    end.
Proof. reflexivity. Qed.

Lemma finite4_in_unit (t : T4) :
  Forall (fun v => 0 <= v <= 1) (entries4 t) ->
  Forall fp_in_unit (concat (concat (concat (finite4 t)))).
Proof.
  intros H. unfold finite4, finite3, finite2.
  rewrite <- !concat_map.
  apply Forall_map. exact H.
Qed.

(** With no scale of zero the claim holds with the special values in
    place: a tensor that [transform] returns consists of finite values in
    [[0, 1]], those computed over the reals. *)
Lemma transform_ieee_clamped_nonzero_scale self image args w mT sT conc :
  maxC_target self = Some mT ->
  stain_matrix_target self = Some sT ->
  result_of (source_concentrations self image args w) = Ok conc ->
  Forall (Forall (fun v => v <> 0)) (percentile (map transpose conc) 99 1) ->
  match transform_ieee self image args w with
  | Ok out =>
      result_of (transform self image args w)
      = reconstruct mT sT (shape4 image) conc
      /\ (exists r, reconstruct mT sT (shape4 image) conc = Ok r
                    /\ out = finite4 r)
      /\ Forall fp_in_unit (concat (concat (concat out)))
  | Raise e => result_of (transform self image args w) = Raise e
  end.
Proof.
  intros HmT HsT Hconc Hnz.
  rewrite transform_ieee_split, Hconc.
  rewrite (@after_concentrations_ieee_finite self image conc mT sT HmT HsT Hnz).
  assert (E : result_of (transform self image args w)
              = reconstruct mT sT (shape4 image) conc).
  { rewrite transform_split, result_bind, Hconc.
    apply (after_concentrations_result _ _ _ _ HmT HsT). }
  rewrite E.
  destruct (reconstruct mT sT (shape4 image) conc) as [r|e] eqn:Er;
    [|reflexivity].
  split; [reflexivity|]. split; [now exists r|].
  apply finite4_in_unit.
  unfold reconstruct, reshape_clamp in Er.
  destruct (_ =? _)%nat; [|discriminate]. injection Er as <-.
  apply clamped_entries.
Qed.

(** On the documented sizes and with no scale of zero, [transform] returns
    a tensor of finite values in [[0, 1]]. *)
Lemma transform_ieee_returns_clamped
      (self : StainSeperation) (image : T4) (args : ExtractorArgs)
      (w : World) (mT : Mat) (sT : T3) (conc : T3) (b ch h wd s : nat) :
  maxC_target self = Some mT ->
  stain_matrix_target self = Some sT ->
  result_of (source_concentrations self image args w) = Ok conc ->
  shape4 image = (b, ch, h, wd) ->
  (0 < s)%nat -> (0 < h * wd)%nat ->
  is_tensor3 b s (h * wd) conc ->
  is_matrix b s (percentile (map transpose conc) 99 1) ->
  is_matrix 1 s mT -> is_tensor3 1 s ch sT ->
  Forall (Forall (fun v => v <> 0)) (percentile (map transpose conc) 99 1) ->
  exists out,
    transform_ieee self image args w = Ok out
    /\ Forall fp_in_unit (concat (concat (concat out))).
Proof.
  intros HmT HsT Hconc Hshape Hs Hp Hc HmaxC HmT1 HsT1 Hnz.
  rewrite transform_ieee_split, Hconc.
  rewrite (@after_concentrations_ieee_finite self image conc mT sT HmT HsT Hnz).
  unfold reconstruct, reshape_clamp.
  rewrite Hshape. cbn [numel4].
  rewrite (@length_reconstruction C b s (h * wd) ch mT sT conc Hs Hp Hc HmaxC
             HmT1 HsT1).
  rewrite Nat.eqb_refl.
  eexists. split; [reflexivity|].
  apply finite4_in_unit, clamped_entries.
Qed.

(** C8.  A fitted normalizer for two stains and three colour channels and
    an image of one pixel whose estimated concentrations are zero, as
    those of a white pixel are: the 99th percentile of the source is zero
    for both stains, the factor target scale over source scale is an
    infinity (or not a number, where the target scale is zero too), the
    in-place product of the zero concentrations with it is not a number,
    and so is every entry of the reconstruction; [clamp_] keeps it.  The
    tensor returned has the shape of the image and no entry in [[0, 1]]. *)
Theorem transform_zero_scale_not_a_number
        (self : StainSeperation) (image : T4) (args : ExtractorArgs)
        (w : World) (m1 m2 r1 r2 r3 s1 s2 s3 : R) :
  maxC_target self = Some [[m1; m2]] ->
  stain_matrix_target self = Some [[[r1; r2; r3]; [s1; s2; s3]]] ->
  shape4 image = (1, 3, 1, 1)%nat ->
  result_of (source_concentrations self image args w) = Ok [[[0]; [0]]] ->
  percentile (map transpose [[[0]; [0]]]) 99 1 = [[0; 0]] ->
  transform_ieee self image args w = Ok [[[[NaN]]; [[NaN]]; [[NaN]]]]
  /\ ~ Exists fp_in_unit [NaN; NaN; NaN].
Proof.
  intros HmT HsT Hshape Hconc Hpct. split.
  - rewrite transform_ieee_split, Hconc.
    unfold after_concentrations_ieee. rewrite HmT, HsT, Hshape, Hpct.
    cbn -[fp_mul fp_div fp_exp fp_add fp_clamp01].
    rewrite !fp_mul_zero_div_zero. reflexivity.
  - intros H. repeat (inversion H as [? ? Hn|? ? H']; [exact Hn|]; clear H;
                      rename H' into H).
    inversion H.
Qed.

End WithCollaborators.

Lemma transform_zero_scale_not_a_number_witness :
  transform_ieee (C := Toy.toy)
    (mkStainSeperation "ista" (Some [[[1; 0; 0]; [0; 1; 0]]]) None
                       (Some [[1; 1]]) (Some [[[1; 0; 0]; [0; 1; 0]]]))
    [[[[0]]; [[0]]; [[0]]]] tt Toy.world0
  = Ok [[[[NaN]]; [[NaN]]; [[NaN]]]]
  /\ ~ Exists fp_in_unit [NaN; NaN; NaN].
Proof.
  apply (@transform_zero_scale_not_a_number Toy.toy
           (mkStainSeperation "ista" (Some [[[1; 0; 0]; [0; 1; 0]]]) None
                              (Some [[1; 1]]) (Some [[[1; 0; 0]; [0; 1; 0]]]))
           [[[[0]]; [[0]]; [[0]]]] tt Toy.world0 1 1 1 0 0 0 1 0).
  - reflexivity.
  - reflexivity.
  - reflexivity.
  - reflexivity.
  - cbn. unfold Rmax. destruct (Rle_dec 0 0); reflexivity.
Defined.

End IeeeFacts.

(* ================================================================== *)
(** * Sparse coding: warm starts, warnings and failures *)
(* ================================================================== *)

Module EncodeFacts.
Import Tensor Effects Collab DictLearning Spec TensorFacts EffectFacts
       LossFacts SparseEncodeFacts.
Local Open Scope string_scope.

Section WithCollaborators.
Context {C : Collaborators}.

Lemma shape2_eqb_neq (a b : nat * nat) : a <> b -> shape2_eqb a b = false.
Proof.
  destruct a as [a1 a2], b as [b1 b2]. intros H.
  unfold shape2_eqb. cbn [fst snd].
  destruct (Nat.eqb_spec a1 b1) as [->|]; [|reflexivity].
  destruct (Nat.eqb_spec a2 b2) as [->|]; [|reflexivity].
  now contradiction H.
Qed.

(** X1.  A warm start whose shape is not [(n_samples, n_components)] makes
    [sparse_encode] raise [AssertionError] at once, whatever the algorithm
    and [init]: no initialiser and no solver is called, no random number
    is consumed. *)
Theorem sparse_encode_rejects_misshaped_warm_start
        (x weight : Mat) (alpha : R) (z : Mat) (algorithm : string)
        (init : option string) (rng : RngArg) (kwargs : Kwargs) (w : World) :
  shape2 z <> (nrows x, ncols weight) ->
  sparse_encode x weight alpha (Some z) algorithm init rng kwargs w
  = (Raise AssertionError, w, []).
Proof.
  intros Hs. unfold sparse_encode, bind, assert.
  now rewrite (shape2_eqb_neq Hs).
Qed.

(** The warning is issued in one situation only. *)
Lemma code_variable_warns x weight alpha z0 algorithm init rng w msg :
  In (Warn msg)
     (events_of (code_variable x weight alpha z0 algorithm init rng w)) ->
  z0 = None /\ init = Some "zero" /\ algorithm = "iter-ridge".
Proof.
  destruct z0 as [z|].
  - now rewrite code_variable_warm_events.
  - unfold code_variable, call_initialize_code.
    destruct init as [i|].
    + destruct (String.eqb_spec i "zero") as [->|Hi];
        destruct (String.eqb_spec algorithm "iter-ridge") as [->|Ha];
        cbn [andb]; [now auto|..];
        unfold bind, emit, ret, with_gen, lift, events_of;
        destruct rng; cbn [fst snd];
        match goal with
        | |- context [initialize_code ?a ?b ?c ?d ?e] =>
            destruct (initialize_code a b c d e) as [[z1|e1] g1]
        end; cbn; intros H; repeat (destruct H as [H|H]; try discriminate H);
        contradiction.
    + unfold bind, emit, ret, with_gen, lift, events_of;
        destruct rng; cbn [fst snd];
        match goal with
        | |- context [initialize_code ?a ?b ?c ?d ?e] =>
            destruct (initialize_code a b c d e) as [[z1|e1] g1]
        end; cbn; intros H; repeat (destruct H as [H|H]; try discriminate H);
        contradiction.
Qed.

Lemma inference_never_warns x weight alpha algorithm rng kwargs z w msg :
  ~ In (Warn msg) (events_of (inference x weight alpha algorithm rng kwargs z w)).
Proof.
  intros H.
  assert (F : In (Warn msg)
                 (filter is_init_or_warn
                    (events_of (inference x weight alpha algorithm rng kwargs z w))))
    by (apply filter_In; now split).
  now rewrite inference_events in F.
Qed.

(** X2.  A call of [sparse_encode] that issues the zero-initialisation
    warning never returns a code and never reaches a solver: the warning
    is tied to the algorithm ["iter-ridge"], which the dispatch at the end
    of the function does not know. *)
Theorem sparse_encode_warning_never_returns
        (x weight : Mat) (alpha : R) (z0 : option Mat) (algorithm : string)
        (init : option string) (rng : RngArg) (kwargs : Kwargs) (w : World)
        (msg : string) :
  let o := sparse_encode x weight alpha z0 algorithm init rng kwargs w in
  In (Warn msg) (events_of o) ->
  (exists e, result_of o = Raise e) /\ count_solve (events_of o) = 0%nat.
Proof.
  cbn zeta. rewrite sparse_encode_halves, events_bind, result_bind.
  intros H. apply in_app_or in H.
  assert (Hw : z0 = None /\ init = Some "zero" /\ algorithm = "iter-ridge").
  { destruct H as [H|H]; [exact (code_variable_warns _ _ _ _ _ _ _ _ _ H)|].
    destruct (result_of (code_variable x weight alpha z0 algorithm init rng w));
      [|contradiction].
    now apply inference_never_warns in H. }
  destruct Hw as (-> & -> & ->).
  destruct (code_variable_cold x weight alpha "iter-ridge" (Some "zero") rng w)
    as (_ & _ & Es).
  unfold count_solve. rewrite filter_app, Es. cbn [app].
  destruct (result_of (code_variable x weight alpha None "iter-ridge"
                                     (Some "zero") rng w)) as [z|e].
  - rewrite inference_invalid by discriminate. cbn. eauto.
  - cbn. eauto.
Qed.

(** X3.  With one of the two algorithms, a call of [sparse_encode] that
    fails before a solver is reached fails in one of two ways: with
    [AssertionError], on a warm start of the wrong shape, or, without a
    warm start, with the very error that the initialiser raised. *)
Theorem sparse_encode_failures_before_solver
        (x weight : Mat) (alpha : R) (z0 : option Mat) (algorithm : string)
        (init : option string) (rng : RngArg) (kwargs : Kwargs) (w : World)
        (e : Exception) :
  algorithm = "cd" \/ algorithm = "ista" ->
  let o := sparse_encode x weight alpha z0 algorithm init rng kwargs w in
  result_of o = Raise e ->
  count_solve (events_of o) = 0%nat ->
  match z0 with
  | Some z => shape2 z <> (nrows x, ncols weight) /\ e = AssertionError
  | None =>
      fst (initialize_code x weight alpha (resolved_init algorithm init)
                           (gen_of rng w)) = Raise e
  end.
Proof.
  intros Halg o He _. subst o. revert He.
  rewrite sparse_encode_halves, result_bind.
  assert (Hinf : forall z w1,
             exists r, result_of (inference x weight alpha algorithm rng kwargs z w1)
                       = Ok r).
  { intros z w1. unfold inference.
    destruct Halg as [-> | ->]; cbn [String.eqb Ascii.eqb Bool.eqb].
    - eexists. reflexivity.
    - rewrite result_bind. cbn [emit result_of fst].
      rewrite with_gen_result. eexists. reflexivity. }
  destruct z0 as [z|].
  - destruct (Nat.eq_dec (fst (shape2 z)) (nrows x)) as [E1|N1];
      [destruct (Nat.eq_dec (snd (shape2 z)) (ncols weight)) as [E2|N2]|].
    + rewrite code_variable_warm
        by (destruct (shape2 z); cbn [fst snd] in *; congruence).
      cbn [result_of world_of fst snd].
      destruct (Hinf z w) as (r & ->). discriminate.
    + unfold code_variable, bind, assert.
      rewrite shape2_eqb_neq by (intros E; apply N2; now rewrite E).
      cbn. intros [= <-]. split; [|reflexivity].
      intros E; apply N2; now rewrite E.
    + unfold code_variable, bind, assert.
      rewrite shape2_eqb_neq by (intros E; apply N1; now rewrite E).
      cbn. intros [= <-]. split; [|reflexivity].
      intros E; apply N1; now rewrite E.
  - destruct (code_variable_cold x weight alpha algorithm init rng w)
      as (Er & _ & _).
    rewrite Er.
    destruct (fst (initialize_code _ _ _ _ _)) as [z|e1].
    + destruct (Hinf z (world_of (code_variable x weight alpha None algorithm
                                                init rng w))) as (r & ->).
      discriminate.
    + now intros [= <-].
Qed.

End WithCollaborators.

Lemma sparse_encode_rejects_misshaped_warm_start_witness :
  sparse_encode (C := Toy.toy) [[1%R]] [[1%R]] 1%R (Some [[0%R; 0%R]])
                "nonsense" None RngNone tt Toy.world0
  = (Raise AssertionError, Toy.world0, []).
Proof.
  apply (@sparse_encode_rejects_misshaped_warm_start Toy.toy [[1%R]] [[1%R]]
           1%R [[0%R; 0%R]] "nonsense" None RngNone tt Toy.world0).
  discriminate.
Defined.

Lemma sparse_encode_warning_never_returns_witness :
  (exists e, result_of (sparse_encode (C := Toy.toy) [[1%R]] [[1%R]] 1%R None
                          "iter-ridge" (Some "zero") RngNone tt Toy.world0)
             = Raise e)
  /\ count_solve (events_of (sparse_encode (C := Toy.toy) [[1%R]] [[1%R]] 1%R
                               None "iter-ridge" (Some "zero") RngNone tt
                               Toy.world0)) = 0%nat.
Proof.
  apply (@sparse_encode_warning_never_returns Toy.toy [[1%R]] [[1%R]] 1%R None
           "iter-ridge" (Some "zero") RngNone tt Toy.world0
           "Iterative Ridge should not be zero-initialized.").
  left. reflexivity.
Defined.

Lemma sparse_encode_failures_before_solver_witness :
  fst (Toy.toy_initialize_code [[1%R]] [[1%R]] 1%R "ridge"
                               (default_gen Toy.world0))
  = Raise (ValueError "ridge").
Proof.
  apply (@sparse_encode_failures_before_solver Toy.toy [[1%R]] [[1%R]] 1%R
           None "ista" (Some "ridge") RngNone tt Toy.world0 (ValueError "ridge")).
  - now right.
  - reflexivity.
  - reflexivity.
Defined.
End EncodeFacts.
(* ================================================================== *)
(** * Evaluation of a dictionary *)
(* ================================================================== *)

Module EvaluateFacts.
Import Tensor Effects Collab DictLearning Spec TensorFacts EffectFacts
       LossFacts SparseEncodeFacts LearningFacts.
Local Open Scope R_scope.

Lemma norm1_nonneg (v : list R) : 0 <= norm1 v.
Proof.
  unfold norm1. induction v as [|a v IH]; [simpl; lra|].
  cbn [map]. rewrite vsum_cons. pose proof (Rabs_pos a). lra.
Qed.

(** The loss is never negative, and not below the L1 penalty on the
    weight. *)
Lemma lasso_loss_nonneg (X Z W : Mat) (alpha : R) :
  0 <= 0.1 * norm1 (entries W) <= lasso_loss X Z W alpha.
Proof.
  unfold lasso_loss. rewrite mean_singleton. unfold lambda1, lambda2.
  pose proof (norm1_nonneg (entries W)) as H1.
  pose proof (pow2_ge_0 (norm2 (entries W))) as H2.
  pose proof (pow2_ge_0 (norm2 (entries (msub X (matmul Z (transpose W)))))) as H3.
  split; [lra|]. nra.
Qed.

Section WithCollaborators.
Context {C : Collaborators}.

(** X4.  [dict_evaluate] makes one call of [sparse_encode]: when it
    returns, exactly one solver call was made and the loss returned is not
    negative.  Unless a warm start is passed on, the code is initialised
    afresh on every call, in the mode that [init] and the algorithm
    resolve to. *)
Theorem dict_evaluate_one_solve_nonnegative_loss
        (x weight : Mat) (alpha : R) (rng : RngArg) (z0 : option Mat)
        (algorithm : string) (init : option string) (kwargs : Kwargs)
        (w : World) :
  let o := dict_evaluate x weight alpha rng z0 algorithm init kwargs w in
  (z0 = None -> In (InitCode (resolved_init algorithm init)) (events_of o))
  /\ forall l, result_of o = Ok l ->
               0 <= l /\ count_solve (events_of o) = 1%nat.
Proof.
  cbn zeta. unfold dict_evaluate. rewrite events_bind, result_bind.
  destruct (sparse_encode_trace x weight alpha z0 algorithm init rng kwargs w)
    as (_ & Hs).
  split.
  - intros ->. apply in_or_app. left.
    rewrite sparse_encode_halves, events_bind. apply in_or_app. left.
    apply (code_variable_cold x weight alpha algorithm init rng w).
  - destruct (result_of (sparse_encode x weight alpha z0 algorithm init rng
                                       kwargs w)) as [Z|e]; [|discriminate].
    cbn [ret result_of events_of fst snd]. rewrite app_nil_r.
    intros l [= <-]. split; [|exact Hs].
    pose proof (lasso_loss_nonneg x Z weight alpha). lra.
Qed.
End WithCollaborators.

Lemma dict_evaluate_one_solve_nonnegative_loss_witness :
  In (InitCode "zero")
     (events_of (dict_evaluate (C := Toy.toy) [[1]] [[1]] 1 RngNone None
                               "ista" None tt Toy.world0)).
Proof.
  apply (@dict_evaluate_one_solve_nonnegative_loss Toy.toy [[1]] [[1]] 1
           RngNone None "ista" None tt Toy.world0).
  reflexivity.
Defined.

End EvaluateFacts.
(* ================================================================== *)
(** * The atoms after the constrained update *)
(* ================================================================== *)

Module AtomFacts.
Import Tensor Effects Collab DictLearning Spec TensorFacts MatrixFacts
       EffectFacts UpdateDictFacts.
Local Open Scope R_scope.

Lemma toy_get_eps_pos : forall m, 0 < get_eps (Collaborators := Toy.toy) m.
Proof. intros m. cbn. apply Rinv_0_lt_compat. lra. Qed.

Section WithCollaborators.
Context {C : Collaborators}.
Variables (f c n : nat) (positive : bool) (eps : R) (rng : RngArg).
Hypothesis Heps : 0 < eps.
Hypothesis Hn : (0 < n)%nat.
Hypothesis Hf : (0 < f)%nat.
Hypothesis Hc : (0 < c)%nat.
Hypothesis get_eps_pos : forall m, 0 < get_eps m.

Lemma atom_outcome_norm (values : nat -> R) (code_col atom code_col' : list R) :
  atom_outcome positive eps f values code_col atom code_col' ->
  (code_col' = code_col /\ norm2 atom = 1)
  \/ (code_col' = map (fun _ => 0) code_col /\ norm2 atom < 1).
Proof.
  intros [(Hh & -> & _)|(Hr & ->)].
  - left. split; [reflexivity|]. exact (healthy_atom_unit_norm Heps Hh).
  - right. split; [reflexivity|].
    destruct (reseeded_atom_norm get_eps_pos Hr) as (s & fl & _ & _ & _ & H).
    exact H.
Qed.

Lemma atom_outcome_nonneg (values : nat -> R) (code_col atom code_col' : list R) :
  atom_outcome true eps f values code_col atom code_col' ->
  Forall (fun v => 0 <= v) atom.
Proof.
  intros [(Hh & _)|(Hr & _)].
  - exact (healthy_atom_nonneg Heps Hh).
  - exact (reseeded_atom_nonneg get_eps_pos Hr).
Qed.

End WithCollaborators.

Section Update.
Context {C : Collaborators}.

(** X5.  On a dictionary of [f] features and [c] atoms, [n] samples and a
    code of matching size, with a positive threshold [eps] and a positive
    floor [get_eps], [update_dict] raises nothing, reports nothing and
    keeps the sizes of the dictionary and of the code; every atom it
    returns has norm at most 1, and with [positive] no entry of any atom
    is negative. *)
Theorem update_dict_atoms_bounded
        (f c n : nat) (positive : bool) (eps : R) (rng : RngArg)
        (dictionary x code : Mat) (w : World) :
  0 < eps -> (0 < n)%nat -> (0 < f)%nat -> (0 < c)%nat ->
  (forall m, 0 < get_eps m) ->
  is_matrix f c dictionary -> is_matrix n f x -> is_matrix n c code ->
  exists dictionary' code' w',
    update_dict dictionary x code positive eps rng w
    = (Ok (dictionary', code'), w', [])
    /\ is_matrix f c dictionary' /\ is_matrix n c code'
    /\ forall k, (k < c)%nat ->
         norm2 (col k dictionary') <= 1
         /\ (positive = true -> Forall (fun v => 0 <= v) (col k dictionary')).
Proof.
  intros Heps Hn Hf Hc Hfloor HD Hx Hcode.
  destruct (@update_dict_outcome C f c n positive eps rng Heps Hn Hf Hc
              dictionary x code w HD Hx Hcode)
    as (D' & code' & w' & E & HD' & Hcode' & A).
  exists D', code', w'. repeat (split; [assumption|]).
  intros k Hk. specialize (A k Hk). split.
  - destruct (atom_outcome_norm Heps Hfloor A) as [(_ & H)|(_ & H)]; lra.
  - intros ->. exact (atom_outcome_nonneg Heps Hfloor A).
Qed.

(** X6.  With a positive threshold [eps], a positive floor [get_eps] and
    tensors of matching sizes, every column of the code is, after
    [update_dict], either as it was, and then its atom has norm exactly 1,
    or zero in every sample, and then its atom was reseeded and has norm
    below 1.  A column that was zero before the call is always in the
    second case. *)
Theorem update_dict_code_columns_kept_or_zeroed
        (f c n : nat) (positive : bool) (eps : R) (rng : RngArg)
        (dictionary x code : Mat) (w : World) :
  0 < eps -> (0 < n)%nat -> (0 < f)%nat -> (0 < c)%nat ->
  (forall m, 0 < get_eps m) ->
  is_matrix f c dictionary -> is_matrix n f x -> is_matrix n c code ->
  exists dictionary' code' w',
    update_dict dictionary x code positive eps rng w
    = (Ok (dictionary', code'), w', [])
    /\ forall k, (k < c)%nat ->
         ((col k code' = col k code /\ norm2 (col k dictionary') = 1)
          \/ (col k code' = map (fun _ => 0) (col k code)
              /\ reseeded_atom positive f (tape (gen_of rng w)) (col k dictionary')
              /\ norm2 (col k dictionary') < 1))
         /\ (Forall (fun v => v = 0) (col k code) ->
             reseeded_atom positive f (tape (gen_of rng w)) (col k dictionary')
             /\ norm2 (col k dictionary') < 1).
Proof.
  intros Heps Hn Hf Hc Hfloor HD Hx Hcode.
  destruct (@update_dict_outcome C f c n positive eps rng Heps Hn Hf Hc
              dictionary x code w HD Hx Hcode)
    as (D' & code' & w' & E & _ & _ & A).
  exists D', code', w'. split; [assumption|].
  intros k Hk. specialize (A k Hk).
  assert (Hre : reseeded_atom positive f (tape (gen_of rng w)) (col k D') ->
                norm2 (col k D') < 1).
  { intros Hr.
    destruct (reseeded_atom_norm Hfloor Hr) as (s & fl & _ & _ & _ & H).
    exact H. }
  split.
  - destruct A as [(Hh & -> & _)|(Hr & ->)].
    + left. split; [reflexivity|]. exact (healthy_atom_unit_norm Heps Hh).
    + right. split; [reflexivity|]. split; [assumption|]. now apply Hre.
  - intros Hz. destruct A as [(_ & _ & Hnz)|(Hr & _)]; [contradiction|].
    split; [assumption|]. now apply Hre.
Qed.

End Update.

Lemma update_dict_atoms_bounded_witness :
  exists dictionary' code' w',
    update_dict (C := Toy.toy) [[1]; [0]] [[1; 1]; [0; 2]] [[0]; [1]] true 1e-7
                RngNone Toy.world0
    = (Ok (dictionary', code'), w', [])
    /\ is_matrix 2 1 dictionary' /\ is_matrix 2 1 code'
    /\ forall k, (k < 1)%nat ->
         norm2 (col k dictionary') <= 1
         /\ (true = true -> Forall (fun v => 0 <= v) (col k dictionary')).
Proof.
  apply (@update_dict_atoms_bounded Toy.toy 2 1 2 true 1e-7 RngNone
           [[1]; [0]] [[1; 1]; [0; 2]] [[0]; [1]] Toy.world0);
    try lra; try lia; try exact toy_get_eps_pos;
    (split; [reflexivity | repeat constructor]).
Defined.

Lemma update_dict_code_columns_kept_or_zeroed_witness :
  exists dictionary' code' w',
    update_dict (C := Toy.toy) [[1]; [0]] [[1; 1]; [0; 2]] [[0]; [1]] true 1e-7
                RngNone Toy.world0
    = (Ok (dictionary', code'), w', [])
    /\ forall k, (k < 1)%nat ->
         ((col k code' = col k [[0]; [1]] /\ norm2 (col k dictionary') = 1)
          \/ (col k code' = map (fun _ => 0) (col k [[0]; [1]])
              /\ reseeded_atom (C := Toy.toy) true 2
                               (tape (gen_of RngNone Toy.world0))
                               (col k dictionary')
              /\ norm2 (col k dictionary') < 1))
         /\ (Forall (fun v => v = 0) (col k [[0]; [1]]) ->
             reseeded_atom (C := Toy.toy) true 2
                           (tape (gen_of RngNone Toy.world0))
                           (col k dictionary')
             /\ norm2 (col k dictionary') < 1).
Proof.
  apply (@update_dict_code_columns_kept_or_zeroed Toy.toy 2 1 2 true 1e-7
           RngNone [[1]; [0]] [[1; 1]; [0; 2]] [[0]; [1]] Toy.world0);
    try lra; try lia; try exact toy_get_eps_pos;
    (split; [reflexivity | repeat constructor]).
Defined.

End AtomFacts.
(* ================================================================== *)
(** * The ridge update with and without weight decay *)
(* ================================================================== *)

Module RidgeEdgeFacts.
Import Tensor Effects Collab DictLearning Spec TensorFacts MatrixFacts
       EffectFacts RidgeFacts.
Local Open Scope R_scope.

(** The quadratic form of the matrix of the normal equations: the squared
    norm of [Z v] plus the weight decay times the squared norm of [v]. *)
Lemma normal_quadratic_form (N k : nat) (code : Mat) (lambd : R) (v : list R) :
  is_matrix N k code -> (0 < N)%nat -> length v = k ->
  dot v (matvec (normal_matrix code lambd N) v)
  = sum_n N (fun s => sum_n k (fun i => entry s i code * nth i v 0) ^ 2)
    + lambd * INR N * sum_n k (fun i => nth i v 0 * nth i v 0).
Proof.
  intros H HN Hv.
  pose proof (normal_matrix_is_matrix lambd H HN) as HM.
  rewrite (@dot_sum_n k)
    by (unfold matvec; rewrite ?length_map; first [assumption | apply HM]).
  rewrite (@sum_n_ext k _
             (fun i => nth i v 0
                       * sum_n k (fun j => entry i j (matmul (transpose code) code)
                                           * nth j v 0)
                       + lambd * INR N * (nth i v 0 * nth i v 0))).
  - now rewrite sum_n_plus, (@gram_quadratic_form N k code v H HN Hv), sum_n_scal.
  - intros i Hi.
    rewrite (@nth_matvec k k _ v i HM Hv Hi).
    rewrite (@sum_n_ext k _
               (fun j => entry i j (matmul (transpose code) code) * nth j v 0
                         + (if Nat.eqb i j then lambd * INR N else 0) * nth j v 0)).
    + rewrite sum_n_plus, (@sum_n_delta k i _ _ Hi). ring.
    + intros j Hj. unfold normal_matrix.
      rewrite (is_matrix_ncols H HN).
      rewrite (@entry_madd k k _ _ i j (gram_is_matrix H HN)
                 (is_matrix_scaled_identity k _) Hi Hj).
      rewrite (@entry_scaled_identity k _ i j Hi Hj). ring.
Qed.

Lemma nth_zero_column (j s : nat) (code : Mat) :
  Forall (fun v => v = 0) (col j code) -> entry s j code = 0.
Proof.
  intros Hz. rewrite <- nth_col.
  destruct (Nat.lt_ge_cases s (length (col j code))) as [Hs|Hs].
  - rewrite Forall_forall in Hz. apply Hz, nth_In, Hs.
  - now apply nth_overflow.
Qed.

(** Without weight decay a code with a zero column gives a matrix that is
    not positive definite: its quadratic form vanishes on the unit vector
    of that column. *)
Lemma zero_column_not_positive_definite (N k j : nat) (code : Mat) :
  is_matrix N k code -> (0 < N)%nat -> (j < k)%nat ->
  Forall (fun v => v = 0) (col j code) ->
  ~ positive_definite k (normal_matrix code 0 N).
Proof.
  intros H HN Hj Hz PD.
  set (v := nth j (scaled_identity k 1) []).
  assert (Hv : length v = k)
    by exact (is_matrix_row (is_matrix_scaled_identity k 1) Hj).
  assert (Hnth : forall i, (i < k)%nat ->
                           nth i v 0 = if Nat.eqb j i then 1 else 0).
  { intros i Hi. exact (@entry_scaled_identity k 1 j i Hj Hi). }
  assert (Hne : v <> repeat 0 k).
  { intros E. pose proof (Hnth j Hj) as Hjj.
    rewrite E, Nat.eqb_refl, nth_repeat in Hjj. lra. }
  specialize (PD v Hv Hne).
  rewrite (@normal_quadratic_form N k code 0 v H HN Hv) in PD.
  rewrite (@sum_n_ext N _ (fun _ => 0)) in PD.
  - replace (sum_n N (fun _ => 0)) with 0 in PD; [lra|].
    clear. induction N as [|N IH]; [reflexivity|]. rewrite sum_n_S, <- IH. lra.
  - intros s _.
    rewrite (@sum_n_ext k _ (fun i => (if Nat.eqb j i then 1 else 0)
                                      * entry s i code)).
    + rewrite (@sum_n_delta k j _ _ Hj), (@nth_zero_column j s code Hz). lra.
    + intros i Hi. rewrite (Hnth i Hi). ring.
Qed.

Section WithCollaborators.
Context {C : Collaborators}.

(** X7.  With a positive weight decay and at least one sample
    [update_dict_ridge] never fails, whatever the code, zero columns
    included: the matrix it factors is positive definite.  It returns a
    dictionary of [f] features and [k] atoms and touches neither generator. *)
Theorem update_dict_ridge_positive_decay_never_fails
        (x code : Mat) (lambd : R) (N k f : nat) (w : World) :
  cholesky_contract k -> cholesky_solve_contract k ->
  (0 < N)%nat -> (0 < k)%nat -> 0 < lambd ->
  is_matrix N f x -> is_matrix N k code ->
  positive_definite k (normal_matrix code lambd N)
  /\ exists weight,
      update_dict_ridge x code lambd w = (Ok weight, w, [])
      /\ is_matrix f k weight.
Proof.
  intros Hchol Hsolve HN Hk Hl Hx Hc.
  pose proof (normal_matrix_positive_definite Hc HN Hl) as PD.
  split; [exact PD|].
  destruct (ridge_factored lambd w Hchol Hsolve HN Hx Hc PD)
    as (L & V & _ & _ & E & HV & _).
  exists (transpose V). split; [assumption|].
  now apply is_matrix_transpose.
Qed.

(** X8.  With a weight decay of zero, a code one column of which is zero in
    every sample makes [update_dict_ridge] raise the error of the Cholesky
    factorisation: the matrix [Z^T Z] is then not positive definite. *)
Theorem update_dict_ridge_zero_column_without_decay
        (x code : Mat) (N k f j : nat) (w : World) :
  cholesky_contract k ->
  (0 < N)%nat -> is_matrix N f x -> is_matrix N k code ->
  (j < k)%nat -> Forall (fun v => v = 0) (col j code) ->
  update_dict_ridge x code 0 w = (Raise LinAlgError, w, []).
Proof.
  intros Hchol HN Hx Hc Hj Hz.
  unfold update_dict_ridge. rewrite (ridge_matrix 0 Hx Hc HN).
  destruct (Hchol _ (normal_matrix_is_matrix 0 Hc HN)
                  (normal_matrix_symmetric 0 Hc HN)) as (_ & Hnpd).
  now rewrite (Hnpd (zero_column_not_positive_definite Hc HN Hj Hz)).
Qed.

End WithCollaborators.

Lemma update_dict_ridge_positive_decay_never_fails_witness :
  positive_definite 1 (normal_matrix [[0]] 0.01 1)
  /\ exists weight,
      update_dict_ridge (C := Toy.toy) [[2]] [[0]] 0.01 Toy.world0
      = (Ok weight, Toy.world0, [])
      /\ is_matrix 1 1 weight.
Proof.
  apply (@update_dict_ridge_positive_decay_never_fails Toy.toy [[2]] [[0]] 0.01
           1 1 1 Toy.world0 toy_cholesky_contract toy_cholesky_solve_contract);
    try lia; try lra; (split; [reflexivity | repeat constructor]).
Defined.

Lemma update_dict_ridge_zero_column_without_decay_witness :
  update_dict_ridge (C := Toy.toy) [[2]] [[0]] 0 Toy.world0
  = (Raise LinAlgError, Toy.world0, []).
Proof.
  apply (@update_dict_ridge_zero_column_without_decay Toy.toy [[2]] [[0]]
           1 1 1 0 Toy.world0 toy_cholesky_contract);
    try lia; try (split; [reflexivity | repeat constructor]).
  repeat constructor.
Defined.

End RidgeEdgeFacts.
(* ================================================================== *)
(** * The learning loop: initialisations and runs without a turn *)
(* ================================================================== *)

Module LoopFacts.
Import Tensor Effects Collab DictLearning Spec TensorFacts MatrixFacts
       EffectFacts SparseEncodeFacts UpdateDictFacts LearningFacts
       EvaluateFacts AtomFacts.
Local Open Scope R_scope.

Lemma count_init_app ev1 ev2 :
  count_init (ev1 ++ ev2) = (count_init ev1 + count_init ev2)%nat.
Proof. unfold count_init. now rewrite filter_app, length_app. Qed.

Lemma bind_raise {A B : Type} (m : M A) (k : A -> M B) (w w1 : World)
      (e : Exception) (ev : list Event) :
  m w = (Raise e, w1, ev) -> bind m k w = (Raise e, w1, ev).
Proof. intros E. unfold bind. now rewrite E. Qed.

Section WithCollaborators.
Context {C : Collaborators}.

(** ** Initialisations *)

Lemma code_variable_inits x weight alpha z0 algorithm init rng w :
  count_init (events_of (code_variable x weight alpha z0 algorithm init rng w))
  = match z0 with Some _ => 0%nat | None => 1%nat end.
Proof.
  destruct z0 as [z|].
  - now rewrite code_variable_warm_events.
  - unfold code_variable, call_initialize_code.
    destruct init as [i|]; destruct rng;
      unfold bind, emit, ret, with_gen, lift, events_of;
      cbn [fst snd];
      try destruct ((i =? "zero")%string && (algorithm =? "iter-ridge")%string);
      cbn [fst snd];
      match goal with
      | |- context [initialize_code ?a ?b ?c ?d ?e] =>
          destruct (initialize_code a b c d e) as [[z1|e1] g1]
      end; reflexivity.
Qed.

Lemma inference_inits x weight alpha algorithm rng kwargs z w :
  count_init (events_of (inference x weight alpha algorithm rng kwargs z w)) = 0%nat.
Proof.
  unfold inference, bind, emit, ret, with_gen, raise.
  destruct (algorithm =? "cd")%string; [reflexivity|].
  destruct (algorithm =? "ista")%string; [|reflexivity].
  destruct rng; cbn;
    match goal with
    | |- context [ista ?a ?b ?c ?d ?e ?f] => destruct (ista a b c d e f)
    end; reflexivity.
Qed.

Lemma sparse_encode_inits x weight alpha z0 algorithm init rng kwargs w :
  count_init (events_of (sparse_encode x weight alpha z0 algorithm init rng
                                       kwargs w))
  = match z0 with Some _ => 0%nat | None => 1%nat end.
Proof.
  rewrite sparse_encode_halves, events_bind, count_init_app, code_variable_inits.
  destruct (result_of (code_variable x weight alpha z0 algorithm init rng w));
    [rewrite inference_inits|]; cbn; lia.
Qed.

(** One turn initialises the code when it has no warm start, and only
    then; with [persist] it leaves a warm start behind. *)
Lemma learning_step_inits x alpha constrained persist lambd rng algorithm
      init kwargs i weight Z_0 losses w :
  let o := learning_step x alpha constrained persist lambd rng algorithm init
                         kwargs i (weight, Z_0, losses) w in
  count_init (events_of o)
  = match Z_0 with Some _ => 0%nat | None => 1%nat end
  /\ match result_of o with
     | Ok (_, Z_0', _) =>
         if persist then Z_0' <> None else Z_0' = Z_0
     | Raise _ => True
     end.
Proof.
  cbn zeta. unfold learning_step.
  rewrite events_bind, result_bind, count_init_app, sparse_encode_inits.
  destruct (result_of (sparse_encode x weight alpha Z_0 algorithm init rng kwargs w))
    as [Z|e]; [|split; [cbn; lia | exact I]].
  set (w1 := world_of (sparse_encode x weight alpha Z_0 algorithm init rng kwargs w)).
  rewrite events_bind, result_bind.
  destruct constrained.
  - destruct (update_dict_silent weight x Z true 1e-7 rng w1) as (Ev & [d c] & Er).
    rewrite Ev, Er. cbn. split; [lia|]. now destruct persist.
  - rewrite events_bind, result_bind, update_dict_ridge_silent.
    unfold update_dict_ridge.
    destruct (cholesky _); cbn; [|split; [lia | exact I]].
    split; [lia|]. now destruct persist.
Qed.

Lemma learning_loop_inits x alpha constrained persist lambd rng algorithm
      init kwargs n :
  forall a weight Z_0 losses w,
    let o := for_each (seq a n)
                      (learning_step x alpha constrained persist lambd rng
                                     algorithm init kwargs)
                      (weight, Z_0, losses) w in
    (Z_0 <> None -> persist = true -> count_init (events_of o) = 0%nat)
    /\ (persist = true -> (count_init (events_of o) <= 1)%nat)
    /\ match result_of o with
       | Ok _ =>
           Z_0 = None ->
           count_init (events_of o) = if persist then Nat.min 1 n else n
       | Raise _ => True
       end.
Proof.
  induction n as [|n IH]; intros a weight Z_0 losses w; cbn zeta.
  - cbn. repeat split; try lia. now destruct persist.
  - cbn [seq for_each]. rewrite events_bind, result_bind, count_init_app.
    destruct (learning_step_inits x alpha constrained persist lambd rng
                algorithm init kwargs a weight Z_0 losses w) as (Hc & Hz).
    rewrite Hc.
    destruct (result_of (learning_step x alpha constrained persist lambd rng
                           algorithm init kwargs a (weight, Z_0, losses) w))
      as [[[weight1 Z1] losses1]|e].
    + set (w1 := world_of _).
      destruct (IH (S a) weight1 Z1 losses1 w1) as (H0 & H1 & Hok).
      split; [|split].
      * intros Hne Hp. destruct Z_0; [|contradiction].
        rewrite H0; [reflexivity| |assumption].
        rewrite Hp in Hz. exact Hz.
      * intros Hp. rewrite Hp in Hz.
        destruct Z_0; [specialize (H1 Hp); lia|].
        rewrite (H0 Hz Hp). lia.
      * destruct (result_of (for_each (seq (S a) n) _ (weight1, Z1, losses1) w1));
          [|exact I].
        intros ->. destruct persist.
        -- rewrite (H0 Hz eq_refl). reflexivity.
        -- subst Z1. rewrite (Hok eq_refl). reflexivity.
    + cbn. repeat split; try (destruct Z_0; lia).
      intros Hne _. destruct Z_0; [lia | contradiction].
Qed.

(** X9.  With [persist] the code is initialised at most once in a run of
    [dict_learning], in the first turn, every later turn being warm-started;
    without it, every turn initialises the code afresh.  A run that
    returns has initialised the code once (if there was a turn at all) in
    the first case and [steps] times in the second. *)
Theorem dict_learning_initialisations
        (x : Mat) (n_components : nat) (alpha : R)
        (constrained persist : bool) (lambd : R) (steps : nat) (rng : RngArg)
        (algorithm : string) (init : option string) (kwargs : Kwargs)
        (w : World) :
  let o := dict_learning x n_components alpha constrained persist lambd steps
                         rng algorithm init kwargs w in
  (persist = true -> (count_init (events_of o) <= 1)%nat)
  /\ match result_of o with
     | Ok _ => count_init (events_of o) = if persist then Nat.min 1 steps else steps
     | Raise _ => True
     end.
Proof.
  cbn zeta.
  destruct (dict_learning_split x n_components alpha constrained persist lambd
              steps rng algorithm init kwargs w) as (v & g & w0 & Hv & ->).
  set (weight0 := let weight := fst (orthogonal_ (chunks (ncols x) n_components v) g) in
                  if constrained then normalize_dim0 weight else weight).
  rewrite events_bind, result_bind.
  destruct (learning_loop_inits x alpha constrained persist lambd rng algorithm
              init kwargs steps 0 weight0 None (repeat 0 steps) w0)
    as (_ & H1 & Hok).
  destruct (result_of (for_each (seq 0 steps) _ _ w0))
    as [[[weight1 Z1] losses1]|e].
  - cbn [ret events_of result_of fst snd]. rewrite app_nil_r.
    split; [exact H1 | now apply Hok].
  - rewrite app_nil_r. split; [exact H1 | exact I].
Qed.

(** ** No turn, and a turn that cannot succeed *)

(** X10.  With [steps = 0], [dict_learning] returns its initial dictionary
    and an empty loss trace and reports nothing; no code is initialised
    and no solver is called, so even an algorithm that [sparse_encode] does
    not know goes unnoticed.  The initial dictionary is the matrix of
    normal values drawn from the generator that [rng] designates, passed
    through [nn.init.orthogonal_], which is given no generator and so works
    with the process-wide default one, and normalised column by column
    when [constrained]. *)
Theorem dict_learning_zero_steps
        (x : Mat) (n_components : nat) (alpha : R)
        (constrained persist : bool) (lambd : R) (rng : RngArg)
        (algorithm : string) (init : option string) (kwargs : Kwargs)
        (w : World) :
  let size := (ncols x * n_components)%nat in
  let drawn := chunks (ncols x) n_components (fst (draw size (gen_of rng w))) in
  let weight :=
    fst (orthogonal_ drawn (default_gen (after_draw rng size w))) in
  let o := dict_learning x n_components alpha constrained persist lambd 0
                         rng algorithm init kwargs w in
  result_of o = Ok (if constrained then normalize_dim0 weight else weight, [])
  /\ events_of o = [].
Proof.
  cbn zeta.
  unfold dict_learning, randn, bind, with_gen, ret, after_draw, gen_of.
  destruct rng; cbn [draw fst snd given_gen default_gen for_each seq repeat];
    match goal with
    | |- context [orthogonal_ ?a ?b] => destruct (orthogonal_ a b) as [wt g1]
    end; cbn; now destruct constrained.
Qed.

(** X11.  With an algorithm other than ["cd"] and ["ista"] and at least one
    turn to make, [dict_learning] raises in its first turn: no solver is
    called and no loss is reported.  When the initialiser returns a code,
    the exception is the [ValueError] of [sparse_encode] naming the
    algorithm. *)
Theorem dict_learning_invalid_algorithm
        (x : Mat) (n_components : nat) (alpha : R)
        (constrained persist : bool) (lambd : R) (steps : nat) (rng : RngArg)
        (algorithm : string) (init : option string) (kwargs : Kwargs)
        (w : World) :
  algorithm <> "cd"%string -> algorithm <> "ista"%string -> (0 < steps)%nat ->
  let o := dict_learning x n_components alpha constrained persist lambd steps
                         rng algorithm init kwargs w in
  (exists e, result_of o = Raise e)
  /\ count_solve (events_of o) = 0%nat
  /\ count_progress (events_of o) = 0%nat
  /\ ((forall x' weight' alpha' g,
          exists z g', initialize_code x' weight' alpha'
                                       (resolved_init algorithm init) g
                       = (Ok z, g')) ->
      result_of o = Raise (ValueError (invalid_algorithm_message algorithm))).
Proof.
  intros Hcd Hista Hsteps. cbn zeta.
  destruct (dict_learning_split x n_components alpha constrained persist lambd
              steps rng algorithm init kwargs w) as (v & g & w0 & Hv & ->).
  set (weight0 := let weight := fst (orthogonal_ (chunks (ncols x) n_components v) g) in
                  if constrained then normalize_dim0 weight else weight).
  destruct steps as [|n]; [lia|].
  assert (Henc :
            let o := sparse_encode x weight0 alpha None algorithm init rng
                                   kwargs w0 in
            (exists e, result_of o = Raise e)
            /\ count_solve (events_of o) = 0%nat
            /\ count_progress (events_of o) = 0%nat
            /\ ((forall x' weight' alpha' g,
                    exists z g', initialize_code x' weight' alpha'
                                                 (resolved_init algorithm init) g
                                 = (Ok z, g')) ->
                result_of o
                = Raise (ValueError (invalid_algorithm_message algorithm)))).
  { cbn zeta. rewrite sparse_encode_halves, events_bind, result_bind.
    destruct (code_variable_cold x weight0 alpha algorithm init rng w0)
      as (Er & _ & Es).
    destruct (code_variable_trace x weight0 alpha None algorithm init rng w0)
      as (Ep & _).
    unfold count_solve, count_progress. rewrite !filter_app, Es, Ep.
    destruct (result_of (code_variable x weight0 alpha None algorithm init rng w0))
      as [z|e].
    - rewrite inference_invalid by assumption. cbn. eauto.
    - cbn. split; [eauto|]. split; [reflexivity|]. split; [reflexivity|].
      intros Hinit.
      destruct (Hinit x weight0 alpha (gen_of rng w0)) as (z & g' & Ez).
      rewrite Ez in Er. discriminate. }
  cbn zeta in Henc.
  destruct (sparse_encode x weight0 alpha None algorithm init rng kwargs w0)
    as [[[Z|e] w1] ev] eqn:E.
  - destruct Henc as ((e & He) & _). discriminate.
  - assert (E1 : learning_step x alpha constrained persist lambd rng algorithm
                               init kwargs 0 (weight0, None, repeat 0 (S n)) w0
                 = (Raise e, w1, ev))
      by (unfold learning_step; apply bind_raise; exact E).
    assert (E2 : for_each (seq 0 (S n))
                          (learning_step x alpha constrained persist lambd rng
                                         algorithm init kwargs)
                          (weight0, None, repeat 0 (S n)) w0
                 = (Raise e, w1, ev))
      by (cbn [seq for_each]; apply bind_raise; exact E1).
    erewrite bind_raise by exact E2.
    cbn [result_of events_of fst snd] in *.
    destruct Henc as (_ & Hs & Hp & Hval).
    split; [eauto|]. split; [exact Hs|]. split; [exact Hp|].
    intros Hinit. specialize (Hval Hinit). now injection Hval as ->.
Qed.

End WithCollaborators.

Lemma dict_learning_initialisations_witness :
  Nat.le (count_init (events_of (dict_learning (C := Toy.toy) [[1]; [2]] 1 1
                                               true true 0.01 3 RngGiven "ista"
                                               None tt Toy.world0)))
         1.
Proof.
  apply (@dict_learning_initialisations Toy.toy [[1]; [2]] 1 1 true true
           0.01 3 RngGiven "ista" None tt Toy.world0).
  reflexivity.
Defined.

Lemma dict_learning_invalid_algorithm_witness :
  result_of (dict_learning (C := Toy.toy) [[1]; [2]] 1 1 true false
                           0.01 3 RngGiven "iter-ridge" None tt Toy.world0)
  = Raise (ValueError "invalid algorithm parameter 'iter-ridge'.").
Proof.
  apply (@dict_learning_invalid_algorithm Toy.toy [[1]; [2]] 1 1 true false
           0.01 3 RngGiven "iter-ridge" None tt Toy.world0);
    try discriminate; try lia.
  intros x' weight' alpha' g. do 2 eexists. reflexivity.
Defined.

End LoopFacts.
(* ================================================================== *)
(** * The learning loop: losses and the constrained dictionary *)
(* ================================================================== *)

Module ConstrainedRunFacts.
Import Tensor Effects Collab DictLearning Spec TensorFacts MatrixFacts
       EffectFacts SparseEncodeFacts UpdateDictFacts LearningFacts
       EvaluateFacts AtomFacts LoopFacts.
Local Open Scope R_scope.

Lemma Forall_set_nth (P : R -> Prop) (i : nat) (x : R) (l : list R) :
  P x -> Forall P l -> Forall P (set_nth i x l).
Proof.
  intros Hx. revert i. induction l as [|h l IH]; intros i Hl.
  - destruct i; constructor.
  - inversion Hl as [|? ? Hh Ht]; subst.
    destruct i as [|i]; cbn [set_nth]; constructor; auto.
Qed.

Section WithCollaborators.
Context {C : Collaborators}.

(** ** The losses *)

Lemma learning_step_loss x alpha constrained persist lambd rng algorithm
      init kwargs i weight Z_0 losses w :
  match result_of (learning_step x alpha constrained persist lambd rng
                                 algorithm init kwargs i (weight, Z_0, losses) w)
  with
  | Ok (_, _, losses') =>
      exists Z, losses' = set_nth i (lasso_loss x Z weight alpha) losses
  | Raise _ => True
  end.
Proof.
  unfold learning_step. rewrite result_bind.
  destruct (result_of (sparse_encode x weight alpha Z_0 algorithm init rng kwargs w))
    as [Z|e]; [|exact I].
  set (w1 := world_of _).
  rewrite result_bind.
  destruct constrained.
  - destruct (update_dict_silent weight x Z true 1e-7 rng w1) as (_ & [d c] & Er).
    rewrite Er. cbn. now exists Z.
  - rewrite result_bind. unfold update_dict_ridge.
    destruct (cholesky _); cbn; [|exact I]. now exists Z.
Qed.

Lemma learning_loop_losses x alpha constrained persist lambd rng algorithm
      init kwargs n :
  forall a weight Z_0 losses w,
    Forall (fun l => 0 <= l) losses ->
    match result_of (for_each (seq a n)
                              (learning_step x alpha constrained persist lambd
                                             rng algorithm init kwargs)
                              (weight, Z_0, losses) w)
    with
    | Ok (_, _, losses') => Forall (fun l => 0 <= l) losses'
    | Raise _ => True
    end.
Proof.
  induction n as [|n IH]; intros a weight Z_0 losses w Hl.
  - exact Hl.
  - cbn [seq for_each]. rewrite result_bind.
    pose proof (learning_step_loss x alpha constrained persist lambd rng
                  algorithm init kwargs a weight Z_0 losses w) as Hstep.
    destruct (result_of (learning_step x alpha constrained persist lambd rng
                           algorithm init kwargs a (weight, Z_0, losses) w))
      as [[[weight1 Z1] losses1]|e]; [|exact I].
    destruct Hstep as (Z & ->).
    apply IH. apply Forall_set_nth; [|assumption].
    pose proof (lasso_loss_nonneg x Z weight alpha). lra.
Qed.

(** X12.  No entry of the loss trace that [dict_learning] returns is
    negative. *)
Theorem dict_learning_losses_nonnegative
        (x : Mat) (n_components : nat) (alpha : R)
        (constrained persist : bool) (lambd : R) (steps : nat) (rng : RngArg)
        (algorithm : string) (init : option string) (kwargs : Kwargs)
        (w : World) :
  match result_of (dict_learning x n_components alpha constrained persist lambd
                                 steps rng algorithm init kwargs w)
  with
  | Ok (_, losses) => Forall (fun l => 0 <= l) losses
  | Raise _ => True
  end.
Proof.
  destruct (dict_learning_split x n_components alpha constrained persist lambd
              steps rng algorithm init kwargs w) as (v & g & w0 & Hv & ->).
  set (weight0 := let weight := fst (orthogonal_ (chunks (ncols x) n_components v) g) in
                  if constrained then normalize_dim0 weight else weight).
  rewrite result_bind.
  assert (H0 : Forall (fun l => 0 <= l) (repeat 0 steps)).
  { apply Forall_forall. intros l Hl. apply repeat_spec in Hl. lra. }
  pose proof (learning_loop_losses x alpha constrained persist lambd rng
                algorithm init kwargs steps 0 weight0 None w0 H0) as H.
  destruct (result_of (for_each (seq 0 steps) _ _ w0))
    as [[[weight1 Z1] losses1]|e]; [exact H | exact I].
Qed.

(** ** The dictionary of a constrained run *)

Section Valid.
Variables (n f c : nat) (x : Mat) (alpha : R) (algorithm : string)
          (init : option string) (rng : RngArg) (kwargs : Kwargs)
          (persist : bool) (lambd : R).
Hypothesis Hn : (0 < n)%nat.
Hypothesis Hf : (0 < f)%nat.
Hypothesis Hc : (0 < c)%nat.
Hypothesis Hx : is_matrix n f x.
Hypothesis Halg : (algorithm = "cd" \/ algorithm = "ista")%string.
Hypothesis Hinit : initialize_contract (resolved_init algorithm init).
Hypothesis Hsolver : solver_contract.
Hypothesis get_eps_pos : forall m, 0 < get_eps m.

(** A constrained turn returns a dictionary of the same size whose atoms
    are non-negative and of norm at most 1. *)
Lemma learning_step_constrained (i : nat) (weight : Mat) (Z_0 : option Mat)
      (losses : list R) (w : World) :
  is_matrix f c weight ->
  (forall z, Z_0 = Some z -> is_matrix n c z) ->
  exists weight' Z_0' losses',
    result_of (learning_step x alpha true persist lambd rng algorithm
                             init kwargs i (weight, Z_0, losses) w)
    = Ok (weight', Z_0', losses')
    /\ is_matrix f c weight'
    /\ (forall z, Z_0' = Some z -> is_matrix n c z)
    /\ forall k, (k < c)%nat ->
         norm2 (col k weight') <= 1
         /\ Forall (fun v => 0 <= v) (col k weight').
Proof.
  intros Hw HZ. unfold learning_step. rewrite result_bind.
  destruct (@sparse_encode_returns C n f c x alpha algorithm init rng kwargs
              Hn Hf Hx Halg Hinit Hsolver weight Z_0 w Hw HZ)
    as (Z & -> & HZ1).
  set (w1 := world_of _).
  rewrite result_bind.
  assert (Heps : 0 < 1e-7) by lra.
  destruct (@update_dict_outcome C f c n true 1e-7 rng Heps Hn Hf Hc
              weight x Z w1 Hw Hx HZ1)
    as (D' & code' & w' & E & HD' & Hcode' & A).
  rewrite E. cbn [result_of world_of fst snd].
  rewrite result_bind. cbn [emit result_of fst ret].
  do 3 eexists. split; [reflexivity|]. split; [assumption|].
  split.
  - destruct persist; [|assumption]. intros z [= <-]. assumption.
  - intros k Hk. specialize (A k Hk). split.
    + destruct (atom_outcome_norm Heps get_eps_pos A) as [(_ & H)|(_ & H)]; lra.
    + exact (atom_outcome_nonneg Heps get_eps_pos A).
Qed.

Lemma learning_loop_constrained (steps : nat) :
  forall (a : nat) (weight : Mat) (Z_0 : option Mat) (losses : list R)
         (w : World),
    is_matrix f c weight ->
    (forall z, Z_0 = Some z -> is_matrix n c z) ->
    (steps = 0%nat ->
     forall k, (k < c)%nat ->
       norm2 (col k weight) <= 1 /\ Forall (fun v => 0 <= v) (col k weight)) ->
    exists weight' Z_0' losses',
      result_of (for_each (seq a steps)
                          (learning_step x alpha true persist lambd rng
                                         algorithm init kwargs)
                          (weight, Z_0, losses) w)
      = Ok (weight', Z_0', losses')
      /\ is_matrix f c weight'
      /\ forall k, (k < c)%nat ->
           norm2 (col k weight') <= 1
           /\ Forall (fun v => 0 <= v) (col k weight').
Proof.
  induction steps as [|steps IH]; intros a weight Z_0 losses w Hw HZ H0.
  - do 3 eexists. split; [reflexivity|]. split; [assumption|]. now apply H0.
  - cbn [seq for_each]. rewrite result_bind.
    destruct (learning_step_constrained a losses w Hw HZ)
      as (weight' & Z_0' & losses' & -> & Hw' & HZ' & HP).
    apply IH; try assumption. intros _. exact HP.
Qed.

End Valid.

(** X13.  On a valid input a constrained run of [dict_learning] of at
    least one turn returns a dictionary with one row for each feature and
    one column for each atom, in which no entry is negative and no atom
    has a norm above 1. *)
Theorem dict_learning_constrained_dictionary
        (x : Mat) (n_components : nat) (alpha : R) (persist : bool)
        (lambd : R) (steps : nat) (rng : RngArg) (algorithm : string)
        (init : option string) (kwargs : Kwargs) (w : World) :
  valid_input x n_components true lambd algorithm init ->
  (forall m, 0 < get_eps m) ->
  (0 < steps)%nat ->
  exists weight losses,
    result_of (dict_learning x n_components alpha true persist lambd steps
                             rng algorithm init kwargs w)
    = Ok (weight, losses)
    /\ is_matrix (ncols x) n_components weight
    /\ forall k, (k < n_components)%nat ->
         norm2 (col k weight) <= 1
         /\ Forall (fun v => 0 <= v) (col k weight).
Proof.
  intros (Halg & n & f & Hn & Hf & Hc & Hx & Hinit & Hsolver & Horth & _)
         Hfloor Hsteps.
  destruct (dict_learning_split x n_components alpha true persist lambd
              steps rng algorithm init kwargs w) as (v & g & w0 & Hv & ->).
  rewrite result_bind. cbv beta iota zeta.
  rewrite (is_matrix_ncols Hx Hn) in *.
  assert (Hw0 : is_matrix f n_components
                  (normalize_dim0 (fst (orthogonal_ (chunks f n_components v) g)))).
  { assert (H1 : is_matrix f n_components
                     (fst (orthogonal_ (chunks f n_components v) g)))
      by (apply Horth; now apply is_matrix_chunks).
    now apply is_matrix_normalize_dim0. }
  destruct (@learning_loop_constrained n f n_components x alpha algorithm init
              rng kwargs persist lambd Hn Hf Hc Hx Halg Hinit Hsolver Hfloor
              steps 0%nat _ None (repeat 0 steps) w0 Hw0)
    as (weight' & Z' & losses' & -> & Hw' & HP); [discriminate | lia |].
  cbn. eauto.
Qed.

End WithCollaborators.

Lemma dict_learning_constrained_dictionary_witness :
  exists weight losses,
    result_of (dict_learning (C := Toy.toy) [[1]; [2]] 1 1 true true 0.01 3
                             RngGiven "ista" None tt Toy.world0)
    = Ok (weight, losses)
    /\ is_matrix (ncols [[1]; [2]]) 1 weight
    /\ forall k, (k < 1)%nat ->
         norm2 (col k weight) <= 1
         /\ Forall (fun v => 0 <= v) (col k weight).
Proof.
  apply (@dict_learning_constrained_dictionary Toy.toy [[1]; [2]] 1 1 true
           0.01 3 RngGiven "ista" None tt Toy.world0).
  - split; [now right|].
    exists 2%nat, 1%nat.
    split; [lia|]. split; [lia|]. split; [lia|].
    split; [split; [reflexivity | repeat constructor]|].
    split; [exact toy_initialize_contract|].
    split; [exact toy_solver_contract|].
    split; [exact toy_orthogonal_contract|].
    now left.
  - exact toy_get_eps_pos.
  - lia.
Defined.

End ConstrainedRunFacts.
(* ================================================================== *)
(** * The concentration estimate *)
(* ================================================================== *)

Module ConcentrationFacts.
Import Tensor Effects Collab DictLearning Spec TensorFacts MatrixFacts
       EffectFacts.
Local Open Scope string_scope.

Section WithCollaborators.
Context {C : Collaborators}.

(** ** The loop over the images *)

(** A body that returns without touching the world or reporting: the loop
    is [zipWith]. *)
Lemma zip_map_pure {A B D : Type} (f : A -> B -> M D) (g : A -> B -> D)
      (u : list A) (v : list B) (w : World) :
  (forall a b w', f a b w' = (Ok (g a b), w', [])) ->
  zip_map f u v w = (Ok (zipWith g u v), w, []).
Proof.
  intros Hf. revert v. induction u as [|a u IH]; intros [|b v];
    try reflexivity.
  cbn [zip_map]. unfold bind. rewrite Hf.
  rewrite IH. reflexivity.
Qed.

(** A body that raises on every pair: the loop raises at the first pair,
    if there is one. *)
Lemma zip_map_raises {A B D : Type} (f : A -> B -> M D) (e : A -> B -> Exception)
      (u : list A) (v : list B) (w : World) :
  (forall a b w', f a b w' = (Raise (e a b), w', [])) ->
  zip_map f u v w
  = match u, v with
    | a :: _, b :: _ => (Raise (e a b), w, [])
    | _, _ => (Ok [], w, [])
    end.
Proof.
  intros Hf. destruct u as [|a u], v as [|b v]; try reflexivity.
  cbn [zip_map]. unfold bind. now rewrite Hf.
Qed.

(** A body that returns and reports nothing: the loop returns one result
    for each pair. *)
Lemma zip_map_returns {A B D : Type} (f : A -> B -> M D)
      (u : list A) (v : list B) :
  (forall a b w', exists d w1, f a b w' = (Ok d, w1, [])) ->
  forall w, exists r w1,
    zip_map f u v w = (Ok r, w1, [])
    /\ length r = Nat.min (length u) (length v).
Proof.
  intros Hf. revert v. induction u as [|a u IH]; intros [|b v] w;
    try (exists [], w; split; reflexivity).
  cbn [zip_map]. unfold bind.
  destruct (Hf a b w) as (d & w1 & ->).
  destruct (IH v w1) as (r & w2 & -> & Hr).
  exists (d :: r), w2. split; [reflexivity|]. cbn. now rewrite Hr.
Qed.

Lemma helper_cd od s regularizer rng w :
  get_concentrations_helper od s regularizer "cd" rng w
  = (Ok (transpose (coord_descent od (transpose s) Z0Omitted regularizer
                                  no_kwargs)), w, []).
Proof. reflexivity. Qed.

Lemma helper_invalid od s regularizer method rng w :
  method <> "cd" -> method <> "ista" ->
  get_concentrations_helper od s regularizer method rng w
  = (Raise (NotImplementedError (method ++ " is not a valid optimizer")), w, []).
Proof.
  intros Hcd Hista. apply String.eqb_neq in Hcd, Hista.
  unfold get_concentrations_helper. now rewrite Hcd, Hista.
Qed.

Lemma helper_returns od s regularizer method rng w :
  method = "cd" \/ method = "ista" ->
  exists d w1, get_concentrations_helper od s regularizer method rng w
               = (Ok d, w1, []).
Proof.
  intros [-> | ->].
  - do 2 eexists. apply helper_cd.
  - unfold get_concentrations_helper. cbn [String.eqb Ascii.eqb Bool.eqb].
    destruct (with_gen_ok rng (ista od (Z0Mode "ridge") (transpose s)
                                    regularizer no_kwargs) w)
      as (z & w1 & E).
    do 2 eexists. erewrite bind_ok_silent by exact E. reflexivity.
Qed.

(** X14.  With coordinate descent the concentrations of the images of a
    batch are computed one by one, each from its own optical density and
    its own stain matrix alone; images or stain matrices without a partner
    are ignored; no random number is consumed; and when there is no pair at
    all the call raises the error of [torch.stack]. *)
Theorem get_concentrations_cd_itemwise
        (image : T4) (stain_matrix : T3) (regularizer : R) (rng : RngArg)
        (w : World) :
  get_concentrations image stain_matrix regularizer "cd" rng w
  = match zipWith (fun od s =>
                     transpose (coord_descent od (transpose s) Z0Omitted
                                              regularizer no_kwargs))
                  (flatten_permute (rgb2od image)) stain_matrix
    with
    | [] => (Raise (RuntimeError "stack expects a non-empty TensorList"), w, [])
    | r => (Ok r, w, [])
    end.
Proof.
  unfold get_concentrations.
  erewrite bind_ok_silent
    by (apply zip_map_pure; intros; apply helper_cd).
  now destruct (zipWith _ _ _).
Qed.

(** X15.  With a method other than ["cd"] and ["ista"],
    [get_concentrations] raises [NotImplementedError] naming the method at
    the first image, no solver having run and no random number having been
    consumed; but when the batch or the stain matrices are empty the
    method is never looked at, and the error is that of [torch.stack]. *)
Theorem get_concentrations_invalid_method
        (image : T4) (stain_matrix : T3) (regularizer : R)
        (algorithm : string) (rng : RngArg) (w : World) :
  algorithm <> "cd" -> algorithm <> "ista" ->
  get_concentrations image stain_matrix regularizer algorithm rng w
  = (Raise (match flatten_permute (rgb2od image), stain_matrix with
            | _ :: _, _ :: _ =>
                NotImplementedError (algorithm ++ " is not a valid optimizer")
            | _, _ => RuntimeError "stack expects a non-empty TensorList"
            end), w, []).
Proof.
  intros Hcd Hista. unfold get_concentrations, bind.
  rewrite (zip_map_raises _
             (fun _ _ => NotImplementedError
                           (algorithm ++ " is not a valid optimizer")))
    by (intros; now apply helper_invalid).
  now destruct (flatten_permute (rgb2od image)), stain_matrix.
Qed.

(** X16.  With one of the two methods, a call of [get_concentrations] that
    returns has one matrix for each pair of an image and a stain matrix;
    when there is no pair the loop makes no turn, so no solver is called,
    and the call raises the error of [torch.stack]. *)
Theorem get_concentrations_one_result_per_pair
        (image : T4) (stain_matrix : T3) (regularizer : R)
        (algorithm : string) (rng : RngArg) (w : World) :
  algorithm = "cd" \/ algorithm = "ista" ->
  let o := get_concentrations image stain_matrix regularizer algorithm rng w in
  let pairs := Nat.min (length (rgb2od image)) (length stain_matrix) in
  (forall r, result_of o = Ok r -> length r = pairs /\ (0 < pairs)%nat)
  /\ (pairs = 0%nat ->
      o = (Raise (RuntimeError "stack expects a non-empty TensorList"), w, [])).
Proof.
  intros Halg. cbn zeta. unfold get_concentrations. split.
  - destruct (zip_map_returns
                (fun od s => get_concentrations_helper od s regularizer algorithm rng)
                (flatten_permute (rgb2od image)) stain_matrix
                (fun a b w' => helper_returns a b regularizer rng w' Halg) w)
      as (r & w1 & E & Hr).
    erewrite bind_ok_silent by exact E.
    unfold flatten_permute in Hr. rewrite length_map in Hr. rewrite <- Hr.
    destruct r as [|z r]; cbn; [discriminate|].
    intros r' [= <-]. split; [reflexivity | cbn; lia].
  - intros Hp. unfold bind.
    assert (E : forall f : Mat -> Mat -> M Mat,
               zip_map f (flatten_permute (rgb2od image)) stain_matrix w
               = (Ok [], w, [])).
    { intros f. unfold flatten_permute.
      destruct (rgb2od image) as [|a od]; [reflexivity|].
      destruct stain_matrix as [|s sm]; [reflexivity|]. cbn in Hp. lia. }
    now rewrite E.
Qed.
End WithCollaborators.

Lemma get_concentrations_invalid_method_witness :
  get_concentrations (C := Toy.toy) [[[[1%R]]]] [[[1%R]]] 1%R "lars" RngNone
                     Toy.world0
  = (Raise (NotImplementedError "lars is not a valid optimizer"), Toy.world0, []).
Proof.
  apply (@get_concentrations_invalid_method Toy.toy [[[[1%R]]]] [[[1%R]]] 1%R
           "lars" RngNone Toy.world0); discriminate.
Defined.

Lemma get_concentrations_one_result_per_pair_witness :
  get_concentrations (C := Toy.toy) [[[[1%R]]]] [] 1%R "ista" RngNone
                     Toy.world0
  = (Raise (RuntimeError "stack expects a non-empty TensorList"),
     Toy.world0, []).
Proof.
  apply (@get_concentrations_one_result_per_pair Toy.toy [[[[1%R]]]] [] 1%R
           "ista" RngNone Toy.world0).
  - now right.
  - reflexivity.
Defined.
End ConcentrationFacts.
(* ================================================================== *)
(** * The normalizer: fitting, buffers and failures *)
(* ================================================================== *)

Module NormalizerFacts.
Import Tensor Effects Collab DictLearning Separation Spec TensorFacts
       MatrixFacts EffectFacts SeparationFacts ConcentrationFacts.
Local Open Scope string_scope.
Local Open Scope list_scope.

(** ** Computations that leave the buffers alone *)

Lemma quiet_ret {A : Type} (a : A) : quiet (ret a).
Proof.
  intros w. cbn. split; [reflexivity|]. split; [reflexivity|].
  split; [reflexivity | discriminate].
Qed.

Lemma quiet_raise {A : Type} (e : Exception) :
  estimate_error e -> quiet (raise (A := A) e).
Proof.
  intros He w. cbn. split; [reflexivity|]. split; [reflexivity|].
  split; [reflexivity | now intros e' [= <-]].
Qed.

Lemma quiet_bind {A B : Type} (m : M A) (k : A -> M B) :
  quiet m -> (forall a, quiet (k a)) -> quiet (bind m k).
Proof.
  intros Hm Hk w. destruct (Hm w) as (H1 & H2 & H3 & H4).
  unfold bind. destruct (m w) as [[[a|e] w1] ev1]; cbn in *.
  - destruct (Hk a w1) as (K1 & K2 & K3 & K4).
    destruct (k a w1) as [[r w2] ev2]; cbn in *.
    split; [congruence|]. split; [congruence|].
    split; [now rewrite H3, K3 | exact K4].
  - split; [assumption|]. split; [assumption|]. split; [assumption|].
    intros e' [= <-]. now apply H4.
Qed.

Lemma quiet_with_gen_default {A : Type} (f : Generator -> A * Generator) :
  quiet (with_gen RngNone f).
Proof.
  intros w. unfold with_gen. destruct (f (default_gen w)). cbn.
  split; [reflexivity|]. split; [reflexivity|].
  split; [reflexivity | discriminate].
Qed.

Lemma quiet_zip_map {A B D : Type} (f : A -> B -> M D) (u : list A) (v : list B) :
  (forall a b, quiet (f a b)) -> quiet (zip_map f u v).
Proof.
  intros Hf. revert v. induction u as [|a u IH]; intros [|b v];
    try apply quiet_ret.
  cbn [zip_map]. apply quiet_bind; [apply Hf|]. intros d.
  apply quiet_bind; [apply IH|]. intros ds. apply quiet_ret.
Qed.

Section WithCollaborators.
Context {C : Collaborators}.

Lemma quiet_helper od s regularizer method :
  quiet (get_concentrations_helper od s regularizer method RngNone).
Proof.
  unfold get_concentrations_helper.
  destruct (method =? "cd"); [apply quiet_ret|].
  destruct (method =? "ista").
  - apply quiet_bind; [apply quiet_with_gen_default|]. intros z. apply quiet_ret.
  - now apply quiet_raise.
Qed.

Lemma quiet_get_concentrations image stain_matrix regularizer algorithm :
  quiet (DictLearning.get_concentrations image stain_matrix regularizer
                                         algorithm RngNone).
Proof.
  unfold DictLearning.get_concentrations.
  apply quiet_bind.
  - apply quiet_zip_map. intros od s. apply quiet_helper.
  - intros [|z r]; [now apply quiet_raise | apply quiet_ret].
Qed.

Lemma quiet_source_concentrations self image args :
  quiet (source_concentrations self image args).
Proof.
  unfold source_concentrations. apply quiet_bind.
  - destruct (stain_matrix_source self); [apply quiet_ret|].
    apply quiet_with_gen_default.
  - intros s. apply quiet_get_concentrations.
Qed.

(** ** [fit] *)

(** X17.  [fit] accepts a batch of exactly one image: on any other batch
    it raises [AssertionError] before the extractor or a solver is called,
    and registers nothing. *)
Theorem fit_rejects_batch
        (self : StainSeperation) (target : T4) (regularizer : R)
        (args : ExtractorArgs) (w : World) :
  length target <> 1%nat ->
  fit self target regularizer args w = (Raise AssertionError, w, []).
Proof.
  intros H. apply Nat.eqb_neq in H. unfold fit, bind, assert. now rewrite H.
Qed.

(** What a [fit] that returns has registered. *)
Lemma fit_outcome self target regularizer args w self' w' ev :
  fit self target regularizer args w = (Ok self', w', ev) ->
  length target = 1%nat
  /\ ev = []
  /\ given_gen w' = given_gen w
  /\ exists conc,
      heap w' = heap w ++ [conc]
      /\ stain_matrix_target self'
         = Some (fst (get_stain_matrix target args (default_gen w)))
      /\ target_concentrations self' = Some (mkRef (length (heap w)) false)
      /\ maxC_target self' = Some (percentile (map transpose conc) 99 1)
      /\ stain_matrix_source self' = stain_matrix_source self
      /\ reconst_method self' = reconst_method self.
Proof.
  unfold fit, bind at 1, assert.
  destruct (Nat.eqb_spec (length target) 1) as [Hlen|_]; [|discriminate].
  cbn [ret]. unfold bind at 1, call_get_stain_matrix, with_gen.
  destruct (get_stain_matrix target args (default_gen w)) as [sT g].
  cbn [fst]. unfold Separation.get_concentrations.
  set (w1 := mkWorld (given_gen w) g (heap w)).
  destruct (quiet_get_concentrations target sT regularizer (reconst_method self) w1)
    as (Hh & Hg & He & _).
  unfold bind.
  destruct (DictLearning.get_concentrations target sT regularizer
                                            (reconst_method self) RngNone w1)
    as [[[conc|e] w2] ev2]; [|discriminate].
  cbn in Hh, Hg, He. subst ev2.
  cbv [alloc load ret _transpose_trailing storage swapped negb view_of
       heap given_gen default_gen].
  destruct w2 as [gg dg hp]. cbn in Hh, Hg. subst gg hp.
  rewrite nth_fresh.
  intros [= <- <- <-]. cbn.
  split; [assumption|]. split; [reflexivity|]. split; [reflexivity|].
  exists conc. repeat split.
Qed.

(** X18.  The three buffers that a [fit] that returns has registered fit
    together: the stored target concentrations are one new tensor, the
    only storage the call adds; [maxC_target] is the 99th percentile, along
    the pixels, of exactly that tensor; the target stain matrix is what the
    extractor returned for the target.  A fixed source stain matrix and
    the reconstruction method are kept, the caller's generator is not
    used, and nothing is reported. *)
Theorem fit_registers_consistent_buffers
        (self : StainSeperation) (target : T4) (regularizer : R)
        (args : ExtractorArgs) (w : World) :
  let o := fit self target regularizer args w in
  match result_of o with
  | Ok self' =>
      exists ref conc,
        target_concentrations self' = Some ref
        /\ result_of (load ref (world_of o)) = Ok conc
        /\ heap (world_of o) = heap w ++ [conc]
        /\ maxC_target self' = Some (percentile (map transpose conc) 99 1)
        /\ stain_matrix_target self'
           = Some (fst (get_stain_matrix target args (default_gen w)))
        /\ stain_matrix_source self' = stain_matrix_source self
        /\ reconst_method self' = reconst_method self
        /\ given_gen (world_of o) = given_gen w
        /\ events_of o = []
  | Raise _ => True
  end.
Proof.
  cbn zeta.
  destruct (fit self target regularizer args w) as [[[self'|e] w'] ev] eqn:E;
    [|exact I].
  destruct (fit_outcome _ _ _ _ _ E)
    as (_ & -> & Hg & conc & Hh & HsT & Hr & Hm & Hs & Hmeth).
  cbn [result_of world_of events_of fst snd].
  exists (mkRef (length (heap w)) false), conc.
  split; [assumption|]. split.
  - unfold load, result_of. cbn [fst storage swapped view_of].
    now rewrite Hh, nth_fresh.
  - repeat (split; [assumption|]). reflexivity.
Qed.

(** ** [transform] *)

(** X19.  After a [fit] that returned, [transform] finds both buffers it
    reads.  Once the concentrations of an image are estimated, its result
    is the reconstruction from them with, for the target scale, the 99th
    percentile of the target concentrations that [fit] stored and, for the
    target stain matrix, the one that the extractor returned for the
    target; an error of the estimate is passed on. *)
Theorem transform_after_fit
        (self : StainSeperation) (target : T4) (regularizer : R)
        (args : ExtractorArgs) (w : World)
        (self' : StainSeperation) (w' : World) (ev : list Event)
        (image : T4) (args' : ExtractorArgs) (w'' : World) :
  fit self target regularizer args w = (Ok self', w', ev) ->
  exists target_conc,
    heap w' = heap w ++ [target_conc]
    /\ result_of (transform self' image args' w'')
       = match result_of (source_concentrations self' image args' w'') with
         | Ok conc =>
             reconstruct (percentile (map transpose target_conc) 99 1)
                         (fst (get_stain_matrix target args (default_gen w)))
                         (shape4 image) conc
         | Raise e => Raise e
         end.
Proof.
  intros Hfit.
  destruct (fit_outcome _ _ _ _ _ Hfit)
    as (_ & _ & _ & conc & Hh & HsT & _ & HmT & _).
  exists conc. split; [assumption|].
  rewrite transform_split, result_bind.
  destruct (result_of (source_concentrations self' image args' w''));
    [|reflexivity].
  apply (after_concentrations_result _ _ _ _ HmT HsT).
Qed.
(** X20.  Before [fit], [transform] never returns an image.  It first
    estimates the concentrations of the image; if that fails the error of
    the estimate is raised, and if it succeeds the call fails with
    [AttributeError] on [maxC_target]. *)
Theorem transform_before_fit
        (reconst_method : string) (image : T4) (args : ExtractorArgs)
        (w : World) :
  let self := init reconst_method in
  result_of (transform self image args w)
  = match result_of (source_concentrations self image args w) with
    | Ok _ => Raise (AttributeError "maxC_target")
    | Raise e => Raise e
    end.
Proof.
  cbn zeta. rewrite transform_split, result_bind.
  destruct (result_of (source_concentrations _ image args w)); reflexivity.
Qed.

(** X21.  Once [fix_source_stain_matrix] has been called, the fitted
    buffers are as they were and [transform] no longer calls the extractor:
    its outcome is the same whatever the extractor's arguments. *)
Theorem transform_fixed_source_ignores_extractor_arguments
        (self : StainSeperation) (image0 : T4) (args0 : ExtractorArgs)
        (w0 : World) (image : T4) (args1 args2 : ExtractorArgs) (w : World) :
  exists self' w1,
    fix_source_stain_matrix self image0 args0 w0 = (Ok self', w1, [])
    /\ stain_matrix_source self'
       = Some (fst (get_stain_matrix image0 args0 (default_gen w0)))
    /\ stain_matrix_target self' = stain_matrix_target self
    /\ target_concentrations self' = target_concentrations self
    /\ maxC_target self' = maxC_target self
    /\ heap w1 = heap w0
    /\ transform self' image args1 w = transform self' image args2 w.
Proof.
  unfold fix_source_stain_matrix, bind, call_get_stain_matrix, with_gen.
  destruct (get_stain_matrix image0 args0 (default_gen w0)) as [s g].
  cbn [ret fst]. do 2 eexists. split; [reflexivity|].
  cbn. repeat split.
Qed.

(** X22.  With a fixed source stain matrix, [transform] of an empty batch
    raises the [RuntimeError] of [torch.stack]: no image means no
    concentrations to stack.  Nothing else has happened by then. *)
Theorem transform_empty_batch
        (self : StainSeperation) (s : T3) (args : ExtractorArgs) (w : World) :
  stain_matrix_source self = Some s ->
  transform self [] args w
  = (Raise (RuntimeError "stack expects a non-empty TensorList"), w, []).
Proof.
  intros Hs. unfold transform. rewrite Hs.
  unfold Separation.get_concentrations, DictLearning.get_concentrations,
    repeat_stain_mat.
  cbn [length repeat concat].
  unfold bind.
  destruct (flatten_permute (rgb2od [])); reflexivity.
Qed.

(** The storages and generators after the second half of [transform]. *)
Lemma after_concentrations_world self image conc w :
  let o := after_concentrations self image conc w in
  given_gen (world_of o) = given_gen w
  /\ default_gen (world_of o) = default_gen w
  /\ events_of o = []
  /\ exists extra, heap (world_of o) = heap w ++ extra.
Proof.
  cbn zeta. unfold after_concentrations.
  destruct (maxC_target self) as [mT|];
    [|cbn; repeat split; eexists; reflexivity].
  destruct (stain_matrix_target self) as [sT|].
  - cbv [bind alloc load imul save getattr ret reshape raise
         _transpose_trailing result_of world_of events_of view_of storage
         swapped heap negb fst snd given_gen default_gen].
    rewrite !nth_fresh, set_cell_fresh, nth_fresh.
    destruct (_ =? _)%nat; cbn [app fst snd];
      (split; [reflexivity|]); (split; [reflexivity|]);
      (split; [reflexivity|]); rewrite <- app_assoc; eexists; reflexivity.
  - cbv [bind alloc load imul save getattr ret reshape raise
         _transpose_trailing result_of world_of events_of view_of storage
         swapped heap negb fst snd given_gen default_gen].
    rewrite !nth_fresh, set_cell_fresh. cbn [app fst snd].
    split; [reflexivity|]. split; [reflexivity|]. split; [reflexivity|].
    eexists; reflexivity.
Qed.

(** X23.  [transform] never writes to a tensor that existed before the
    call: the storages present when it is called, the fitted target
    concentrations among them, are unchanged afterwards, the in-place
    rescaling reaching only the concentrations the call computed itself.
    It never uses the caller's generator and reports nothing. *)
Theorem transform_keeps_buffers
        (self : StainSeperation) (image : T4) (args : ExtractorArgs)
        (w : World) :
  let o := transform self image args w in
  (exists extra, heap (world_of o) = heap w ++ extra)
  /\ given_gen (world_of o) = given_gen w
  /\ events_of o = [].
Proof.
  cbn zeta. rewrite transform_split.
  destruct (quiet_source_concentrations self image args w) as (Hh & Hg & He & _).
  unfold bind.
  destruct (source_concentrations self image args w) as [[[conc|e] w1] ev1];
    cbn in Hh, Hg, He; subst ev1.
  - destruct (after_concentrations_world self image conc w1)
      as (Kg & _ & Ke & extra & Kh).
    destruct (after_concentrations self image conc w1) as [[r w2] ev2].
    cbn in *. subst ev2. rewrite Kg, Hg, Kh, Hh.
    split; [now exists extra|]. now split.
  - cbn. rewrite Hh, Hg. split; [exists []; now rewrite app_nil_r|]. now split.
Qed.

(** X24.  When the scale of the source concentrations of an image is the
    scale of the target, and no stain has a scale of zero, the rescaling
    changes nothing: [transform] returns the reconstruction from the
    concentrations as they were estimated, reshaped and clamped. *)
Theorem transform_same_scale
        (self : StainSeperation) (image : T4) (args : ExtractorArgs)
        (w : World) (sT conc : T3) (s p : nat) :
  maxC_target self = Some (percentile (map transpose conc) 99 1) ->
  stain_matrix_target self = Some sT ->
  result_of (source_concentrations self image args w) = Ok conc ->
  is_tensor3 1 s p conc ->
  is_matrix 1 s (percentile (map transpose conc) 99 1) ->
  (forall j, (j < s)%nat ->
             entry 0 j (percentile (map transpose conc) 99 1) <> 0%R) ->
  result_of (transform self image args w)
  = reshape_clamp (beer_lambert conc sT) (shape4 image).
Proof.
  intros HmT HsT Hconc Hc Hm Hnz.
  rewrite transform_split, result_bind, Hconc.
  rewrite (after_concentrations_result _ _ _ _ HmT HsT).
  unfold reconstruct. now rewrite (rescaled_by_own_scale Hc Hm Hnz).
Qed.

End WithCollaborators.

Lemma fit_rejects_batch_witness :
  fit (C := Toy.toy) (init "ista") [] 0.01%R tt Toy.world0
  = (Raise AssertionError, Toy.world0, []).
Proof.
  apply (@fit_rejects_batch Toy.toy (init "ista") [] 0.01%R tt Toy.world0).
  discriminate.
Defined.

Lemma transform_after_fit_witness :
  exists target_conc,
    heap (world_of (fit (C := Toy.toy) (init "ista") Toy.image0 0.01%R tt
                        Toy.world0))
    = heap Toy.world0 ++ [target_conc]
    /\ result_of (transform (C := Toy.toy)
                    (mkStainSeperation "ista" (Some [[[1%R]]])
                       (Some (mkRef 0 false))
                       (Some (@percentile Toy.toy (map transpose [[[0.5%R]]])
                                          99%R 1))
                       None)
                    Toy.image0 tt Toy.world0)
       = match result_of (source_concentrations (C := Toy.toy)
                            (mkStainSeperation "ista" (Some [[[1%R]]])
                               (Some (mkRef 0 false))
                               (Some (@percentile Toy.toy
                                        (map transpose [[[0.5%R]]]) 99%R 1))
                               None)
                            Toy.image0 tt Toy.world0) with
         | Ok conc =>
             reconstruct (C := Toy.toy)
                         (@percentile Toy.toy (map transpose target_conc) 99%R 1)
                         (fst (@get_stain_matrix Toy.toy Toy.image0 tt
                                 (default_gen Toy.world0)))
                         (shape4 Toy.image0) conc
         | Raise e => Raise e
         end.
Proof.
  apply (@transform_after_fit Toy.toy (init "ista") Toy.image0 0.01%R tt
           Toy.world0 _ _ [] Toy.image0 tt Toy.world0).
  reflexivity.
Defined.
Lemma transform_empty_batch_witness :
  transform (C := Toy.toy)
            (mkStainSeperation "ista" None None None (Some [[[1%R]]]))
            [] tt Toy.world0
  = (Raise (RuntimeError "stack expects a non-empty TensorList"),
     Toy.world0, []).
Proof.
  apply (@transform_empty_batch Toy.toy
           (mkStainSeperation "ista" None None None (Some [[[1%R]]]))
           [[[1%R]]] tt Toy.world0).
  reflexivity.
Defined.

Lemma transform_same_scale_witness :
  result_of (transform (C := Toy.toy)
               (mkStainSeperation "ista" (Some [[[1%R]]]) None
                  (Some (@percentile Toy.toy (map transpose [[[0.5%R]]]) 99%R 1))
                  None)
               Toy.image0 tt Toy.world0)
  = reshape_clamp (beer_lambert [[[0.5%R]]] [[[1%R]]]) (shape4 Toy.image0).
Proof.
  apply (@transform_same_scale Toy.toy
           (mkStainSeperation "ista" (Some [[[1%R]]]) None
              (Some (@percentile Toy.toy (map transpose [[[0.5%R]]]) 99%R 1))
              None)
           Toy.image0 tt Toy.world0 [[[1%R]]] [[[0.5%R]]] 1 1).
  - reflexivity.
  - reflexivity.
  - reflexivity.
  - split; [reflexivity|]. repeat constructor.
  - split; [reflexivity|]. repeat constructor.
  - intros j Hj. assert (j = 0%nat) by lia. subst j.
    cbn. unfold Rmax. destruct (Rle_dec _ _); lra.
Defined.

End NormalizerFacts.

(* ================================================================== *)
(** * The learning loop: the dictionary of an unconstrained run *)
(* ================================================================== *)

Module RidgeRunFacts.
Import Tensor Effects Collab DictLearning Spec TensorFacts MatrixFacts
       EffectFacts SparseEncodeFacts RidgeFacts LearningFacts.
Local Open Scope R_scope.

Section WithCollaborators.
Context {C : Collaborators}.

Section Valid.
Variables (n f c : nat) (x : Mat) (alpha : R) (algorithm : string)
          (init : option string) (rng : RngArg) (kwargs : Kwargs)
          (persist : bool) (lambd : R).
Hypothesis Hn : (0 < n)%nat.
Hypothesis Hf : (0 < f)%nat.
Hypothesis Hc : (0 < c)%nat.
Hypothesis Hx : is_matrix n f x.
Hypothesis Halg : (algorithm = "cd" \/ algorithm = "ista")%string.
Hypothesis Hinit : initialize_contract (resolved_init algorithm init).
Hypothesis Hsolver : solver_contract.
Hypothesis Hl : 0 < lambd.
Hypothesis Hchol : cholesky_contract c.
Hypothesis Hsolve : cholesky_solve_contract c.

(** An unconstrained turn returns the transpose of the solution of the
    normal equations of the code it has just computed. *)
Lemma learning_step_ridge (i : nat) (weight : Mat) (Z_0 : option Mat)
      (losses : list R) (w : World) :
  is_matrix f c weight ->
  (forall z, Z_0 = Some z -> is_matrix n c z) ->
  exists weight' Z_0' losses',
    result_of (learning_step x alpha false persist lambd rng algorithm
                             init kwargs i (weight, Z_0, losses) w)
    = Ok (weight', Z_0', losses')
    /\ is_matrix f c weight'
    /\ (forall z, Z_0' = Some z -> is_matrix n c z)
    /\ exists Z V,
        is_matrix n c Z /\ is_matrix c f V /\ weight' = transpose V
        /\ matmul (normal_matrix Z lambd n) V = matmul (transpose Z) x.
Proof.
  intros Hw HZ. unfold learning_step. rewrite result_bind.
  destruct (@sparse_encode_returns C n f c x alpha algorithm init rng kwargs
              Hn Hf Hx Halg Hinit Hsolver weight Z_0 w Hw HZ)
    as (Z & -> & HZ1).
  set (w1 := world_of _).
  destruct (@ridge_factored C x Z lambd n c f w1 Hchol Hsolve Hn Hx HZ1
              (normal_matrix_positive_definite HZ1 Hn Hl))
    as (L & V & _ & _ & E & HV & Heq).
  rewrite !result_bind, E. cbn [result_of world_of fst snd ret].
  rewrite result_bind. cbn [emit result_of fst ret].
  do 3 eexists. split; [reflexivity|].
  split; [now apply is_matrix_transpose|].
  split.
  - destruct persist; [|assumption]. intros z [= <-]. assumption.
  - exists Z, V. repeat (split; [assumption|]). split; [reflexivity | assumption].
Qed.

Lemma learning_loop_ridge (steps : nat) :
  forall (a : nat) (weight : Mat) (Z_0 : option Mat) (losses : list R)
         (w : World),
    is_matrix f c weight ->
    (forall z, Z_0 = Some z -> is_matrix n c z) ->
    (0 < steps)%nat ->
    exists weight' Z_0' losses',
      result_of (for_each (seq a steps)
                          (learning_step x alpha false persist lambd rng
                                         algorithm init kwargs)
                          (weight, Z_0, losses) w)
      = Ok (weight', Z_0', losses')
      /\ exists Z V,
          is_matrix n c Z /\ is_matrix c f V /\ weight' = transpose V
          /\ matmul (normal_matrix Z lambd n) V = matmul (transpose Z) x.
Proof.
  induction steps as [|steps IH]; intros a weight Z_0 losses w Hw HZ Hs; [lia|].
  cbn [seq for_each]. rewrite result_bind.
  destruct (learning_step_ridge a losses w Hw HZ)
    as (weight' & Z_0' & losses' & -> & Hw' & HZ' & HP).
  destruct steps as [|steps].
  - cbn. do 3 eexists. split; [reflexivity | exact HP].
  - apply IH; try assumption. lia.
Qed.

End Valid.

(** X25.  On a valid input an unconstrained run of [dict_learning] of at
    least one turn returns the closed-form ridge dictionary of a code [Z]
    of the sample-by-atom size: the transpose of the solution [V] of
    [(Z^T Z + lambd N I) V = Z^T x], with [N] the number of samples. *)
Theorem dict_learning_ridge_dictionary
        (x : Mat) (n_components : nat) (alpha : R) (persist : bool)
        (lambd : R) (steps : nat) (rng : RngArg) (algorithm : string)
        (init : option string) (kwargs : Kwargs) (w : World) :
  valid_input x n_components false lambd algorithm init ->
  (0 < steps)%nat ->
  exists weight losses Z V,
    result_of (dict_learning x n_components alpha false persist lambd steps
                             rng algorithm init kwargs w)
    = Ok (weight, losses)
    /\ is_matrix (nrows x) n_components Z
    /\ is_matrix n_components (ncols x) V
    /\ weight = transpose V
    /\ matmul (normal_matrix Z lambd (nrows x)) V = matmul (transpose Z) x.
Proof.
  intros (Halg & n & f & Hn & Hf & Hc & Hx & Hinit & Hsolver & Horth & Hup)
         Hsteps.
  destruct Hup as [Hfalse | (Hl & Hchol & Hsolve)]; [discriminate|].
  destruct (dict_learning_split x n_components alpha false persist lambd
              steps rng algorithm init kwargs w) as (v & g & w0 & Hv & ->).
  rewrite result_bind. cbv beta iota zeta.
  rewrite (is_matrix_ncols Hx Hn) in *.
  replace (nrows x) with n by (symmetry; apply Hx).
  assert (Hw0 : is_matrix f n_components
                  (fst (orthogonal_ (chunks f n_components v) g)))
    by (apply Horth; now apply is_matrix_chunks).
  destruct (@learning_loop_ridge n f n_components x alpha algorithm init
              rng kwargs persist lambd Hn Hf Hc Hx Halg Hinit Hsolver Hl Hchol
              Hsolve steps 0%nat _ None (repeat 0 steps) w0 Hw0)
    as (weight' & Z' & losses' & -> & Z & V & HZ & HV & HW & Heq);
    [discriminate | lia |].
  cbn. exists weight', losses', Z, V. repeat (split; [assumption|]).
  split; [reflexivity|]. repeat (split; [assumption|]). assumption.
Qed.

End WithCollaborators.

Lemma dict_learning_ridge_dictionary_witness :
  exists weight losses Z V,
    result_of (dict_learning (C := Toy.toy) [[1]; [2]] 1 1 false true 0.01 3
                             RngGiven "ista" None tt Toy.world0)
    = Ok (weight, losses)
    /\ is_matrix (nrows [[1]; [2]]) 1 Z
    /\ is_matrix 1 (ncols [[1]; [2]]) V
    /\ weight = transpose V
    /\ matmul (normal_matrix Z 0.01 (nrows [[1]; [2]])) V
       = matmul (transpose Z) [[1]; [2]].
Proof.
  apply (@dict_learning_ridge_dictionary Toy.toy [[1]; [2]] 1 1 true
           0.01 3 RngGiven "ista" None tt Toy.world0).
  - split; [now right|].
    exists 2%nat, 1%nat.
    split; [lia|]. split; [lia|]. split; [lia|].
    split; [split; [reflexivity | repeat constructor]|].
    split; [exact toy_initialize_contract|].
    split; [exact toy_solver_contract|].
    split; [exact toy_orthogonal_contract|].
    right. split; [lra|].
    split; [exact toy_cholesky_contract | exact toy_cholesky_solve_contract].
  - lia.
Defined.

End RidgeRunFacts.

(* ================================================================== *)
(** * The normalizer: an unknown reconstruction method *)
(* ================================================================== *)

Module MethodFacts.
Import Tensor Effects Collab DictLearning Separation Spec TensorFacts
       MatrixFacts EffectFacts SeparationFacts ConcentrationFacts
       NormalizerFacts.
Local Open Scope string_scope.

Section WithCollaborators.
Context {C : Collaborators}.

(** X26.  The constructor accepts any reconstruction method; one that is
    neither ["cd"] nor ["ista"] surfaces in [fit], on a batch of one image,
    as the [NotImplementedError] naming the method.  By then the stain
    extractor has run, on the process-wide default generator; no tensor of
    concentrations has been stored. *)
Theorem fit_unknown_method
        (method : string) (target : T4) (regularizer : R)
        (args : ExtractorArgs) (w : World) :
  length target = 1%nat ->
  method <> "cd" -> method <> "ista" ->
  rgb2od target <> [] ->
  fst (get_stain_matrix target args (default_gen w)) <> [] ->
  fit (init method) target regularizer args w
  = (Raise (NotImplementedError (method ++ " is not a valid optimizer")),
     mkWorld (given_gen w)
             (snd (get_stain_matrix target args (default_gen w))) (heap w),
     []).
Proof.
  intros Hlen Hcd Hista Hod Hs.
  unfold fit, bind at 1, assert. rewrite Hlen. cbn [Nat.eqb ret].
  unfold bind at 1, call_get_stain_matrix, with_gen.
  destruct (get_stain_matrix target args (default_gen w)) as [sT g].
  cbn [fst snd app] in *.
  unfold Separation.get_concentrations, DictLearning.get_concentrations.
  cbn [reconst_method init].
  unfold bind.
  rewrite (zip_map_raises _
             (fun _ _ => NotImplementedError (method ++ " is not a valid optimizer")))
    by (intros; now apply helper_invalid).
  destruct (rgb2od target) as [|img od]; [contradiction|].
  destruct sT as [|s sT]; [contradiction|].
  reflexivity.
Qed.

End WithCollaborators.

Lemma fit_unknown_method_witness :
  fit (C := Toy.toy) (init "lars") Toy.image0 0.01%R tt Toy.world0
  = (Raise (NotImplementedError "lars is not a valid optimizer"),
     mkWorld (given_gen Toy.world0)
             (snd (@get_stain_matrix Toy.toy Toy.image0 tt
                                     (default_gen Toy.world0)))
             (heap Toy.world0),
     []).
Proof.
  apply (@fit_unknown_method Toy.toy "lars" Toy.image0 0.01%R tt Toy.world0);
    try reflexivity; discriminate.
Defined.

End MethodFacts.
